(** * hvacvibe-hub: the gateway's browser client (gateway/static)

    A shallow embedding of the three client scripts

      - [app.js]        WebSocket client and view router,
      - [dashboard.js]  live tiles and the canvas chart,
      - [setup.js]      the setup screen (on-screen keyboard, HTML escaping),

    followed by the properties of the viewer protocol that they implement.

    Conventions of the embedding.
      - A JavaScript number is an IEEE 754 double ([Number]): a finite value
        (a rational), an infinity or NaN.  An arithmetic operation rounds its
        exact result to the nearest double, ties to even, and overflows to an
        infinity ([round_double]); a decimal literal denotes the nearest
        double.  The sign of zero is not kept: no script divides by zero or
        prints a zero with its sign.  The numbers of a JSON message are
        finite ([Q]).  Pixel sizes read from the layout ([clientWidth],
        [clientHeight]) and minutes are integers, on which the arithmetic of
        doubles is exact; they are computed in [Z].  The engine's resource
        limits (stack depth, argument count of a spread call) are left out.
      - A JavaScript string is a [string]; one [ascii] stands for one code unit.
      - The page is a store of elements addressed by node references; an
        element that [getElementById] does not find is [null], and a property
        access on [null] raises [TypeError].
      - A script function is a computation in the monad [M]: it transforms the
        world and completes normally or abruptly; the mutations made before a
        [throw] stay in the world. *)

From Stdlib Require Import ZArith QArith Qround Qminmax Qabs Qpower Lia Lqa String Ascii List.
From stdpp Require Import gmap strings list fin_maps pretty.
Import ListNotations.

Local Open Scope string_scope.

(* ===================================================================== *)
(** * Part I.  The embedding                                              *)
(* ===================================================================== *)

(** ** JavaScript built-ins *)

Module JS.

(** The host's number formatting and text metrics: [Number::toString]
    (template literals) and [ctx.measureText(s).width]. *)
Class Host := {
  Number_toString : Q -> string;
  measureText_width : string -> Q
}.

(** *** Numbers *)

Definition pow2 (e : Z) : Q := (2 ^ e)%Q.

(** The binary exponent of a positive [x]: [2^k <= x < 2^(k+1)]. *)
Definition ilog2 (x : Q) : Z :=
  let k := (Z.log2 (Qnum x) - Z.log2 (Zpos (Qden x)))%Z in
  if Qle_bool (pow2 k) x then k else (k - 1)%Z.

(** The nearest integer, a tie going to the even one. *)
Definition round_half_even (x : Q) : Z :=
  let f := Qfloor x in
  match Qcompare (x - inject_Z f) (1 # 2) with
  | Lt => f
  | Gt => (f + 1)%Z
  | Eq => if Z.even f then f else (f + 1)%Z
  end.

Inductive Number := Finite (q : Q) | PosInfinity | NegInfinity | NaN.

(** The exponent of the last place of the doubles around [x]: 53 bits of
    precision, and [2^-1074] for the subnormal ones. *)
Definition quantum (x : Q) : Z := Z.max (ilog2 (Qabs x) - 52) (-1074).

(** The double nearest to the real [x]: what an operation with the exact
    result [x] returns. *)
Definition round_double (x : Q) : Number :=
  if Qeq_bool x 0 then Finite 0
  else
    let e := quantum x in
    let r := (inject_Z (round_half_even (x / pow2 e)) * pow2 e)%Q in
    if Qle_bool (pow2 1024) (Qabs r)
    then (if Qle_bool 0 x then PosInfinity else NegInfinity)
    else Finite (Qred r).

Coercion Finite : Q >-> Number.
Bind Scope Q_scope with Number.

(** A decimal literal denotes the nearest double. *)
Definition literal (q : Q) : Number := round_double q.

Definition Number_opp (a : Number) : Number :=
  match a with
  | Finite x => Finite (- x)
  | PosInfinity => NegInfinity
  | NegInfinity => PosInfinity
  | NaN => NaN
  end.

(** [a <= b] *)
Definition Number_le (a b : Number) : bool :=
  match a, b with
  | NaN, _ | _, NaN => false
  | NegInfinity, _ | _, PosInfinity => true
  | Finite x, Finite y => Qle_bool x y
  | _, _ => false
  end.

(** [a < b] *)
Definition Number_lt (a b : Number) : bool :=
  match a, b with
  | NaN, _ | _, NaN => false
  | Finite x, Finite y => negb (Qle_bool y x)
  | PosInfinity, _ | _, NegInfinity => false
  | _, _ => true
  end.

(** [a + b] *)
Definition Number_add (a b : Number) : Number :=
  match a, b with
  | NaN, _ | _, NaN => NaN
  | Finite x, Finite y => round_double (x + y)
  | PosInfinity, NegInfinity | NegInfinity, PosInfinity => NaN
  | PosInfinity, _ | _, PosInfinity => PosInfinity
  | NegInfinity, _ | _, NegInfinity => NegInfinity
  end.

(** [a - b] *)
Definition Number_sub (a b : Number) : Number := Number_add a (Number_opp b).

Definition signed_infinity (positive : bool) : Number :=
  if positive then PosInfinity else NegInfinity.

(** [a * b] *)
Definition Number_mul (a b : Number) : Number :=
  match a, b with
  | NaN, _ | _, NaN => NaN
  | Finite x, Finite y => round_double (x * y)
  | Finite x, PosInfinity | PosInfinity, Finite x =>
      if Qeq_bool x 0 then NaN else signed_infinity (Qle_bool 0 x)
  | Finite x, NegInfinity | NegInfinity, Finite x =>
      if Qeq_bool x 0 then NaN else signed_infinity (negb (Qle_bool 0 x))
  | PosInfinity, PosInfinity | NegInfinity, NegInfinity => PosInfinity
  | PosInfinity, NegInfinity | NegInfinity, PosInfinity => NegInfinity
  end.

(** [a / b]; a zero divisor counts as [+0]. *)
Definition Number_div (a b : Number) : Number :=
  match a, b with
  | NaN, _ | _, NaN => NaN
  | Finite x, Finite y =>
      if Qeq_bool y 0
      then (if Qeq_bool x 0 then NaN else signed_infinity (Qle_bool 0 x))
      else round_double (x / y)
  | Finite _, _ => Finite 0
  | PosInfinity, Finite y => signed_infinity (Qle_bool 0 y)
  | NegInfinity, Finite y => signed_infinity (negb (Qle_bool 0 y))
  | _, _ => NaN
  end.

(** [Math.max(a, b)] and [Math.min(a, b)] *)
Definition Number_max (a b : Number) : Number :=
  match a, b with
  | NaN, _ | _, NaN => NaN
  | _, _ => if Number_le a b then b else a
  end.

Definition Number_min (a b : Number) : Number :=
  match a, b with
  | NaN, _ | _, NaN => NaN
  | _, _ => if Number_le a b then a else b
  end.

(** [Math.round(a)]: the nearest integer, a tie going up. *)
Definition Number_round (a : Number) : Number :=
  match a with
  | Finite x => Finite (inject_Z (Qfloor (x + (1 # 2))))
  | _ => a
  end.

(** [Math.ceil(a)] *)
Definition Number_ceil (a : Number) : Number :=
  match a with
  | Finite x => Finite (inject_Z (Qceiling x))
  | _ => a
  end.

(** [Math.round] on the integer arithmetic of pixels and minutes. *)
Definition Math_round (x : Q) : Z := Qfloor (x + (1 # 2)).

(** [Math.max(...arr)] for a non-empty [arr = x :: xs] of finite numbers. *)
Definition Math_max_spread (x : Q) (xs : list Q) : Q := fold_left Qmax xs x.

(** [s.repeat(n)] for a one-character [s]. *)
Fixpoint repeat_char (c : ascii) (n : nat) : string :=
  match n with
  | O => EmptyString
  | S n' => String c (repeat_char c n')
  end.

(** [s.slice(0, -1)]: all but the last code unit. *)
Fixpoint slice_drop_last (s : string) : string :=
  match s with
  | EmptyString => EmptyString
  | String c EmptyString => EmptyString
  | String c rest => String c (slice_drop_last rest)
  end.

(** [s.replace(/c/g, r)] for a single literal character [c]. *)
Fixpoint replace_all (c : ascii) (r : string) (s : string) : string :=
  match s with
  | EmptyString => EmptyString
  | String a rest =>
      if Ascii.eqb a c then r +:+ replace_all c r rest
      else String a (replace_all c r rest)
  end.

Fixpoint pad_zeros (n : nat) (s : string) : string :=
  match n with
  | O => s
  | S n' => pad_zeros n' (String "0" s)
  end.

Fixpoint take_str (n : nat) (s : string) : string :=
  match n, s with
  | S n', String c rest => String c (take_str n' rest)
  | _, _ => EmptyString
  end.

Fixpoint drop_str (n : nat) (s : string) : string :=
  match n, s with
  | S n', String _ rest => drop_str n' rest
  | _, _ => s
  end.

(** [x.toFixed(f)]: the decimal expansion of the integer nearest to
    [|x| * 10^f] (ties to the larger one), with the point before the last
    [f] digits; numbers from [10^21] on fall back to [Number::toString]. *)
Definition toFixed `{Host} (x : Q) (f : nat) : string :=
  let ax := Qabs x in
  if Qle_bool (inject_Z (10 ^ 21)) ax then Number_toString x
  else
    let n := Qfloor (ax * inject_Z (10 ^ Z.of_nat f) + (1 # 2)) in
    let m := pretty n in
    let m := pad_zeros (S f - String.length m) m in
    let k := (String.length m - f)%nat in
    let body := if Nat.eqb f 0 then m else take_str k m +:+ "." +:+ drop_str k m in
    if Qlt_le_dec x 0 then "-" +:+ body else body.

(** [a.toFixed(f)] *)
Definition Number_toFixed `{Host} (a : Number) (f : nat) : string :=
  match a with
  | Finite x => toFixed x f
  | PosInfinity => "Infinity"
  | NegInfinity => "-Infinity"
  | NaN => "NaN"
  end.

(** The completion of a script function. *)
Inductive JSError := TypeError (what : string).

Inductive Completion (A : Type) :=
| Normal (a : A)
| Throw (e : JSError).
Arguments Normal {A} a.
Arguments Throw {A} e.

End JS.
Export JS.

(** ** The page *)

Module Dom.

(** A child of an element: a text node, markup assigned through
    [innerHTML] (kept unparsed), or a [<span>] created by the script. *)
Inductive Child :=
| TextNode (s : string)
| Markup (html : string)
| SpanEl (text : string).

Record Element := mkElement {
  classes : list string;          (* the class attribute, as its token set *)
  children : list Child;
  style : gmap string string      (* inline style: property -> value *)
}.

(** An element is found by its id or, for the descendants that the scripts
    reach through a selector, by its position in the document. *)
Definition NodeRef : Type := string + nat.

Record Page := mkPage {
  nodes : gmap (string + nat) Element;
  (** [document.getElementById('tile-rms').querySelector('.tile-value')] *)
  sel_tile_value : option NodeRef;
  (** [document.querySelectorAll('.signal-bars .bar')], in document order *)
  sel_signal_bars : list NodeRef
}.

(** The tokens of a class attribute: split at spaces, first occurrences. *)
Fixpoint split_spaces (s cur : string) : list string :=
  match s with
  | EmptyString => if String.eqb cur EmptyString then [] else [cur]
  | String c rest =>
      if Ascii.eqb c " "
      then (if String.eqb cur EmptyString then split_spaces rest EmptyString
            else cur :: split_spaces rest EmptyString)
      else split_spaces rest (cur +:+ String c EmptyString)
  end.

Definition class_tokens (s : string) : list string :=
  remove_dups (split_spaces s EmptyString).

Definition has_class (tok : string) (e : Element) : bool :=
  bool_decide (tok ∈ classes e).

Definition classList_add (tok : string) (e : Element) : Element :=
  if has_class tok e then e
  else mkElement (classes e ++ [tok]) (children e) (style e).

Definition classList_remove (tok : string) (e : Element) : Element :=
  mkElement (filter (λ t, t ≠ tok) (classes e)) (children e) (style e).

Definition classList_toggle (tok : string) (force : bool) (e : Element) : Element :=
  if force then classList_add tok e else classList_remove tok e.

Definition set_className (s : string) (e : Element) : Element :=
  mkElement (class_tokens s) (children e) (style e).

Definition set_textContent (s : string) (e : Element) : Element :=
  mkElement (classes e) (if String.eqb s EmptyString then [] else [TextNode s]) (style e).

Definition set_innerHTML (s : string) (e : Element) : Element :=
  mkElement (classes e) (if String.eqb s EmptyString then [] else [Markup s]) (style e).

(** [span = document.createElement('span'); span.textContent = v;
    el.appendChild(span)] *)
Definition appendChild_span (v : string) (e : Element) : Element :=
  mkElement (classes e) (children e ++ [SpanEl v]) (style e).

Definition set_style (prop val : string) (e : Element) : Element :=
  mkElement (classes e) (children e) (<[prop := val]> (style e)).

Definition lookup_node (r : NodeRef) (p : Page) : option Element := nodes p !! r.

Definition by_id (id : string) : NodeRef := inl id.

(** [document.getElementById(id)]: the element's reference, [None] for
    [null]. *)
Definition getElementById (id : string) (p : Page) : option NodeRef :=
  match nodes p !! by_id id with
  | Some _ => Some (by_id id)
  | None => None
  end.

(** A write through a reference held by the script. *)
Definition update_node (r : NodeRef) (f : Element -> Element) (p : Page) : Page :=
  mkPage (alter f r (nodes p)) (sel_tile_value p) (sel_signal_bars p).

(** An element is shown unless it carries the class [hidden]. *)
Definition is_hidden (r : NodeRef) (p : Page) : Prop :=
  exists e, lookup_node r p = Some e /\ "hidden" ∈ classes e.

Definition is_visible (r : NodeRef) (p : Page) : Prop :=
  exists e, lookup_node r p = Some e /\ "hidden" ∉ classes e.

Definition text_of (r : NodeRef) (p : Page) : option (list Child) :=
  children <$> lookup_node r p.

End Dom.
Export Dom.

(** ** The state of the three scripts *)

(** [currentView] is only ever assigned ['main'] or ['setup']. *)
Inductive View := ViewMain | ViewSetup.

Inductive ReadyState := CONNECTING | OPEN | CLOSING | CLOSED.

(** The command objects that the scripts hand to [App.send]. *)
Inductive Command :=
| CmdGetStatus
| CmdWifiScan
| CmdWifiConnect (ssid : option string) (password : string)
| CmdBleScan
| CmdBlePair (address name : string)
| CmdBleUnpair (address : string).

(** A socket: its [readyState] and the frames written to it with
    [ws.send(JSON.stringify(obj))], oldest first. *)
Record WebSocket := mkWebSocket {
  readyState : ReadyState;
  sent : list Command
}.

(** The [data] of a [sensor_update] message. *)
Record SensorData := mkSensorData {
  vib_rms : Q;
  vib_peak : Q;
  temp : Q;
  humidity : Q;
  alarm : bool;
  connected : bool;
  battery : Q;
  rssi : Q;
  history : list (Z * Q)         (* [[minute, rms], ...] *)
}.

(** A parsed message from the gateway: [msg.type], [msg.cmd], [msg.data]. *)
Record Msg := mkMsg {
  msg_type : option string;
  msg_cmd : option string;
  msg_data : option SensorData
}.

(** The calls made on the 2d context, in order. *)
Inductive DrawCmd :=
| ClearRect (x y w h : Number)
| SetFillStyle (s : string)
| SetStrokeStyle (s : string)
| SetFont (s : string)
| SetLineWidth (w : Q)
| SetLineDash (segments : list Q)
| FillText (text : string) (x y : Number)
| FillRect (x y w h : Number)
| BeginPath
| ClosePath
| MoveTo (x y : Number)
| LineTo (x y : Number)
| ArcFull (x y r : Number)         (* arc(x, y, r, 0, Math.PI * 2) *)
| Stroke
| Fill.

Inductive KbdMode := KbdLower | KbdUpper | KbdNum.

(** [new Date()], as far as the scripts read it. *)
Record Date := mkDate {
  getHours : Z;
  getMinutes : Z;
  toLocaleDateString : string;
  toTimeString : string
}.

(** A listener is a closure; the table [listeners] holds references to
    closures. *)
Definition Listener : Type := nat.

Record World := mkWorld {
  page : Page;
  clock : Date;
  (* app.js *)
  ws : option WebSocket;
  currentView : View;
  listeners : gmap string (list Listener);
  (* dashboard.js *)
  ctx : option (list DrawCmd);
  chartW : option Z;
  chartH : option Z;
  sensorData : option SensorData;
  (* setup.js *)
  selectedSSID : option string;
  kbdText : string;
  kbdMode : KbdMode
}.

Definition set_page (p : Page) (w : World) : World :=
  mkWorld p (clock w) (ws w) (currentView w) (listeners w)
          (ctx w) (chartW w) (chartH w) (sensorData w)
          (selectedSSID w) (kbdText w) (kbdMode w).

Definition set_ws (s : option WebSocket) (w : World) : World :=
  mkWorld (page w) (clock w) s (currentView w) (listeners w)
          (ctx w) (chartW w) (chartH w) (sensorData w)
          (selectedSSID w) (kbdText w) (kbdMode w).

Definition set_currentView (v : View) (w : World) : World :=
  mkWorld (page w) (clock w) (ws w) v (listeners w)
          (ctx w) (chartW w) (chartH w) (sensorData w)
          (selectedSSID w) (kbdText w) (kbdMode w).

Definition set_listeners (l : gmap string (list Listener)) (w : World) : World :=
  mkWorld (page w) (clock w) (ws w) (currentView w) l
          (ctx w) (chartW w) (chartH w) (sensorData w)
          (selectedSSID w) (kbdText w) (kbdMode w).

Definition set_ctx (c : option (list DrawCmd)) (w : World) : World :=
  mkWorld (page w) (clock w) (ws w) (currentView w) (listeners w)
          c (chartW w) (chartH w) (sensorData w)
          (selectedSSID w) (kbdText w) (kbdMode w).

Definition set_sensorData (d : option SensorData) (w : World) : World :=
  mkWorld (page w) (clock w) (ws w) (currentView w) (listeners w)
          (ctx w) (chartW w) (chartH w) d
          (selectedSSID w) (kbdText w) (kbdMode w).

Definition set_kbdText (s : string) (w : World) : World :=
  mkWorld (page w) (clock w) (ws w) (currentView w) (listeners w)
          (ctx w) (chartW w) (chartH w) (sensorData w)
          (selectedSSID w) s (kbdMode w).

Definition set_kbdMode (m : KbdMode) (w : World) : World :=
  mkWorld (page w) (clock w) (ws w) (currentView w) (listeners w)
          (ctx w) (chartW w) (chartH w) (sensorData w)
          (selectedSSID w) (kbdText w) m.

Definition set_selectedSSID (s : option string) (w : World) : World :=
  mkWorld (page w) (clock w) (ws w) (currentView w) (listeners w)
          (ctx w) (chartW w) (chartH w) (sensorData w)
          s (kbdText w) (kbdMode w).

(** ** The monad of script functions *)

Definition M (A : Type) : Type := World -> World * Completion A.

Definition ret {A} (a : A) : M A := fun w => (w, Normal a).

Definition bind {A B} (m : M A) (k : A -> M B) : M B :=
  fun w =>
    match m w with
    | (w', Normal a) => k a w'
    | (w', Throw e) => (w', Throw e)
    end.

Definition throw {A} (e : JSError) : M A := fun w => (w, Throw e).

Definition gets {A} (f : World -> A) : M A := fun w => (w, Normal (f w)).

Definition modify (f : World -> World) : M unit := fun w => (f w, Normal tt).

Notation "x <- m ;; k" := (bind m (fun x => k))
  (at level 100, m at next level, right associativity).
Notation "m ;;; k" := (bind m (fun _ => k))
  (at level 100, right associativity).

(** [arr.forEach((x, i) => f(x, i))], from index [i]. *)
Fixpoint forEach_from {A} (i : nat) (l : list A) (f : A -> nat -> M unit) : M unit :=
  match l with
  | [] => ret tt
  | x :: rest => f x i ;;; forEach_from (S i) rest f
  end.

Definition forEach {A} (l : list A) (f : A -> nat -> M unit) : M unit :=
  forEach_from 0 l f.

(** The world after a call, and how the call completed. *)
Definition world_after {A} (m : M A) (w : World) : World := fst (m w).
Definition completion_of {A} (m : M A) (w : World) : Completion A := snd (m w).

Definition completes_normally {A} (m : M A) (w : World) : Prop :=
  exists a, completion_of m w = Normal a.

(** *** Page access from a script *)

Definition getEl (id : string) : M (option NodeRef) :=
  gets (fun w => getElementById id (page w)).

(** A property access on a possibly-null reference. *)
Definition deref (what : string) (r : option NodeRef) : M NodeRef :=
  match r with
  | Some n => ret n
  | None => throw (TypeError what)
  end.

Definition write (r : NodeRef) (f : Element -> Element) : M unit :=
  modify (fun w => set_page (update_node r f (page w)) w).

(** [el && f(el)] and [if (el) f(el)]. *)
Definition when_present (r : option NodeRef) (f : Element -> Element) : M unit :=
  match r with
  | Some n => write n f
  | None => ret tt
  end.

(** ** app.js *)

Module App.

(** [ws && ws.readyState === WebSocket.OPEN] *)
Definition is_open (s : option WebSocket) : bool :=
  match s with
  | Some sock => match readyState sock with OPEN => true | _ => false end
  | None => false
  end.

Definition send (obj : Command) : M unit :=
  s <- gets ws ;;
  match s with
  | Some sock =>
      if is_open (Some sock)
      then modify (set_ws (Some (mkWebSocket (readyState sock) (sent sock ++ [obj]))))
      else ret tt
  | None => ret tt
  end.

Definition showMain : M unit :=
  modify (set_currentView ViewMain) ;;;
  m <- getEl "view-main" ;;
  m <- deref "view-main" m ;;
  write m (classList_add "active") ;;;
  s <- getEl "view-setup" ;;
  s <- deref "view-setup" s ;;
  write s (classList_remove "active").

Definition showSetup : M unit :=
  modify (set_currentView ViewSetup) ;;;
  s <- getEl "view-setup" ;;
  s <- deref "view-setup" s ;;
  write s (classList_add "active") ;;;
  m <- getEl "view-main" ;;
  m <- deref "view-main" m ;;
  write m (classList_remove "active") ;;;
  (* request fresh status when entering setup *)
  send CmdGetStatus.

(** The properties that the object literal [{}] inherits; looking one of
    them up in [listeners] yields a value that is not an array. *)
Definition object_prototype_keys : list string :=
  [ "constructor"; "toString"; "toLocaleString"; "valueOf";
    "hasOwnProperty"; "isPrototypeOf"; "propertyIsEnumerable"; "__proto__";
    "__defineGetter__"; "__defineSetter__";
    "__lookupGetter__"; "__lookupSetter__" ].

(** The property key of [msg.type]. *)
Definition type_key (t : option string) : string :=
  match t with
  | Some s => s
  | None => "undefined"
  end.

(** An own property of the table [listeners]. *)
Definition own_property (key : string) (tbl : gmap string (list Listener))
  : option (list Listener) := tbl !! key.

(** [listeners[key] || []], as far as [forEach] can be called on it. *)
Definition listeners_of (key : string) : M (list Listener) :=
  tbl <- gets listeners ;;
  match own_property key tbl with
  | Some l => ret l
  | None =>
      if bool_decide (key ∈ object_prototype_keys)
      then throw (TypeError "forEach is not a function")
      else ret []
  end.

Definition on (type : string) (fn : Listener) : M unit :=
  tbl <- gets listeners ;;
  match own_property type tbl with
  | Some l => modify (set_listeners (<[type := (l ++ [fn])%list]> tbl))
  | None =>
      if bool_decide (type ∈ object_prototype_keys)
      then throw (TypeError "push is not a function")
      else modify (set_listeners (<[type := [fn]]> tbl))
  end.

(** [clockTick], without the timer it re-arms. *)
Definition clockTick : M unit :=
  el <- getEl "clock" ;;
  now <- gets clock ;;
  when_present el (set_textContent (take_str 8 (toTimeString now))).

(** [ws = new WebSocket(url)] *)
Definition connect : M unit :=
  modify (set_ws (Some (mkWebSocket CONNECTING []))).

(** The socket opens: the browser sets [readyState], then runs [onopen]. *)
Definition ws_onopen : M unit :=
  s <- gets ws ;;
  match s with
  | Some sock => modify (set_ws (Some (mkWebSocket OPEN (sent sock)))) ;;; clockTick
  | None => ret tt
  end.

Section Dispatch.

(** The bodies of the registered closures. *)
Variable call : Listener -> Msg -> M unit.

Definition dispatch (msg : Msg) : M unit :=
  let type := msg_type msg in
  if bool_decide (type = Some "toggle_view")
  then
    v <- gets currentView ;;
    match v with
    | ViewMain => showSetup
    | ViewSetup => showMain
    end
  else
    l <- listeners_of (type_key type) ;;
    forEach l (fun fn _ => call fn msg) ;;;
    l' <- listeners_of "*" ;;
    forEach l' (fun fn _ => call fn msg).

(** [ws.onmessage]: [parsed] is [None] when [JSON.parse] throws. *)
Definition ws_onmessage (parsed : option Msg) : M unit :=
  match parsed with
  | None => ret tt
  | Some msg => dispatch msg
  end.

End Dispatch.

End App.

(** ** dashboard.js *)

Module Dashboard.

Definition MINUTES : Z := 1440.   (* 00:00 -> 23:59 *)

Definition computeYMax (values : list Q) : Number :=
  let mx := match values with
            | [] => 0%Q
            | x :: xs => Math_max_spread x xs
            end in
  let raw := Number_max 1 (Number_mul mx (literal (115 # 100))) in
  Number_div (Number_ceil (Number_mul raw 4)) 4.   (* round up to nearest 0.25 *)

Definition rssiToBars (rssi : Q) : nat :=
  if Qle_bool (-(60)) rssi then 4%nat
  else if Qle_bool (-(70)) rssi then 3%nat
  else if Qle_bool (-(80)) rssi then 2%nat
  else if Qle_bool (-(90)) rssi then 1%nat
  else 0%nat.

Definition setText (id val : string) : M unit :=
  el <- getEl id ;;
  when_present el (set_textContent val).

(** [a > b] on numbers. *)
Definition Qgtb (a b : Q) : bool := negb (Qle_bool a b).

(** [pct > 50 ? 'var(--green)' : pct > 20 ? 'var(--yellow)' : 'var(--red)'] *)
Definition battery_colour (pct : Q) : string :=
  if Qgtb pct 50 then "var(--green)"
  else if Qgtb pct 20 then "var(--yellow)"
  else "var(--red)".

(** Chart geometry of [renderChart]. *)
Definition PAD_T : Z := 20.
Definition PAD_B : Z := 18.
Definition PAD_L : Z := 6.
Definition PAD_R : Z := 8.
Definition plot_w (cw : Z) : Z := cw - PAD_L - PAD_R.
Definition plot_h (ch : Z) : Z := ch - PAD_T - PAD_B.
Definition plot_x : Z := PAD_L.
Definition plot_y : Z := PAD_T.

(** [px + Math.round(min * pw / (MINUTES - 1))] *)
Definition x_of_minute (pw : Z) (min : Z) : Z :=
  plot_x + Math_round (inject_Z min * inject_Z pw / inject_Z (MINUTES - 1)).

Definition zq (z : Z) : Q := inject_Z z.

(** [py + ph - Math.round(ph * v / yMax)] *)
Definition y_of_value (ph : Z) (yMax v : Number) : Number :=
  Number_sub (zq (plot_y + ph))
             (Number_round (Number_div (Number_mul (zq ph) v) yMax)).

(** [Math.max(py, Math.min(py + ph, y))] *)
Definition clamp_y (ph : Z) (y : Number) : Number :=
  Number_max (zq plot_y) (Number_min (zq (plot_y + ph)) y).

(** One entry of [history.map(([min, rms]) => ...)]. *)
Definition point_of (pw ph : Z) (yMax : Number) (p : Z * Q) : Z * Number :=
  let x := x_of_minute pw (fst p) in
  let y := y_of_value ph yMax (snd p) in
  (x, clamp_y ph y).

Definition thresh : Number := literal (6 # 10).

Definition timeLabels : list (Z * string) :=
  [ (0%Z, "00:00"); (360%Z, "06:00"); (720%Z, "12:00");
    (1080%Z, "18:00"); (1439%Z, "24:00") ].

(** [arr[arr.length - 1]] followed by a property access or a
    destructuring: [undefined] there raises. *)
Definition last_entry {A} (what : string) (arr : list A) : M A :=
  match last arr with
  | Some a => ret a
  | None => throw (TypeError what)
  end.

Definition draw (cmds : list DrawCmd) : M unit :=
  modify (fun w => set_ctx ((fun log => (log ++ cmds)%list) <$> ctx w) w).

Section WithHost.

Context `{host : Host}.

Definition updateYAxis (history : list (Z * Q)) : M unit :=
  let yMax := computeYMax (map snd history) in
  el <- getEl "chart-yaxis" ;;
  match el with
  | None => ret tt
  | Some el =>
      write el (set_innerHTML EmptyString) ;;;
      forEach [4; 3; 2; 1; 0]%Z (fun i _ =>
        let v := Number_toFixed (Number_div (Number_mul yMax (zq i)) 4) 2 in
        write el (appendChild_span v))
  end.

Definition updateTiles (d : SensorData) : M unit :=
  setText "val-rms" (toFixed (vib_rms d) 3) ;;;
  setText "val-peak" (toFixed (vib_peak d) 2) ;;;
  setText "val-temp" (toFixed (temp d) 1) ;;;
  setText "val-hum" (toFixed (humidity d) 1) ;;;
  (* Alarm *)
  badge <- getEl "alarm-badge" ;;
  clk <- getEl "clock" ;;
  (if alarm d then
     when_present badge (classList_remove "hidden") ;;;
     when_present clk (classList_add "hidden") ;;;
     tile <- getEl "tile-rms" ;;
     _ <- deref "tile-rms" tile ;;
     v <- gets (fun w => sel_tile_value (page w)) ;;
     v <- deref ".tile-value" v ;;
     write v (set_style "color" "var(--red)")
   else
     when_present badge (classList_add "hidden") ;;;
     when_present clk (classList_remove "hidden") ;;;
     tile <- getEl "tile-rms" ;;
     _ <- deref "tile-rms" tile ;;
     v <- gets (fun w => sel_tile_value (page w)) ;;
     v <- deref ".tile-value" v ;;
     write v (set_style "color" "var(--accent)")) ;;;
  (* Connection dot *)
  dot <- getEl "conn-dot" ;;
  label <- getEl "conn-label" ;;
  (if connected d then
     when_present dot (set_className "conn-dot connected") ;;;
     when_present label (set_textContent "Connected") ;;;
     when_present label (set_style "color" "var(--green)")
   else
     when_present dot (set_className "conn-dot disconnected") ;;;
     when_present label (set_textContent "No Signal") ;;;
     when_present label (set_style "color" "var(--red)")) ;;;
  (* Signal bars *)
  let bars := rssiToBars (rssi d) in
  els <- gets (fun w => sel_signal_bars (page w)) ;;
  forEach els (fun el i => write el (classList_toggle "on" (i <? bars)%nat)) ;;;
  setText "rssi-val" (Number_toString (rssi d) +:+ "dBm") ;;;
  (* Battery *)
  let pct := battery d in
  fill <- getEl "bat-fill" ;;
  batPct <- getEl "bat-pct" ;;
  when_present fill (set_style "width" (Number_toString pct +:+ "%")) ;;;
  when_present fill (set_style "background" (battery_colour pct)) ;;;
  when_present batPct (set_textContent (Number_toString pct +:+ "%")) ;;;
  when_present batPct (set_style "color" (battery_colour pct)) ;;;
  (* Y-axis labels *)
  updateYAxis (history d).

Definition renderChart (d : SensorData) : M unit :=
  c <- gets ctx ;;
  cw <- gets chartW ;;
  ch <- gets chartH ;;
  match c, cw, ch with
  | Some _, Some cw, Some ch =>
      if ((cw =? 0) || (ch =? 0))%Z then ret tt
      else
        let hist := history d in          (* [[minute, rms], ...] *)
        now <- gets clock ;;
        let curMin := (getHours now * 60 + getMinutes now)%Z in
        let pw := plot_w cw in
        let ph := plot_h ch in
        let px := plot_x in
        let py := plot_y in
        let yMax := computeYMax (map snd hist) in
        draw [ ClearRect 0 0 (zq cw) (zq ch) ] ;;;
        (* ---- Title ---- *)
        draw [ SetFillStyle "#64707d"; SetFont "10px Courier New";
               FillText ("VIB RMS — " +:+ toLocaleDateString now) (zq (px + 4)) 12 ] ;;;
        (* ---- Grid lines + X-axis labels ---- *)
        draw [ SetStrokeStyle "#232f3a"; SetLineWidth 1 ] ;;;
        forEach [0; 1; 2; 3; 4]%Z (fun i _ =>
          let gy := (py + ph - Math_round (zq ph * zq i / 4))%Z in
          draw [ BeginPath; MoveTo (zq px) (zq gy); LineTo (zq (px + pw)) (zq gy); Stroke ]) ;;;
        draw [ SetFillStyle "#64707d"; SetFont "10px Courier New" ] ;;;
        forEach timeLabels (fun '(min, label) _ =>
          let lx := x_of_minute pw min in
          let tw := measureText_width label in
          let fx := Number_max (zq px)
                      (Number_min (Number_sub (zq lx) (Number_div tw 2))
                                  (Number_sub (zq (px + pw)) tw)) in
          draw [ BeginPath; MoveTo (zq lx) (zq (py + ph)); LineTo (zq lx) (zq (py + ph + 3));
                 Stroke; FillText label fx (zq (ch - 3)) ]) ;;;
        (* ---- Alarm threshold ---- *)
        (if Number_le thresh yMax then
           let ay := y_of_value ph yMax thresh in
           draw [ SetStrokeStyle "rgba(220,50,50,0.7)"; SetLineWidth 1;
                  SetLineDash [4; 3]%Q;
                  BeginPath; MoveTo (zq px) ay; LineTo (zq (px + pw)) ay; Stroke;
                  SetLineDash [];
                  SetFillStyle "#dc3232";
                  FillText "ALM" (zq (px + pw - 22)) (Number_sub ay 3) ]
         else ret tt) ;;;
        (* ---- Future dimmed zone ---- *)
        let nowX := x_of_minute pw curMin in
        (if (nowX <? px + pw)%Z then
           draw [ SetFillStyle "rgba(255,255,255,0.04)";
                  FillRect (zq (nowX + 1)) (zq py) (zq (px + pw - nowX - 1)) (zq ph) ]
         else ret tt) ;;;
        (* ---- NOW line ---- *)
        let nowLbl := "NOW" in
        let nowTw := measureText_width nowLbl in
        let nowLx := if Number_lt (Number_add (Number_add (zq nowX) nowTw) 6) (zq (px + pw))
                     then Number_add (zq nowX) 3
                     else Number_sub (Number_sub (zq nowX) nowTw) 3 in
        draw [ SetStrokeStyle "#ffdc3c"; SetLineWidth 1;
               BeginPath; MoveTo (zq nowX) (zq py); LineTo (zq nowX) (zq (py + ph)); Stroke;
               SetFillStyle "#ffdc3c";
               FillText nowLbl nowLx (zq (py + 10)) ] ;;;
        (* ---- Data points ---- *)
        if (length hist <? 2)%nat then ret tt
        else
          let points := map (point_of pw ph yMax) hist in
          (* Filled area *)
          draw [ BeginPath; MoveTo (zq px) (zq (py + ph)) ] ;;;
          forEach points (fun '(x, y) _ => draw [ LineTo (zq x) y ]) ;;;
          lastp <- last_entry "points[points.length - 1][0]" points ;;
          draw [ LineTo (zq (fst lastp)) (zq (py + ph)); ClosePath;
                 SetFillStyle "rgba(0,72,130,0.55)"; Fill ] ;;;
          (* Line *)
          draw [ BeginPath ] ;;;
          forEach points (fun '(x, y) i =>
            if (i =? 0)%nat then draw [ MoveTo (zq x) y ]
            else draw [ LineTo (zq x) y ]) ;;;
          draw [ SetStrokeStyle "#00b4ff"; SetLineWidth 2; Stroke ] ;;;
          (* Current value dot *)
          lastp <- last_entry "[lx, ly] = points[points.length - 1]" points ;;
          let lx := fst lastp in
          let ly := snd lastp in
          draw [ BeginPath; ArcFull (zq lx) ly 5; SetFillStyle "#12161c"; Fill;
                 BeginPath; ArcFull (zq lx) ly 4; SetStrokeStyle "#00b4ff";
                 SetLineWidth 2; Stroke;
                 BeginPath; ArcFull (zq lx) ly 2; SetFillStyle "#fff"; Fill ] ;;;
          (* Current value label *)
          lasth <- last_entry "history[history.length - 1][1]" hist ;;
          let curRms := snd lasth in
          let lbl := toFixed curRms 3 +:+ "g" in
          let lblW := measureText_width lbl in
          let lblX := if Number_lt (Number_add (Number_add (zq lx) lblW) 8) (zq (px + pw))
                      then Number_add (zq lx) 6
                      else Number_sub (Number_sub (zq lx) lblW) 4 in
          draw [ SetFillStyle "#dce1e6"; FillText lbl lblX (Number_sub ly 5) ]
  | _, _, _ => ret tt
  end.

(** The listener registered with [App.on('sensor_update', ...)]. *)
Definition on_sensor_update (msg : Msg) : M unit :=
  modify (set_sensorData (msg_data msg)) ;;;
  match msg_data msg with
  | Some d => updateTiles d ;;; renderChart d
  | None => throw (TypeError "d.vib_rms")
  end.

End WithHost.

End Dashboard.

(** ** setup.js *)

Module Setup.

(** The double-quote character. *)
Definition dquote : ascii := "034"%char.
Definition dq : string := String dquote EmptyString.

Definition escHtml (s : string) : string :=
  replace_all dquote "&quot;"
    (replace_all ">" "&gt;"
      (replace_all "<" "&lt;"
        (replace_all "&" "&amp;" s))).

(** Keyboard layouts. *)
Definition LAYOUTS (m : KbdMode) : list (list string) :=
  match m with
  | KbdLower =>
      [ ["q";"w";"e";"r";"t";"y";"u";"i";"o";"p"];
        ["a";"s";"d";"f";"g";"h";"j";"k";"l"];
        ["SHF";"z";"x";"c";"v";"b";"n";"m";"DEL"];
        ["123";"@";".";"SPACE";"OK"] ]
  | KbdUpper =>
      [ ["Q";"W";"E";"R";"T";"Y";"U";"I";"O";"P"];
        ["A";"S";"D";"F";"G";"H";"J";"K";"L"];
        ["shf";"Z";"X";"C";"V";"B";"N";"M";"DEL"];
        ["123";"@";".";"SPACE";"OK"] ]
  | KbdNum =>
      [ ["1";"2";"3";"4";"5";"6";"7";"8";"9";"0"];
        ["-";"_";"!";"@";"#";"$";"%";"&";"*";"DEL"];
        ["."; ","; "="; "+"; "["; "]"; "("; ")"; ";"; ":"];
        ["ABC";"SPACE";"OK"] ]
  end.

(** [disp[k]] of [buildKeyboard]. *)
Definition disp (k : string) : option string :=
  if String.eqb k "SHF" then Some "⇧"
  else if String.eqb k "shf" then Some "⇧"
  else if String.eqb k "DEL" then Some "⌫"
  else if String.eqb k "SPACE" then Some EmptyString
  else if String.eqb k "123" then Some "123"
  else if String.eqb k "ABC" then Some "ABC"
  else None.

Definition key_html (k : string) : string :=
  let cls := "kbd-key" in
  let cls := if String.eqb k "SPACE" then cls +:+ " key-space" else cls in
  let cls := if String.eqb k "OK" then cls +:+ " key-ok" else cls in
  let cls := if bool_decide (k ∈ ["SHF"; "shf"; "DEL"; "123"; "ABC"])
             then cls +:+ " special" else cls in
  let lbl := match disp k with Some l => l | None => k end in
  "<button class=" +:+ dq +:+ cls +:+ dq
    +:+ " ontouchstart=" +:+ dq +:+ "Setup.kbdPress('" +:+ k +:+ "')" +:+ dq
    +:+ " onclick=" +:+ dq +:+ "Setup.kbdPress('" +:+ k +:+ "')" +:+ dq
    +:+ ">" +:+ lbl +:+ "</button>".

Definition join (l : list string) : string :=
  fold_right String.append EmptyString l.

Definition row_html (row : list string) : string :=
  "<div class=" +:+ dq +:+ "kbd-row" +:+ dq +:+ ">"
    +:+ join (map key_html row) +:+ "</div>".

Definition buildKeyboard : M unit :=
  kbd <- getEl "keyboard" ;;
  mode <- gets kbdMode ;;
  let rows := LAYOUTS mode in
  kbd <- deref "keyboard" kbd ;;
  write kbd (set_innerHTML (join (map row_html rows))).

Definition updateKbdDisplay : M unit :=
  el <- getEl "kbd-input-display" ;;
  txt <- gets kbdText ;;
  when_present el (set_textContent (repeat_char "*" (String.length txt))).

Definition setWifiStatus (msg cls : string) : M unit :=
  el <- getEl "wifi-status" ;;
  match el with
  | None => ret tt
  | Some el =>
      write el (set_textContent msg) ;;;
      write el (set_className ("status-msg " +:+ cls))
  end.

(** [`${selectedSSID}`] *)
Definition ssid_text (s : option string) : string :=
  match s with
  | Some x => x
  | None => "null"
  end.

Definition kbdPress (key : string) : M unit :=
  if String.eqb key "DEL" then
    txt <- gets kbdText ;;
    modify (set_kbdText (slice_drop_last txt)) ;;;
    updateKbdDisplay
  else if String.eqb key "SPACE" then
    txt <- gets kbdText ;;
    modify (set_kbdText (txt +:+ " ")) ;;;
    updateKbdDisplay
  else if String.eqb key "SHF" then modify (set_kbdMode KbdUpper) ;;; buildKeyboard
  else if String.eqb key "shf" then modify (set_kbdMode KbdLower) ;;; buildKeyboard
  else if String.eqb key "123" then modify (set_kbdMode KbdNum) ;;; buildKeyboard
  else if String.eqb key "ABC" then modify (set_kbdMode KbdLower) ;;; buildKeyboard
  else if String.eqb key "OK" then
    ov <- getEl "keyboard-overlay" ;;
    ov <- deref "keyboard-overlay" ov ;;
    write ov (classList_add "hidden") ;;;
    ssid <- gets selectedSSID ;;
    txt <- gets kbdText ;;
    App.send (CmdWifiConnect ssid txt) ;;;
    setWifiStatus ("Connecting to " +:+ ssid_text ssid +:+ "...") "warn"
  else
    txt <- gets kbdText ;;
    modify (set_kbdText (txt +:+ key)) ;;;
    mode <- gets kbdMode ;;
    (match mode with
     | KbdUpper => modify (set_kbdMode KbdLower) ;;; buildKeyboard
     | _ => ret tt
     end) ;;;
    updateKbdDisplay.

Definition setBleStatus (msg cls : string) : M unit :=
  el <- getEl "ble-status" ;;
  match el with
  | None => ret tt
  | Some el =>
      write el (set_textContent msg) ;;;
      write el (set_className ("status-msg " +:+ cls))
  end.

Definition wifiScan : M unit :=
  setWifiStatus "Scanning..." "warn" ;;;
  l <- getEl "wifi-list" ;;
  l <- deref "wifi-list" l ;;
  write l (set_innerHTML
             ("<div class=" +:+ dq +:+ "list-empty" +:+ dq +:+ ">Scanning...</div>")) ;;;
  App.send CmdWifiScan.

Definition bleScan : M unit :=
  setBleStatus "Scanning for HVACVIBE-* ..." "warn" ;;;
  l <- getEl "ble-list" ;;
  l <- deref "ble-list" l ;;
  write l (set_innerHTML
             ("<div class=" +:+ dq +:+ "list-empty" +:+ dq +:+ ">Scanning... (5s)</div>")) ;;;
  App.send CmdBleScan.

(** An entry of [wifiNetworks], as far as [wifiSelect] reads it: the
    [ssid] and the truth value of [secured]. *)
Record Network := mkNetwork {
  net_ssid : string;
  net_secured : bool
}.

(** [wifiSelect(idx)], for the list [wifiNetworks] of the last scan result;
    [wifiNetworks[idx].ssid] raises when there is no such entry. *)
Definition wifiSelect (wifiNetworks : list Network) (idx : nat) : M unit :=
  match wifiNetworks !! idx with
  | None => throw (TypeError "wifiNetworks[idx].ssid")
  | Some n =>
      modify (set_selectedSSID (Some (net_ssid n))) ;;;
      let secured := net_secured n in
      if negb secured then
        (* open network: connect directly *)
        ssid <- gets selectedSSID ;;
        App.send (CmdWifiConnect ssid EmptyString) ;;;
        setWifiStatus ("Connecting to " +:+ ssid_text ssid +:+ "...") "warn"
      else
        (* show keyboard *)
        modify (set_kbdText EmptyString) ;;;
        modify (set_kbdMode KbdLower) ;;;
        lbl <- getEl "kbd-ssid-label" ;;
        lbl <- deref "kbd-ssid-label" lbl ;;
        ssid <- gets selectedSSID ;;
        write lbl (set_textContent (ssid_text ssid)) ;;;
        updateKbdDisplay ;;;
        buildKeyboard ;;;
        ov <- getEl "keyboard-overlay" ;;
        ov <- deref "keyboard-overlay" ov ;;
        write ov (classList_remove "hidden")
  end.

(** The listener registered with [App.on('cmd_ack', ...)]. *)
Definition on_cmd_ack (msg : Msg) : M unit :=
  (if bool_decide (msg_cmd msg = Some "wifi_scan")
   then setWifiStatus "Scanning..." "warn" else ret tt) ;;;
  (if bool_decide (msg_cmd msg = Some "ble_scan")
   then setBleStatus "Scanning... (5s)" "warn" else ret tt) ;;;
  (if bool_decide (msg_cmd msg = Some "wifi_connect")
   then setWifiStatus "Connecting..." "warn" else ret tt).

End Setup.

(* ===================================================================== *)
(** * Part II.  The vocabulary of the properties                          *)
(* ===================================================================== *)

(** ** A program logic for script functions

    [hoare P m Q E]: started in a world satisfying [P], the call [m] either
    returns [a] in a world satisfying [Q a], or throws in a world
    satisfying [E]. *)

Definition hoare {A} (P : World -> Prop) (m : M A)
           (Q : A -> World -> Prop) (E : World -> Prop) : Prop :=
  forall w, P w ->
    match m w with
    | (w', Normal a) => Q a w'
    | (w', Throw _) => E w'
    end.

(** The exceptional postcondition of a call that must return. *)
Definition nothing_thrown : World -> Prop := fun _ => False.

(** [getElementById id] yields [null] or the element with that id. *)
Definition from_id (id : string) (r : option NodeRef) : Prop :=
  r = None \/ r = Some (by_id id).

(** A predicate on worlds that only looks at the page checks a write to
    an element as follows. *)
Definition stable_under_write (I : World -> Prop) (r : NodeRef)
           (f : Element -> Element) : Prop :=
  forall w, I w -> I (set_page (update_node r f (page w)) w).

(** ** Facts about the page *)

(** The element [r] is on the page. *)
Definition present (r : NodeRef) (w : World) : Prop :=
  is_Some (lookup_node r (page w)).

(** The element [r] is on the page and carries the class [hidden] exactly
    when [b] is true. *)
Definition hidden_is (r : NodeRef) (b : bool) (w : World) : Prop :=
  exists e, lookup_node r (page w) = Some e /\ ("hidden" ∈ classes e <-> b = true).

(** The element [r] is on the page and its content is [cs]. *)
Definition children_are (r : NodeRef) (cs : list Child) (w : World) : Prop :=
  exists e, lookup_node r (page w) = Some e /\ children e = cs.

(** The page holds the rms tile and its value: the one element that
    [updateTiles] dereferences without a null check. *)
Definition page_ready (w : World) : Prop :=
  is_Some (lookup_node (by_id "tile-rms") (page w))
  /\ is_Some (sel_tile_value (page w)).

(** Element updates that leave the class [hidden], or the children, alone. *)
Definition keeps_hidden (f : Element -> Element) : Prop :=
  forall e, "hidden" ∈ classes (f e) <-> "hidden" ∈ classes e.

Definition keeps_children (f : Element -> Element) : Prop :=
  forall e, children (f e) = children e.

(** ** The socket *)

(** The frames written to the current socket. *)
Definition frames_sent (w : World) : list Command :=
  match ws w with
  | Some sock => sent sock
  | None => []
  end.

(** The socket after [send]: untouched, or one frame longer. *)
Definition sent_at_most (obj : Command) (before after : option WebSocket) : Prop :=
  after = before
  \/ exists sock, before = Some sock /\ readyState sock = OPEN
                  /\ after = Some (mkWebSocket OPEN (sent sock ++ [obj])).

(** ** The frame of a view switch *)

(** [e'] is [e] up to the class [active]. *)
Definition same_but_active (e e' : Element) : Prop :=
  children e' = children e /\ style e' = style e
  /\ forall tok, tok <> "active" -> (tok ∈ classes e' <-> tok ∈ classes e).

(** The two elements that [showMain] and [showSetup] write to. *)
Definition is_view (r : NodeRef) : Prop :=
  r = by_id "view-main" \/ r = by_id "view-setup".

(** From [w] to [w'] nothing has changed but, possibly, [currentView], the
    socket, and the class [active] of the two views: the clock, the
    listeners, the canvas, the sensor data and the state of the keyboard
    are the same, the page holds the same elements, every element other
    than the two views is as it was, and a view has kept its children, its
    style and its classes other than [active]. *)
Definition only_views_switched (w w' : World) : Prop :=
  clock w' = clock w /\ listeners w' = listeners w
  /\ ctx w' = ctx w /\ chartW w' = chartW w /\ chartH w' = chartH w
  /\ sensorData w' = sensorData w
  /\ selectedSSID w' = selectedSSID w /\ kbdText w' = kbdText w
  /\ kbdMode w' = kbdMode w
  /\ sel_tile_value (page w') = sel_tile_value (page w)
  /\ sel_signal_bars (page w') = sel_signal_bars (page w)
  /\ (forall r, ~ is_view r -> lookup_node r (page w') = lookup_node r (page w))
  /\ (forall r, is_view r ->
        match lookup_node r (page w), lookup_node r (page w') with
        | Some e, Some e' => same_but_active e e'
        | None, None => True
        | _, _ => False
        end).

(** ** Escaped text *)

(** What [escHtml] writes for one character. *)
Definition esc_char (c : ascii) : string :=
  if Ascii.eqb c "&" then "&amp;"
  else if Ascii.eqb c "<" then "&lt;"
  else if Ascii.eqb c ">" then "&gt;"
  else if Ascii.eqb c Setup.dquote then "&quot;"
  else String c EmptyString.

(** The four entities that [escHtml] writes. *)
Definition entities : list string := [ "&amp;"; "&lt;"; "&gt;"; "&quot;" ].

(** The characters that [escHtml] removes. *)
Definition markup_char (c : ascii) : Prop :=
  c = "<"%char \/ c = ">"%char \/ c = Setup.dquote.

(** An entity starts at position [i] of [s]. *)
Definition entity_at (i : nat) (s : string) : Prop :=
  exists ent, In ent entities /\ String.prefix ent (drop_str i s) = true.

(** ** The keyboard *)

(** What a run of the keyboard can show or branch on: the page, the layout,
    the selected network, whether the socket is open, and the length of the
    typed text. *)
Definition screen_view (w : World)
  : Page * KbdMode * option string * bool * nat :=
  (page w, kbdMode w, selectedSSID w, App.is_open (ws w), String.length (kbdText w)).

(** The world after a sequence of key presses, one event each. *)
Definition after_keys (keys : list string) (w : World) : World :=
  fold_left (fun w key => world_after (Setup.kbdPress key) w) keys w.

(** The keys [kbdPress] compares its argument with; any other key is typed
    into the text. *)
Definition named_keys : list string :=
  ["DEL"; "SPACE"; "SHF"; "shf"; "123"; "ABC"; "OK"].

Definition is_named (key : string) : bool := existsb (String.eqb key) named_keys.

(** Two key presses that differ at most in the characters typed: the same
    named key, or two typed keys of the same length. *)
Definition same_press (k1 k2 : string) : Prop :=
  if is_named k1 then k1 = k2
  else is_named k2 = false /\ String.length k1 = String.length k2.

(** ['*'.repeat(n)] *)
Definition stars (n : nat) : string := repeat_char "*" n.

(** ** The blocks of [updateTiles] *)

Section TileBlocks.

Context `{host : Host}.

(** The part of [updateTiles] after the alarm block. *)
Definition tiles_after_alarm (d : SensorData) : M unit :=
  dot <- getEl "conn-dot" ;;
  label <- getEl "conn-label" ;;
  (if connected d then
     when_present dot (set_className "conn-dot connected") ;;;
     when_present label (set_textContent "Connected") ;;;
     when_present label (set_style "color" "var(--green)")
   else
     when_present dot (set_className "conn-dot disconnected") ;;;
     when_present label (set_textContent "No Signal") ;;;
     when_present label (set_style "color" "var(--red)")) ;;;
  let bars := Dashboard.rssiToBars (rssi d) in
  els <- gets (fun w => sel_signal_bars (page w)) ;;
  forEach els (fun el i => write el (classList_toggle "on" (i <? bars)%nat)) ;;;
  Dashboard.setText "rssi-val" (Number_toString (rssi d) +:+ "dBm") ;;;
  let pct := battery d in
  fill <- getEl "bat-fill" ;;
  batPct <- getEl "bat-pct" ;;
  when_present fill (set_style "width" (Number_toString pct +:+ "%")) ;;;
  when_present fill (set_style "background" (Dashboard.battery_colour pct)) ;;;
  when_present batPct (set_textContent (Number_toString pct +:+ "%")) ;;;
  when_present batPct (set_style "color" (Dashboard.battery_colour pct)) ;;;
  Dashboard.updateYAxis (history d).

(** The alarm block of [updateTiles], given the two elements it looked up. *)
Definition tiles_alarm_block (d : SensorData) (badge clk : option NodeRef) : M unit :=
  if alarm d then
    when_present badge (classList_remove "hidden") ;;;
    when_present clk (classList_add "hidden") ;;;
    tile <- getEl "tile-rms" ;;
    _ <- deref "tile-rms" tile ;;
    v <- gets (fun w => sel_tile_value (page w)) ;;
    v <- deref ".tile-value" v ;;
    write v (set_style "color" "var(--red)")
  else
    when_present badge (classList_add "hidden") ;;;
    when_present clk (classList_remove "hidden") ;;;
    tile <- getEl "tile-rms" ;;
    _ <- deref "tile-rms" tile ;;
    v <- gets (fun w => sel_tile_value (page w)) ;;
    v <- deref ".tile-value" v ;;
    write v (set_style "color" "var(--accent)").

End TileBlocks.

(** ** Numbers *)

(** The doubles: [m * 2^e] with [|m| < 2^53] and [-1074 <= e], below
    [2^1024]. *)
Definition is_double (x : Q) : Prop :=
  exists m e : Z,
    (x == inject_Z m * pow2 e)%Q /\ (Z.abs m < 2 ^ 53)%Z /\ (-1074 <= e)%Z
    /\ (Qabs x < pow2 1024)%Q.

(** The rounded value before the range check of [round_double]. *)
Definition rounded (x : Q) : Q :=
  (inject_Z (round_half_even (x / pow2 (quantum x))) * pow2 (quantum x))%Q.

(** The finite double written with the decimal digits of [q]. *)
Definition double_of (q : Q) : Q :=
  match literal q with
  | Finite r => r
  | _ => 0%Q
  end.

(** The double written [1.15]. *)
Definition c115 : Q := 2589569785738035 # 2251799813685248.

(** The double written [0.6]. *)
Definition c06 : Q := 5404319552844595 # 9007199254740992.

(** The largest value of a list, [0] for the empty list. *)
Definition largest (values : list Q) : Q :=
  match values with
  | [] => 0%Q
  | x :: xs => Math_max_spread x xs
  end.

(** [Math.max(1.0, mx * 1.15)] *)
Definition raw_scale (mx : Q) : Number :=
  Number_max 1 (Number_mul mx (literal (115 # 100))).

(** [Math.ceil(raw * 4) / 4] *)
Definition quarter_up (raw : Number) : Number :=
  Number_div (Number_ceil (Number_mul raw 4)) 4.

(** ** The canvas *)

(** The dashed stroke of the alarm threshold. *)
Definition dash : DrawCmd := SetLineDash [4; 3]%Q.

(** No dashed stroke among [cmds]. *)
Definition dash_free (cmds : list DrawCmd) : Prop := ~ In dash cmds.

(** The calls that draw the alarm threshold at height [ay]. *)
Definition alarm_line (pw : Z) (ay : Number) : list DrawCmd :=
  [ SetStrokeStyle "rgba(220,50,50,0.7)"; SetLineWidth 1;
    SetLineDash [4; 3]%Q;
    BeginPath; MoveTo (Dashboard.zq Dashboard.plot_x) ay;
    LineTo (Dashboard.zq (Dashboard.plot_x + pw)) ay; Stroke;
    SetLineDash [];
    SetFillStyle "#dc3232";
    FillText "ALM" (Dashboard.zq (Dashboard.plot_x + pw - 22)) (Number_sub ay 3) ].

(** [py + ph - Math.round(ph * 0.6 / yMax)], operation by operation. *)
Definition threshold_height (ph : Z) (yMax : Number) : Number :=
  Number_sub (inject_Z (20 + ph))
             (Number_round (Number_div (Number_mul (inject_Z ph) (literal (6 # 10))) yMax)).

(** The canvas has received [ops] after [log0], and [P ops] holds. *)
Definition chart_log (log0 : list DrawCmd) (P : list DrawCmd -> Prop) (w : World) : Prop :=
  exists ops, ctx w = Some (log0 ++ ops)%list /\ P ops.

(** [P] survives further drawing that has no dashed stroke in it. *)
Definition keeps_under_append (P : list DrawCmd -> Prop) : Prop :=
  forall ops cmds, dash_free cmds -> P ops -> P (ops ++ cmds)%list.

(** The canvas can be drawn on. *)
Definition canvas_ready (log : list DrawCmd) (cw ch : Z) (w : World) : Prop :=
  ctx w = Some log /\ chartW w = Some cw /\ chartH w = Some ch.

(** What has been drawn once the threshold block is passed: the dashed
    stroke if and only if [b], and then the whole line. *)
Definition threshold_drawn (b : Prop) (seg ops : list DrawCmd) : Prop :=
  (In dash ops <-> b)
  /\ (b -> exists pre post, ops = (pre ++ seg ++ post)%list).

(** ** A sample page and sample worlds

    The dashboard page as the scripts expect it: one element per id that
    they look up, the value of the rms tile, and four signal bars. *)

Definition plain (cls : list string) : Element := mkElement cls [] ∅.

Definition sample_page : Page :=
  mkPage
    (list_to_map
       [ (by_id "view-main", plain ["view"; "active"]);
         (by_id "view-setup", plain ["view"]);
         (by_id "val-rms", plain []); (by_id "val-peak", plain []);
         (by_id "val-temp", plain []); (by_id "val-hum", plain []);
         (by_id "alarm-badge", plain ["badge"; "hidden"]);
         (by_id "clock", plain []);
         (by_id "tile-rms", plain ["tile"]);
         (by_id "conn-dot", plain ["conn-dot"]);
         (by_id "conn-label", plain []);
         (by_id "rssi-val", plain []);
         (by_id "bat-fill", plain []); (by_id "bat-pct", plain []);
         (by_id "chart-yaxis", plain []);
         (by_id "kbd-input-display", plain []);
         (by_id "keyboard", plain []);
         (by_id "keyboard-overlay", plain ["overlay"]);
         (by_id "wifi-status", plain ["status-msg"]);
         (inr 0%nat, plain ["tile-value"]);
         (inr 1%nat, plain ["bar"]); (inr 2%nat, plain ["bar"]);
         (inr 3%nat, plain ["bar"]); (inr 4%nat, plain ["bar"]) ])
    (Some (inr 0%nat))
    [ inr 1%nat; inr 2%nat; inr 3%nat; inr 4%nat ].

(** The same page without the rms tile. *)
Definition page_without_tile : Page :=
  mkPage (delete (by_id "tile-rms") (nodes sample_page)) None
         (sel_signal_bars sample_page).

Definition sample_date : Date := mkDate 10 30 "11/2/2026" "10:30:00 GMT+0000".

Definition sample_host : Host :=
  {| Number_toString := fun q => pretty (Qfloor q);
     measureText_width := fun s => inject_Z (6 * Z.of_nat (String.length s)) |}.

(** A viewer on the main view with an open socket and a sized canvas. *)
Definition sample_world : World :=
  mkWorld sample_page sample_date
          (Some (mkWebSocket OPEN [])) ViewMain ∅
          (Some []) (Some 480%Z) (Some 320%Z) None
          (Some "Home") EmptyString KbdLower.

(** The same viewer while the socket is closed. *)
Definition offline_world : World := set_ws (Some (mkWebSocket CLOSED [])) sample_world.

Definition toggle_view_msg : Msg := mkMsg (Some "toggle_view") None None.

Definition sample_data : SensorData :=
  mkSensorData (82 # 100) (131 # 100) (215 # 10) (40 # 1) true false (87 # 1) (-(72 # 1))
               [ (600%Z, (41 # 100)%Q); (601%Z, (82 # 100)%Q) ].

(** A reading of 1.0869565217391306 g, and an update that ends in it. *)
Definition strong_reading : Q := double_of (10869565217391306 # 10000000000000000).

Definition strong_data : SensorData :=
  mkSensorData strong_reading (131 # 100) (215 # 10) (40 # 1) true true (87 # 1) (-(72 # 1))
               [ (600%Z, double_of (41 # 100)); (602%Z, strong_reading) ].

Definition sensor_update_msg : Msg := mkMsg (Some "sensor_update") None (Some sample_data).

(** No closure is registered in the sample worlds. *)
Definition no_listeners : Listener -> Msg -> M unit := fun _ _ => ret tt.

(** ** Classes of an element *)

(** The element [r] is on the page and carries the class [tok] exactly
    when [b] is true. *)
Definition class_is (r : NodeRef) (tok : string) (b : bool) (w : World) : Prop :=
  exists e, lookup_node r (page w) = Some e /\ (tok ∈ classes e <-> b = true).

(** [cmds.forEach(c => App.send(c))] *)
Definition send_each (cmds : list Command) : M unit :=
  forEach cmds (fun c _ => App.send c).

(** ** What a render draws *)

(** A call that wipes the canvas. *)
Definition is_clear (c : DrawCmd) : bool :=
  match c with
  | ClearRect _ _ _ _ => true
  | _ => false
  end.

(** The calls that only the data part of [renderChart] makes: the filled
    area under the curve and the dot at the current value. *)
Definition data_mark (c : DrawCmd) : bool :=
  match c with
  | Fill | ClosePath | ArcFull _ _ _ => true
  | _ => false
  end.

(** A render that wiped the whole canvas first, and nothing after that. *)
Definition cleared_once (cw ch : Z) (ops : list DrawCmd) : Prop :=
  exists rest,
    ops = ClearRect 0 0 (Dashboard.zq cw) (Dashboard.zq ch) :: rest
    /\ Forall (fun c => is_clear c = false) rest.

Definition no_data_drawn (ops : list DrawCmd) : Prop :=
  Forall (fun c => data_mark c = false) ops.

(** The dot at the current value, [(lx, ly)]. *)
Definition value_dot (lx : Z) (ly : Number) : list DrawCmd :=
  [ BeginPath; ArcFull (Dashboard.zq lx) ly 5; SetFillStyle "#12161c"; Fill;
    BeginPath; ArcFull (Dashboard.zq lx) ly 4; SetStrokeStyle "#00b4ff";
    SetLineWidth 2; Stroke;
    BeginPath; ArcFull (Dashboard.zq lx) ly 2; SetFillStyle "#fff"; Fill ].

(** A render that ended with the dot at [(lx, ly)] and the label [lbl]
    five pixels above it. *)
Definition ends_with_value (lx : Z) (ly : Number) (lbl : string)
           (ops : list DrawCmd) : Prop :=
  exists pre lblX,
    ops = (pre ++ value_dot lx ly
               ++ [ SetFillStyle "#dce1e6";
                    FillText lbl lblX (Number_sub ly 5) ])%list.

(** The first reading of a day: one point of history. *)
Definition first_reading : SensorData :=
  mkSensorData (41 # 100) (60 # 100) (215 # 10) (40 # 1) false true (87 # 1) (-(72 # 1))
               [ (0%Z, (41 # 100)%Q) ].

(** A viewer whose canvas has no context yet. *)
Definition unsized_world : World := set_ctx None sample_world.

(** ** The y axis and the signal bars *)

(** Element updates that leave the class attribute alone. *)
Definition keeps_classes (f : Element -> Element) : Prop :=
  forall e, classes (f e) = classes e.

(** The signal bars are elements of the page, each listed once. *)
Definition bars_on_page (w : World) : Prop :=
  NoDup (sel_signal_bars (page w))
  /\ forall r, r ∈ sel_signal_bars (page w) -> present r w.

(** The page shows [n] signal bars: the bar at position [i] carries the
    class [on] exactly when [i < n]. *)
Definition bars_show (n : nat) (w : World) : Prop :=
  forall i r, sel_signal_bars (page w) !! i = Some r ->
              class_is r "on" (i <? n)%nat w.

Section AxisLabels.

Context `{host : Host}.

(** The five labels of the y axis for the scale [yMax], top first. *)
Definition yaxis_labels (yMax : Number) : list Child :=
  map (fun i => SpanEl (Number_toFixed (Number_div (Number_mul yMax (inject_Z i)) 4) 2))
      [4; 3; 2; 1; 0]%Z.

End AxisLabels.

(** The characters that [escHtml] rewrites. *)
Definition special_char (c : ascii) : Prop :=
  c = "&"%char \/ markup_char c.

(** ** The setup screen *)

(** The page of [w] is [p0] except, possibly, at the elements [keep]. *)
Definition page_same_except (keep : list NodeRef) (p0 : Page) (w : World) : Prop :=
  forall r, r ∉ keep -> lookup_node r (page w) = lookup_node r p0.

(** The frames that a call of [App.send] with [obj] adds, by whether the
    socket is open. *)
Definition frames_added (open : bool) (obj : Command) : list Command :=
  if open then [obj] else [].

(** The sample page with the elements of the setup view. *)
Definition setup_page : Page :=
  mkPage (<[by_id "kbd-ssid-label" := plain []]>
            (<[by_id "wifi-list" := plain []]>
               (<[by_id "ble-list" := plain []]>
                  (<[by_id "ble-status" := plain ["status-msg"]]>
                     (nodes sample_page)))))
         (sel_tile_value sample_page) (sel_signal_bars sample_page).

Definition setup_world : World := set_page setup_page sample_world.

(** The networks of a scan: an open one and a secured one. *)
Definition sample_networks : list Setup.Network :=
  [ Setup.mkNetwork "Cafe" false; Setup.mkNetwork "Home" true ].

(** ** Connecting *)

(** A (re)connection during which the scripts hand [cmds] to [App.send],
    up to the moment the socket opens. *)
Definition connect_then_open (cmds : list Command) : M unit :=
  App.connect ;;; send_each cmds ;;; App.ws_onopen.

(** A listener that raises, whatever the message. *)
Definition faulty_listener : Listener -> Msg -> M unit :=
  fun fn _ => if Nat.eqb fn 1 then throw (TypeError "listener") else ret tt.

(* ===================================================================== *)
(** * Part III.  Properties                                               *)
(* ===================================================================== *)

(** ** Rounding *)

Section Rounding.

Local Open Scope Q_scope.

Lemma Math_round_integer (z : Z) : Math_round (inject_Z z) = z.
Proof.
  unfold Math_round.
  pose proof (Qfloor_le (inject_Z z + (1 # 2))) as Hle.
  pose proof (Qlt_floor (inject_Z z + (1 # 2))) as Hlt.
  generalize dependent (Qfloor (inject_Z z + (1 # 2))). intros k Hle Hlt.
  assert (inject_Z k < inject_Z (z + 1)) as H1.
  { rewrite inject_Z_plus. change (inject_Z 1) with 1. lra. }
  assert (inject_Z z < inject_Z (k + 1)) as H2 by lra.
  rewrite <- Zlt_Qlt in H1, H2. lia.
Qed.

Lemma Math_round_mono (x y : Q) : x <= y -> (Math_round x <= Math_round y)%Z.
Proof. intros H. unfold Math_round. apply Qfloor_resp_le. lra. Qed.

Lemma Math_round_between (x : Q) (lo hi : Z) :
  inject_Z lo <= x -> x <= inject_Z hi -> (lo <= Math_round x <= hi)%Z.
Proof.
  intros Hlo Hhi.
  pose proof (Math_round_mono _ _ Hlo) as H1.
  pose proof (Math_round_mono _ _ Hhi) as H2.
  rewrite Math_round_integer in H1, H2. lia.
Qed.

Lemma Math_round_proper (x y : Q) : x == y -> Math_round x = Math_round y.
Proof. intros H. unfold Math_round. apply Qfloor_comp. rewrite H. reflexivity. Qed.

(** [0 <= a <= b] and [0 <= s] give [0 <= s * a / b <= s] for [0 < b]. *)
Lemma scaled_fraction_bounds (s a b : Q) :
  0 <= s -> 0 <= a -> a <= b -> 0 < b -> 0 <= s * a / b /\ s * a / b <= s.
Proof.
  intros Hs Ha Hab Hb.
  assert (0 < / b) as Hinv by (apply Qinv_lt_0_compat; assumption).
  assert (0 <= a / b) as Hq0.
  { unfold Qdiv. apply Qmult_le_0_compat; lra. }
  assert (a / b <= 1) as Hq1.
  { apply Qle_shift_div_r; lra. }
  assert (s * a / b == s * (a / b)) as E by (unfold Qdiv; ring).
  rewrite E. split.
  - apply Qmult_le_0_compat; assumption.
  - assert (a / b * s <= 1 * s) as H by (apply Qmult_le_compat_r; assumption).
    lra.
Qed.

End Rounding.

(** ** Doubles *)

Section Doubles.

Local Open Scope Q_scope.

(** *** Powers of two *)

Lemma two_neq_0 : ~ 2 == 0.
Proof. discriminate. Qed.

Lemma pow2_pos (e : Z) : 0 < pow2 e.
Proof. apply Qpower_0_lt. reflexivity. Qed.

Lemma pow2_add (a b : Z) : pow2 (a + b) == pow2 a * pow2 b.
Proof. apply Qpower_plus, two_neq_0. Qed.

Lemma pow2_sub (a b : Z) : pow2 (a - b) == pow2 a / pow2 b.
Proof. apply Qpower_minus, two_neq_0. Qed.

Lemma pow2_le (a b : Z) : (a <= b)%Z -> pow2 a <= pow2 b.
Proof. intros H. apply Qpower_le_compat_l; [exact H | discriminate]. Qed.

Lemma pow2_lt (a b : Z) : (a < b)%Z -> pow2 a < pow2 b.
Proof. intros H. apply Qpower_lt_compat_l; [exact H | reflexivity]. Qed.

Lemma pow2_le_inv (a b : Z) : pow2 a <= pow2 b -> (a <= b)%Z.
Proof. intros H. apply (Qpower_le_compat_l_inv 2); [exact H | reflexivity]. Qed.

Lemma pow2_lt_inv (a b : Z) : pow2 a < pow2 b -> (a < b)%Z.
Proof. intros H. apply (Qpower_lt_compat_l_inv 2); [exact H | reflexivity]. Qed.

Lemma pow2_Z (n : Z) : (0 <= n)%Z -> pow2 n == inject_Z (2 ^ n).
Proof. intros H. symmetry. apply (Zpower_Qpower 2 n H). Qed.

Lemma pow2_succ (e : Z) : pow2 (e + 1) == 2 * pow2 e.
Proof. rewrite pow2_add. change (pow2 1) with 2. ring. Qed.

Lemma pow2_pred (e : Z) : pow2 (e - 1) == pow2 e / 2.
Proof. rewrite pow2_sub. reflexivity. Qed.

Lemma pow2_0 : pow2 0 == 1.
Proof. reflexivity. Qed.

(** *** The binary exponent *)

Lemma ilog2_spec (x : Q) :
  0 < x -> pow2 (ilog2 x) <= x /\ x < pow2 (ilog2 x + 1).
Proof.
  intros Hx. unfold ilog2. destruct x as [a b]. cbn [Qnum Qden].
  assert (0 < a)%Z as Ha by (unfold Qlt in Hx; simpl in Hx; lia).
  destruct (Z.log2_spec a Ha) as [Ha1 Ha2].
  destruct (Z.log2_spec (Zpos b) eq_refl) as [Hb1 Hb2].
  pose proof (Z.log2_nonneg a) as Hla. pose proof (Z.log2_nonneg (Zpos b)) as Hlb.
  set (la := Z.log2 a) in *. set (lb := Z.log2 (Zpos b)) in *.
  assert (pow2 la <= inject_Z a) as A1 by (rewrite pow2_Z, <- Zle_Qle; assumption).
  assert (inject_Z a < pow2 (la + 1)) as A2.
  { rewrite pow2_Z by lia. rewrite <- Zlt_Qlt. replace (la + 1)%Z with (Z.succ la) by lia.
    exact Ha2. }
  assert (pow2 lb <= inject_Z (Zpos b)) as B1 by (rewrite pow2_Z, <- Zle_Qle; assumption).
  assert (inject_Z (Zpos b) < pow2 (lb + 1)) as B2.
  { rewrite pow2_Z by lia. rewrite <- Zlt_Qlt. replace (lb + 1)%Z with (Z.succ lb) by lia.
    exact Hb2. }
  assert (a # b == inject_Z a / inject_Z (Zpos b)) as Hq by apply Qmake_Qdiv.
  assert (0 < inject_Z (Zpos b)) as HB by reflexivity.
  pose proof (pow2_pos la) as Pla. pose proof (pow2_pos lb) as Plb.
  pose proof (pow2_succ la) as Sla. pose proof (pow2_succ lb) as Slb.
  destruct (Qle_bool (pow2 (la - lb)) (a # b)) eqn:E.
  - apply Qle_bool_iff in E. split; [exact E |].
    rewrite Hq. apply Qlt_shift_div_r; [exact HB |].
    replace (la - lb + 1)%Z with ((la + 1) - lb)%Z by lia. rewrite pow2_sub.
    assert (pow2 (la + 1) / pow2 lb * inject_Z (Zpos b)
            == pow2 (la + 1) * inject_Z (Zpos b) / pow2 lb) as -> by (field; apply Qpower_not_0, two_neq_0).
    apply Qlt_shift_div_l; [exact Plb |].
    pose proof (pow2_pos (la + 1)) as Pla1.
    revert A2 B1 Plb Pla1. generalize (pow2 (la + 1)) (pow2 lb) (inject_Z a) (inject_Z (Zpos b)).
    intros P L A B A2 B1 Plb Pla1.
    assert (A * L < P * L) by (apply Qmult_lt_compat_r; assumption).
    assert (L * P <= B * P) by (apply Qmult_le_compat_r; lra).
    lra.
  - assert (a # b < pow2 (la - lb)) as E'.
    { apply Qnot_le_lt. intros H. apply Qle_bool_iff in H. congruence. }
    split.
    + rewrite Hq. apply Qle_shift_div_l; [exact HB |].
      replace (la - lb - 1)%Z with (la - (lb + 1))%Z by lia. rewrite pow2_sub.
      assert (pow2 la / pow2 (lb + 1) * inject_Z (Zpos b)
              == pow2 la * inject_Z (Zpos b) / pow2 (lb + 1)) as ->
        by (field; apply Qpower_not_0, two_neq_0).
      apply Qle_shift_div_r; [apply pow2_pos |].
      pose proof (pow2_pos (lb + 1)) as Plb1.
      revert A1 B2 Pla Plb1.
      generalize (pow2 la) (pow2 (lb + 1)) (inject_Z a) (inject_Z (Zpos b)).
      intros P L A B A1 B2 Pla Plb1.
      assert (B * P <= L * P) by (apply Qmult_le_compat_r; lra).
      assert (P * L <= A * L) by (apply Qmult_le_compat_r; lra).
      lra.
    + replace (la - lb - 1 + 1)%Z with (la - lb)%Z by lia. exact E'.
Qed.

Lemma ilog2_unique (x : Q) (k : Z) :
  pow2 k <= x -> x < pow2 (k + 1) -> ilog2 x = k.
Proof.
  intros H1 H2.
  assert (0 < x) as Hx by (pose proof (pow2_pos k); lra).
  destruct (ilog2_spec x Hx) as [S1 S2].
  assert (pow2 k < pow2 (ilog2 x + 1)) as L1 by lra.
  assert (pow2 (ilog2 x) < pow2 (k + 1)) as L2 by lra.
  apply pow2_lt_inv in L1, L2. lia.
Qed.

Lemma ilog2_comp (x y : Q) : 0 < x -> x == y -> ilog2 x = ilog2 y.
Proof.
  intros Hx E. destruct (ilog2_spec x Hx) as [S1 S2].
  symmetry. apply ilog2_unique; rewrite <- E; assumption.
Qed.

Lemma ilog2_mono (x y : Q) : 0 < x -> x <= y -> (ilog2 x <= ilog2 y)%Z.
Proof.
  intros Hx Hxy. destruct (ilog2_spec x Hx) as [S1 _].
  destruct (ilog2_spec y ltac:(lra)) as [_ T2].
  assert (pow2 (ilog2 x) < pow2 (ilog2 y + 1)) as L by lra.
  apply pow2_lt_inv in L. lia.
Qed.

(** *** Rounding to an integer, ties to even *)

Lemma round_half_even_spec (x : Q) :
  let n := round_half_even x in
  (Qabs (inject_Z n - x) < 1 # 2)
  \/ (Qabs (inject_Z n - x) == 1 # 2 /\ Z.even n = true).
Proof.
  unfold round_half_even.
  pose proof (Qfloor_le x) as F1. pose proof (Qlt_floor x) as F2.
  set (f := Qfloor x) in *.
  rewrite inject_Z_plus in F2. change (inject_Z 1) with 1 in F2.
  destruct (Qcompare_spec (x - inject_Z f) (1 # 2)) as [E | E | E].
  - right. destruct (Z.even f) eqn:Ev.
    + split; [| exact Ev]. rewrite Qabs_neg by lra. lra.
    + split.
      * rewrite inject_Z_plus. change (inject_Z 1) with 1. rewrite Qabs_pos by lra. lra.
      * rewrite Z.even_add, Ev. reflexivity.
  - left. rewrite Qabs_neg by lra. lra.
  - left. rewrite inject_Z_plus. change (inject_Z 1) with 1. rewrite Qabs_pos by lra. lra.
Qed.

Lemma Qabs_half_cases (a : Q) (ev : bool) :
  (Qabs a < 1 # 2) \/ (Qabs a == 1 # 2 /\ ev = true) ->
  (- (1 # 2) < a /\ a < 1 # 2)
  \/ ((a == 1 # 2 \/ a == - (1 # 2)) /\ ev = true).
Proof.
  intros [H | [H E]].
  - left. apply Qabs_Qlt_condition in H. exact H.
  - right. split; [| exact E].
    destruct (Qlt_le_dec a 0) as [Ha | Ha].
    + rewrite Qabs_neg in H by lra. right. lra.
    + rewrite Qabs_pos in H by lra. left. lra.
Qed.

Lemma round_half_even_unique (x : Q) (n : Z) :
  (Qabs (inject_Z n - x) < 1 # 2)
  \/ (Qabs (inject_Z n - x) == 1 # 2 /\ Z.even n = true) ->
  round_half_even x = n.
Proof.
  intros Hn. pose proof (round_half_even_spec x) as Hm. cbv zeta in Hm.
  set (m := round_half_even x) in *.
  apply Qabs_half_cases in Hn, Hm.
  assert (-1 <= m - n <= 1)%Z as Hd.
  { split.
    - apply Z.lt_pred_le. rewrite Zlt_Qlt. unfold Z.pred, Zminus.
      rewrite !inject_Z_plus, inject_Z_opp. change (inject_Z (-1)) with (-(1)).
      destruct Hn as [Hn | [[Hn | Hn] _]], Hm as [Hm | [[Hm | Hm] _]]; lra.
    - apply Z.lt_succ_r. rewrite Zlt_Qlt. unfold Z.succ, Zminus.
      rewrite !inject_Z_plus, inject_Z_opp. change (inject_Z 1) with 1.
      destruct Hn as [Hn | [[Hn | Hn] _]], Hm as [Hm | [[Hm | Hm] _]]; lra. }
  destruct (Z.eq_dec m n) as [E | Hne]; [exact E | exfalso].
  assert (m = n + 1 \/ m = n - 1)%Z as [E | E] by lia.
  - assert (inject_Z m == inject_Z n + 1) as E1 by (rewrite E, inject_Z_plus; reflexivity).
    assert (Z.even m = negb (Z.even n)) as Ev by (rewrite E, Z.even_add; destruct (Z.even n); reflexivity).
    destruct Hn as [Hn | [[Hn | Hn] En]], Hm as [Hm | [[Hm | Hm] Em]]; try lra.
    all: rewrite Ev, En in Em; discriminate.
  - assert (inject_Z m == inject_Z n - 1) as E1
      by (rewrite E; unfold Zminus; rewrite inject_Z_plus; reflexivity).
    assert (Z.even m = negb (Z.even n)) as Ev by (rewrite E, Z.even_sub; destruct (Z.even n); reflexivity).
    destruct Hn as [Hn | [[Hn | Hn] En]], Hm as [Hm | [[Hm | Hm] Em]]; try lra.
    all: rewrite Ev, En in Em; discriminate.
Qed.

Lemma round_half_even_Z (z : Z) : round_half_even (inject_Z z) = z.
Proof.
  apply round_half_even_unique. left.
  assert (inject_Z z - inject_Z z == 0) as -> by ring. reflexivity.
Qed.

Lemma round_half_even_0 : round_half_even 0 = 0%Z.
Proof. reflexivity. Qed.

Lemma round_half_even_comp (x y : Q) : x == y -> round_half_even x = round_half_even y.
Proof.
  intros E. apply round_half_even_unique. rewrite E. apply round_half_even_spec.
Qed.

Lemma round_half_even_opp (x : Q) : round_half_even (- x) = (- round_half_even x)%Z.
Proof.
  apply round_half_even_unique.
  pose proof (round_half_even_spec x) as H. cbv zeta in H.
  rewrite inject_Z_opp.
  assert (- inject_Z (round_half_even x) - - x == - (inject_Z (round_half_even x) - x)) as ->
    by ring.
  rewrite Qabs_opp, Z.even_opp. exact H.
Qed.

Lemma round_half_even_mono (x y : Q) :
  x <= y -> (round_half_even x <= round_half_even y)%Z.
Proof.
  intros Hxy.
  pose proof (round_half_even_spec x) as Hx. pose proof (round_half_even_spec y) as Hy.
  cbv zeta in Hx, Hy. apply Qabs_half_cases in Hx, Hy.
  set (m := round_half_even x) in *. set (n := round_half_even y) in *.
  destruct (Z_le_gt_dec m n) as [H | H]; [exact H | exfalso].
  assert (n + 1 <= m)%Z as H1 by lia.
  rewrite Zle_Qle, inject_Z_plus in H1. change (inject_Z 1) with 1 in H1.
  (* then [x = y] lies half way between [n] and [m = n + 1] *)
  assert (inject_Z m == inject_Z n + 1 /\ Z.even m = true /\ Z.even n = true)
    as (E & Em & En).
  { destruct Hx as [Hx | [[Hx | Hx] Em]], Hy as [Hy | [[Hy | Hy] En]]; try lra.
    split; [lra | auto]. }
  assert (m = n + 1)%Z as Emn.
  { apply (inj_eq_rev m (n + 1)%Z) || idtac.
    assert (inject_Z m == inject_Z (n + 1)) as E' by (rewrite inject_Z_plus; exact E).
    unfold Qeq in E'. simpl in E'. lia. }
  rewrite Emn, Z.even_add, En in Em. discriminate.
Qed.

(** *** Rounding to a double *)

Lemma round_double_unfold (x : Q) :
  ~ x == 0 ->
  round_double x
  = if Qle_bool (pow2 1024) (Qabs (rounded x))
    then (if Qle_bool 0 x then PosInfinity else NegInfinity)
    else Finite (Qred (rounded x)).
Proof.
  intros Hx. unfold round_double, rounded.
  destruct (Qeq_bool x 0) eqn:E; [apply Qeq_bool_eq in E; contradiction | reflexivity].
Qed.

Lemma round_double_0 (x : Q) : x == 0 -> round_double x = Finite 0.
Proof. intros Hx. unfold round_double. rewrite (Qeq_eq_bool _ _ Hx). reflexivity. Qed.

Lemma Qabs_pos_lt (x : Q) : ~ x == 0 -> 0 < Qabs x.
Proof.
  intros Hx. destruct (Qlt_le_dec 0 (Qabs x)) as [H | H]; [exact H | exfalso].
  pose proof (Qabs_nonneg x). apply Hx.
  assert (Qabs x == 0) as E by lra.
  destruct (Qlt_le_dec x 0); [rewrite Qabs_neg in E by lra | rewrite Qabs_pos in E by lra]; lra.
Qed.

Lemma quantum_comp (x y : Q) : ~ x == 0 -> x == y -> quantum x = quantum y.
Proof.
  intros Hx E. unfold quantum. f_equal. f_equal.
  apply ilog2_comp; [apply Qabs_pos_lt, Hx | apply Qabs_wd, E].
Qed.

Lemma rounded_comp (x y : Q) : ~ x == 0 -> x == y -> rounded x == rounded y.
Proof.
  intros Hx E. unfold rounded. rewrite <- (quantum_comp x y Hx E).
  rewrite (round_half_even_comp (y / pow2 (quantum x)) (x / pow2 (quantum x)))
    by (apply Qdiv_comp; [symmetry; exact E | reflexivity]).
  reflexivity.
Qed.

(** [round_double] does not depend on how its argument is written. *)
Lemma round_double_comp (x y : Q) : x == y -> round_double x = round_double y.
Proof.
  intros E. destruct (Qeq_dec x 0) as [Hx | Hx].
  - rewrite !round_double_0; [reflexivity | rewrite <- E; exact Hx | exact Hx].
  - assert (~ y == 0) as Hy by (rewrite <- E; exact Hx).
    rewrite !round_double_unfold by assumption.
    pose proof (rounded_comp x y Hx E) as Er.
    rewrite (Qleb_comp _ _ (reflexivity (pow2 1024)) _ _ (Qabs_wd _ _ Er)).
    rewrite (Qleb_comp _ _ (reflexivity 0) _ _ E).
    rewrite (Qred_complete _ _ Er). reflexivity.
Qed.

Lemma quantum_spec (x : Q) :
  ~ x == 0 ->
  (-1074 <= quantum x)%Z
  /\ Qabs x < pow2 (quantum x + 53)
  /\ (pow2 (-1022) <= Qabs x ->
      pow2 (quantum x + 52) <= Qabs x).
Proof.
  intros Hx. pose proof (Qabs_pos_lt x Hx) as Ha.
  destruct (ilog2_spec (Qabs x) Ha) as [S1 S2]. unfold quantum.
  set (k := ilog2 (Qabs x)) in *.
  split; [lia | split].
  - eapply Qlt_le_trans; [exact S2 | apply pow2_le; lia].
  - intros Hn.
    assert (pow2 (-1022) < pow2 (k + 1)) as L by lra.
    apply pow2_lt_inv in L.
    replace (Z.max (k - 52) (-1074) + 52)%Z with k by lia. exact S1.
Qed.

Lemma rounded_spec (x : Q) :
  ~ x == 0 ->
  Qabs (rounded x - x) <= pow2 (quantum x) * (1 # 2)
  /\ (Z.abs (round_half_even (x / pow2 (quantum x))) <= 2 ^ 53)%Z.
Proof.
  intros Hx. destruct (quantum_spec x Hx) as (Q1 & Q2 & _).
  pose proof (pow2_pos (quantum x)) as Pe. unfold rounded.
  set (e := quantum x) in *. set (n := round_half_even (x / pow2 e)).
  split.
  - assert (inject_Z n * pow2 e - x == (inject_Z n - x / pow2 e) * pow2 e) as ->
      by (field; lra).
    rewrite Qabs_Qmult, (Qabs_pos (pow2 e)) by lra.
    assert (Qabs (inject_Z n - x / pow2 e) <= 1 # 2) as H.
    { pose proof (round_half_even_spec (x / pow2 e)) as H. cbv zeta in H. fold n in H.
      destruct H as [H | [H _]]; lra. }
    rewrite (Qmult_comm (pow2 e)). apply Qmult_le_compat_r; lra.
  - assert (Qabs (x / pow2 e) < inject_Z (2 ^ 53)) as Hq.
    { unfold Qdiv. rewrite Qabs_Qmult, Qabs_Qinv, (Qabs_pos (pow2 e)) by lra.
      apply Qlt_shift_div_r; [exact Pe |].
      rewrite <- pow2_Z by lia. rewrite <- pow2_add.
      replace (53 + e)%Z with (e + 53)%Z by lia. exact Q2. }
    apply Qabs_Qlt_condition in Hq. destruct Hq as [H1 H2].
    rewrite <- inject_Z_opp in H1.
    apply Qlt_le_weak, round_half_even_mono in H1, H2.
    rewrite round_half_even_Z in H1, H2. fold n in H1, H2. lia.
Qed.

Lemma rounded_sign (x : Q) :
  (0 <= x -> 0 <= rounded x) /\ (x <= 0 -> rounded x <= 0).
Proof.
  pose proof (pow2_pos (quantum x)) as Pe. unfold rounded.
  set (e := quantum x) in *. split; intros Hx.
  - assert (0 <= x / pow2 e) as H by (apply Qle_shift_div_l; lra).
    apply round_half_even_mono in H. rewrite round_half_even_0 in H.
    rewrite Zle_Qle in H. apply Qmult_le_0_compat; [exact H | lra].
  - assert (x / pow2 e <= 0) as H by (apply Qle_shift_div_r; lra).
    apply round_half_even_mono in H. rewrite round_half_even_0 in H.
    rewrite Zle_Qle in H. change (inject_Z 0) with 0 in H.
    assert (0 <= - inject_Z (round_half_even (x / pow2 e)) * pow2 e) as H'
      by (apply Qmult_le_0_compat; lra).
    lra.
Qed.

Lemma Qnonzero_pos (x : Q) : ~ x == 0 -> 0 <= x -> 0 < x.
Proof.
  intros Hx H. apply Qle_lteq in H. destruct H as [H | H]; [exact H |].
  symmetry in H. contradiction.
Qed.

Lemma Qnonzero_neg (x : Q) : ~ x == 0 -> ~ 0 <= x -> x < 0.
Proof. intros Hx H. apply Qnot_le_lt. exact H. Qed.

(** What [round_double] returns. *)
Lemma round_double_cases (x : Q) :
  ~ x == 0 ->
  (round_double x = Finite (Qred (rounded x)) /\ Qabs (rounded x) < pow2 1024)
  \/ (round_double x = PosInfinity /\ 0 < x /\ pow2 1024 <= rounded x)
  \/ (round_double x = NegInfinity /\ x < 0 /\ rounded x <= - pow2 1024).
Proof.
  intros Hx. rewrite round_double_unfold by exact Hx.
  destruct (rounded_sign x) as [Sp Sn].
  destruct (Qle_bool (pow2 1024) (Qabs (rounded x))) eqn:E.
  - apply Qle_bool_iff in E. right. destruct (Qle_bool 0 x) eqn:S.
    + apply Qle_bool_iff in S. left. split; [reflexivity |].
      split; [apply Qnonzero_pos; assumption |].
      rewrite Qabs_pos in E by auto. exact E.
    + right. split; [reflexivity |].
      assert (x < 0) as Hn.
      { apply Qnot_le_lt. intros H. apply Qle_bool_iff in H. congruence. }
      split; [exact Hn |].
      rewrite Qabs_neg in E by (apply Sn; lra). lra.
  - left. split; [reflexivity |].
    apply Qnot_le_lt. intros H. apply Qle_bool_iff in H. congruence.
Qed.

Lemma is_double_0 : is_double 0.
Proof.
  exists 0%Z, 0%Z. split; [reflexivity | split; [reflexivity | split; [lia |]]].
  apply pow2_pos.
Qed.

(** A number of the form [m * 2^e] with [|m| < 2^53] and [-1074 <= e] is
    not changed by the rounding of the mantissa. *)
Lemma rounded_exact (x : Q) (m e0 : Z) :
  x == inject_Z m * pow2 e0 -> (Z.abs m < 2 ^ 53)%Z -> (-1074 <= e0)%Z ->
  rounded x == x.
Proof.
  intros Hm Hb He.
  destruct (Qeq_dec x 0) as [Hx | Hx].
  - unfold rounded.
    rewrite (round_half_even_comp (x / pow2 (quantum x)) 0).
    + rewrite round_half_even_0. transitivity 0; [ring | symmetry; exact Hx].
    + transitivity (0 / pow2 (quantum x));
        [apply Qdiv_comp; [exact Hx | reflexivity] | unfold Qdiv; ring].
  - destruct (quantum_spec x Hx) as (Q1 & Q2 & _).
    pose proof (Qabs_pos_lt x Hx) as Ha.
    destruct (ilog2_spec (Qabs x) Ha) as [S1 _].
    assert (quantum x <= e0)%Z as Hle.
    { unfold quantum. apply Z.max_lub; [| exact He].
      assert (Qabs x < pow2 (e0 + 53)) as L.
      { rewrite Hm, Qabs_Qmult, (Qabs_pos (pow2 e0)) by (pose proof (pow2_pos e0); lra).
        rewrite pow2_add, (Qmult_comm (pow2 e0)).
        apply Qmult_lt_compat_r; [apply pow2_pos |].
        rewrite pow2_Z by lia.
        assert (Qabs (inject_Z m) == inject_Z (Z.abs m)) as ->.
        { unfold inject_Z. symmetry. apply Zabs_Qabs. }
        rewrite <- Zlt_Qlt. exact Hb. }
      assert (pow2 (ilog2 (Qabs x)) < pow2 (e0 + 53)) as L' by lra.
      apply pow2_lt_inv in L'. lia. }
    unfold rounded. set (e := quantum x) in *.
    assert (x / pow2 e == inject_Z (m * 2 ^ (e0 - e))) as Hq.
    { rewrite inject_Z_mult, <- pow2_Z by lia. rewrite pow2_sub, Hm.
      pose proof (pow2_pos e). field. lra. }
    rewrite (round_half_even_comp _ _ Hq), round_half_even_Z.
    rewrite <- Hq. pose proof (pow2_pos e). field. lra.
Qed.

(** A double rounds to itself. *)
Lemma round_double_exact (x : Q) : is_double x -> round_double x = Finite (Qred x).
Proof.
  intros (m & e0 & Hm & Hb & He & Hr).
  destruct (Qeq_dec x 0) as [Hx | Hx].
  - rewrite (round_double_0 x Hx). f_equal. symmetry. apply (Qred_complete x 0 Hx).
  - pose proof (rounded_exact x m e0 Hm Hb He) as Er.
    destruct (round_double_cases x Hx) as [[-> _] | [[_ [_ H]] | [_ [_ H]]]].
    + f_equal. apply Qred_complete, Er.
    + exfalso. rewrite Er in H. pose proof (Qle_Qabs x). lra.
    + exfalso. rewrite Er in H. apply Qabs_Qlt_condition in Hr. lra.
Qed.

(** Beyond the range, it rounds to an infinity. *)
Lemma round_double_overflow (x : Q) (m e0 : Z) :
  x == inject_Z m * pow2 e0 -> (Z.abs m < 2 ^ 53)%Z -> (-1074 <= e0)%Z ->
  pow2 1024 <= x ->
  round_double x = PosInfinity.
Proof.
  intros Hm Hb He Hr.
  assert (~ x == 0) as Hx by (pose proof (pow2_pos 1024); lra).
  pose proof (rounded_exact x m e0 Hm Hb He) as Er.
  destruct (round_double_cases x Hx) as [[_ H] | [[E _] | [_ [H _]]]].
  - exfalso. rewrite Er in H. pose proof (Qle_Qabs x). lra.
  - exact E.
  - exfalso. pose proof (pow2_pos 1024). lra.
Qed.

Lemma is_double_Qred (x : Q) : is_double x -> is_double (Qred x).
Proof.
  intros (m & e & H1 & H2 & H3 & H4). exists m, e.
  rewrite Qred_correct. auto.
Qed.

Lemma is_double_comp (x y : Q) : x == y -> is_double x -> is_double y.
Proof.
  intros E (m & e & H1 & H2 & H3 & H4). exists m, e. rewrite <- E. auto.
Qed.

(** What [round_double] returns is a double. *)
Lemma round_double_is_double (x q : Q) : round_double x = Finite q -> is_double q.
Proof.
  intros H. destruct (Qeq_dec x 0) as [Hx | Hx].
  - rewrite (round_double_0 x Hx) in H. injection H as <-. apply is_double_0.
  - destruct (round_double_cases x Hx) as [[E Hr] | [[E _] | [E _]]];
      rewrite E in H; try discriminate.
    assert (q = Qred (rounded x)) as -> by congruence. clear H E.
    apply is_double_Qred.
    destruct (rounded_spec x Hx) as [_ Hn].
    destruct (quantum_spec x Hx) as (Q1 & _).
    unfold rounded in *. set (e := quantum x) in *.
    set (n := round_half_even (x / pow2 e)) in *.
    destruct (Z.eq_dec (Z.abs n) (2 ^ 53)%Z) as [Hmax | Hlt].
    + exists (n / 2)%Z, (e + 1)%Z.
      assert (n = 2 * (n / 2))%Z as En.
      { destruct (Z.abs_spec n) as [[_ Hn'] | [_ Hn']]; rewrite Hn' in Hmax.
        - rewrite Hmax. reflexivity.
        - assert (n = - 2 ^ 53)%Z as -> by lia. reflexivity. }
      split; [| split; [| split; [lia | exact Hr]]].
      * rewrite pow2_succ. rewrite En at 1. rewrite inject_Z_mult.
        change (inject_Z 2) with 2. ring.
      * destruct (Z.abs_spec n) as [[_ Hn'] | [_ Hn']]; rewrite Hn' in Hmax.
        -- rewrite Hmax. reflexivity.
        -- assert (n = - 2 ^ 53)%Z as -> by lia. reflexivity.
    + exists n, e. split; [reflexivity | split; [lia | split; [exact Q1 | exact Hr]]].
Qed.

Lemma quantum_opp (x : Q) : quantum (- x) = quantum x.
Proof.
  unfold quantum. f_equal. f_equal. f_equal.
  destruct x as [a b]. unfold Qabs, Qopp. cbn [Qnum Qden]. rewrite Z.abs_opp. reflexivity.
Qed.

Lemma rounded_opp (x : Q) : rounded (- x) == - rounded x.
Proof.
  unfold rounded. rewrite quantum_opp.
  rewrite (round_half_even_comp (- x / pow2 (quantum x)) (- (x / pow2 (quantum x))))
    by (pose proof (pow2_pos (quantum x)); field; lra).
  rewrite round_half_even_opp, inject_Z_opp. ring.
Qed.

(** Rounding is symmetric. *)
Lemma round_double_opp (x : Q) : round_double (- x) = Number_opp (round_double x).
Proof.
  destruct (Qeq_dec x 0) as [Hx | Hx].
  - rewrite (round_double_0 x Hx), round_double_0 by lra. reflexivity.
  - assert (~ - x == 0) as Hx' by lra.
    rewrite !round_double_unfold by assumption.
    pose proof (rounded_opp x) as Er.
    assert (Qabs (rounded (- x)) == Qabs (rounded x)) as Ea
      by (rewrite Er; apply Qabs_opp).
    rewrite (Qleb_comp _ _ (reflexivity (pow2 1024)) _ _ Ea).
    destruct (Qle_bool (pow2 1024) (Qabs (rounded x))).
    + destruct (Qle_bool 0 x) eqn:S.
      * apply Qle_bool_iff in S.
        assert (Qle_bool 0 (- x) = false) as ->; [| reflexivity].
        destruct (Qle_bool 0 (- x)) eqn:S'; [| reflexivity].
        apply Qle_bool_iff in S'. exfalso. apply Hx. lra.
      * assert (Qle_bool 0 (- x) = true) as ->; [| reflexivity].
        apply Qle_bool_iff.
        destruct (Qlt_le_dec x 0) as [H | H]; [lra |].
        apply Qle_bool_iff in H. congruence.
    + cbn [Number_opp]. f_equal. rewrite <- Qred_opp. apply Qred_complete, Er.
Qed.

(** Rounding is monotone: first for positive arguments. *)
Lemma rounded_mono_pos (x y : Q) : 0 < x -> x <= y -> rounded x <= rounded y.
Proof.
  intros Hx Hxy.
  assert (~ x == 0) as Nx by lra. assert (~ y == 0) as Ny by lra.
  assert (quantum x <= quantum y)%Z as Hq.
  { unfold quantum. apply Z.max_le_compat_r, Z.sub_le_mono_r.
    apply ilog2_mono; [apply Qabs_pos_lt, Nx |].
    rewrite !Qabs_pos by lra. exact Hxy. }
  pose proof (pow2_pos (quantum x)) as Px. pose proof (pow2_pos (quantum y)) as Py.
  destruct (Z.eq_dec (quantum x) (quantum y)) as [E | Hne].
  - unfold rounded. rewrite <- E. apply Qmult_le_compat_r; [| lra].
    rewrite <- Zle_Qle. apply round_half_even_mono.
    apply Qmult_le_compat_r; [exact Hxy |]. apply Qlt_le_weak, Qinv_lt_0_compat, Px.
  - (* [y] lies in a higher binade: a power of two separates the results *)
    assert (quantum x < quantum y)%Z as Hlt by lia.
    pose proof (Qabs_pos_lt y Ny) as Hay.
    destruct (ilog2_spec (Qabs y) Hay) as [Sy _].
    pose proof (Qabs_pos_lt x Nx) as Hax.
    destruct (ilog2_spec (Qabs x) Hax) as [_ Sx].
    set (kx := ilog2 (Qabs x)) in *. set (ky := ilog2 (Qabs y)) in *.
    rewrite Qabs_pos in Sy, Sx by lra.
    assert (quantum y = ky - 52)%Z as Ey by (unfold quantum in *; fold kx ky in Hlt |- *; lia).
    assert (kx + 1 <= ky)%Z as Hk by (unfold quantum in *; fold kx ky in Hlt; lia).
    assert (quantum x <= ky)%Z as Hxk by lia.
    apply Qle_trans with (pow2 ky).
    + unfold rounded. set (e := quantum x) in *.
      assert (x / pow2 e <= inject_Z (2 ^ (ky - e))) as H.
      { apply Qle_shift_div_r; [exact Px |].
        rewrite <- pow2_Z by lia. rewrite <- pow2_add.
        replace (ky - e + e)%Z with ky by lia.
        apply Qlt_le_weak. eapply Qlt_le_trans; [exact Sx | apply pow2_le; lia]. }
      apply round_half_even_mono in H. rewrite round_half_even_Z in H.
      rewrite Zle_Qle in H. rewrite <- pow2_Z in H by lia.
      assert (pow2 ky == pow2 (ky - e) * pow2 e) as ->
        by (rewrite <- pow2_add; replace (ky - e + e)%Z with ky by lia; reflexivity).
      apply Qmult_le_compat_r; [exact H | lra].
    + unfold rounded. rewrite Ey in *. set (e := (ky - 52)%Z) in *.
      assert (inject_Z (2 ^ 52) <= y / pow2 e) as H.
      { apply Qle_shift_div_l; [exact Py |].
        rewrite <- pow2_Z by lia. rewrite <- pow2_add.
        replace (52 + e)%Z with ky by (unfold e; lia). exact Sy. }
      apply round_half_even_mono in H. rewrite round_half_even_Z in H.
      rewrite Zle_Qle in H. rewrite <- pow2_Z in H by lia.
      assert (pow2 ky == pow2 52 * pow2 e) as ->
        by (rewrite <- pow2_add; replace (52 + e)%Z with ky by (unfold e; lia); reflexivity).
      apply Qmult_le_compat_r; [exact H | lra].
Qed.

Lemma Number_le_opp (a b : Number) :
  Number_le a b = true -> Number_le (Number_opp b) (Number_opp a) = true.
Proof.
  destruct a, b; simpl; try congruence.
  intros H. apply Qle_bool_iff in H. apply Qle_bool_iff. lra.
Qed.

Lemma round_double_mono_pos (x y : Q) :
  0 < x -> x <= y -> Number_le (round_double x) (round_double y) = true.
Proof.
  intros Hx Hxy.
  assert (~ x == 0) as Nx by lra. assert (~ y == 0) as Ny by lra.
  pose proof (rounded_mono_pos x y Hx Hxy) as Hr.
  destruct (rounded_sign x) as [Sx _]. destruct (rounded_sign y) as [Sy _].
  destruct (round_double_cases x Nx) as [[-> Bx] | [[-> [_ Bx]] | [_ [Bx _]]]];
    destruct (round_double_cases y Ny) as [[-> By] | [[-> [_ By]] | [_ [By _]]]];
    try lra; try reflexivity.
  - cbn [Number_le]. apply Qle_bool_iff, Qred_le. exact Hr.
  - exfalso. rewrite Qabs_pos in By by (apply Sy; lra). lra.
Qed.

Lemma round_double_sign (x : Q) :
  (0 <= x -> Number_le (Finite 0) (round_double x) = true)
  /\ (x <= 0 -> Number_le (round_double x) (Finite 0) = true).
Proof.
  destruct (Qeq_dec x 0) as [Hx | Hx].
  - rewrite (round_double_0 x Hx). split; reflexivity.
  - destruct (rounded_sign x) as [Sp Sn].
    destruct (round_double_cases x Hx) as [[-> B] | [[-> [P B]] | [-> [P B]]]];
      split; intros H; cbn [Number_le]; try reflexivity; try lra;
      apply Qle_bool_iff; rewrite Qred_correct; auto.
Qed.

Lemma Number_le_trans (a b c : Number) :
  Number_le a b = true -> Number_le b c = true -> Number_le a c = true.
Proof.
  destruct a, b, c; simpl; try congruence.
  intros H1 H2. apply Qle_bool_iff in H1, H2. apply Qle_bool_iff. lra.
Qed.

(** Rounding is monotone. *)
Lemma round_double_mono (x y : Q) :
  x <= y -> Number_le (round_double x) (round_double y) = true.
Proof.
  intros Hxy.
  destruct (Qlt_le_dec 0 x) as [Hx | Hx].
  - apply round_double_mono_pos; assumption.
  - destruct (Qlt_le_dec y 0) as [Hy | Hy].
    + (* both negative *)
      assert (Number_le (round_double (- y)) (round_double (- x)) = true) as H
        by (apply round_double_mono_pos; lra).
      rewrite !round_double_opp in H. apply Number_le_opp in H.
      destruct (round_double x), (round_double y); simpl in *; try congruence.
      apply Qle_bool_iff in H. apply Qle_bool_iff. lra.
    + apply Number_le_trans with (Finite 0); apply round_double_sign; assumption.
Qed.

(** The error of rounding: half a quantum, and in the normal range a
    relative error of [2^-53]. *)
Lemma round_double_error (x q : Q) :
  round_double x = Finite q ->
  pow2 (-1022) <= Qabs x ->
  Qabs (q - x) <= Qabs x * pow2 (-53).
Proof.
  intros H Hn.
  assert (~ x == 0) as Hx.
  { intros E. assert (Qabs x == 0) as E0 by (rewrite E; reflexivity).
    pose proof (pow2_pos (-1022)). lra. }
  destruct (round_double_cases x Hx) as [[E _] | [[E _] | [E _]]];
    rewrite E in H; try discriminate.
  assert (q = Qred (rounded x)) as -> by congruence.
  rewrite Qred_correct.
  destruct (rounded_spec x Hx) as [He _].
  destruct (quantum_spec x Hx) as (_ & _ & Q3). specialize (Q3 Hn).
  eapply Qle_trans; [exact He |].
  rewrite pow2_add in Q3.
  assert (pow2 (-53) == (1 # 2) / pow2 52) as -> by reflexivity.
  pose proof (pow2_pos (quantum x)). pose proof (pow2_pos 52) as P52.
  assert (Qabs x * ((1 # 2) / pow2 52) == Qabs x * (1 # 2) / pow2 52) as -> by (field; lra).
  apply Qle_shift_div_l; [exact P52 |]. lra.
Qed.

(** Below a double, the rounded value stays below it. *)
Lemma round_double_bounded (x M : Q) :
  0 <= x -> x <= M -> is_double M ->
  exists q, round_double x = Finite q /\ 0 <= q /\ q <= M.
Proof.
  intros H0 HM Hd.
  pose proof (round_double_mono x M HM) as Hle.
  rewrite (round_double_exact M Hd) in Hle.
  destruct (round_double_sign x) as [Hs _]. specialize (Hs H0).
  destruct (round_double x) as [q | | |]; simpl in *; try discriminate.
  exists q. apply Qle_bool_iff in Hle, Hs. rewrite Qred_correct in Hle. auto.
Qed.

Lemma round_double_ge (x m : Q) :
  m <= x -> is_double m ->
  Number_le (Finite m) (round_double x) = true.
Proof.
  intros Hm Hd. pose proof (round_double_mono m x Hm) as H.
  rewrite (round_double_exact m Hd) in H.
  destruct (round_double x); simpl in *; try congruence.
  apply Qle_bool_iff in H. apply Qle_bool_iff. rewrite Qred_correct in H. exact H.
Qed.

(** *** Facts about doubles *)

Lemma round_double_not_NaN (x : Q) : round_double x <> NaN.
Proof.
  destruct (Qeq_dec x 0) as [Hx | Hx].
  - rewrite (round_double_0 x Hx). discriminate.
  - destruct (round_double_cases x Hx) as [[-> _] | [[-> _] | [-> _]]]; discriminate.
Qed.

(** Integers below [2^53] are doubles. *)
Lemma is_double_Z (z : Z) : (Z.abs z < 2 ^ 53)%Z -> is_double (inject_Z z).
Proof.
  intros Hz. exists z, 0%Z.
  split; [rewrite pow2_0; ring | split; [exact Hz | split; [lia |]]].
  assert (Qabs (inject_Z z) == inject_Z (Z.abs z)) as ->
    by (unfold inject_Z; symmetry; apply Zabs_Qabs).
  rewrite pow2_Z by lia. rewrite <- Zlt_Qlt.
  assert (2 ^ 53 < 2 ^ 1024)%Z by (apply Z.pow_lt_mono_r; lia). lia.
Qed.

(** A double times a power of two is a double, within the range. *)
Lemma is_double_scale (x : Q) (j : Z) :
  is_double x -> (0 <= j)%Z -> Qabs (x * pow2 j) < pow2 1024 ->
  is_double (x * pow2 j).
Proof.
  intros (m & e & Hm & Hb & He & _) Hj Hr. exists m, (e + j)%Z.
  split; [rewrite pow2_add, Hm; ring | split; [exact Hb | split; [lia | exact Hr]]].
Qed.

(** A quarter of an integer below [2^53] is a double. *)
Lemma is_double_quarter (z : Z) : (Z.abs z < 2 ^ 53)%Z -> is_double (inject_Z z / 4).
Proof.
  intros Hz. exists z, (-2)%Z.
  split; [reflexivity | split; [exact Hz | split; [lia |]]].
  pose proof (is_double_Z z Hz) as (_ & _ & _ & _ & _ & H).
  assert (Qabs (inject_Z z / 4) == Qabs (inject_Z z) * (1 # 4)) as ->.
  { unfold Qdiv. rewrite Qabs_Qmult. reflexivity. }
  pose proof (Qabs_nonneg (inject_Z z)). lra.
Qed.

(** A double from [2^52] on is an integer. *)
Lemma is_double_large (x : Q) :
  is_double x -> pow2 52 <= x -> exists z : Z, x == inject_Z z.
Proof.
  intros (m & e & Hm & Hb & He & _) Hx.
  assert (0 <= e)%Z as H0.
  { assert (pow2 52 < pow2 (e + 53)) as L.
    { eapply Qle_lt_trans; [exact Hx |]. rewrite Hm, pow2_add, (Qmult_comm (pow2 e)).
      apply Qmult_lt_compat_r; [apply pow2_pos |].
      rewrite pow2_Z by lia. rewrite <- Zlt_Qlt. lia. }
    apply pow2_lt_inv in L. lia. }
  exists (m * 2 ^ e)%Z. rewrite inject_Z_mult, <- pow2_Z by exact H0. exact Hm.
Qed.

(** The model on doubles that are known digit by digit: the literals [0.1]
    and [1.15], [0.1 + 0.2] (which is 0.30000000000000004), [1 / 3], the
    product of 1.0869565217391306 and 1.15 (which is 1.25, below the exact
    product), an overflow, and [Infinity - Infinity]. *)
Lemma round_double_examples :
  literal (1 # 10) = Finite (3602879701896397 # 36028797018963968)
  /\ literal (115 # 100) = Finite (2589569785738035 # 2251799813685248)
  /\ Number_add (literal (1 # 10)) (literal (2 # 10))
     = Finite (1351079888211149 # 4503599627370496)
  /\ Number_div 1 3 = Finite (6004799503160661 # 18014398509481984)
  /\ Number_mul (literal (10869565217391306 # 10000000000000000)) (literal (115 # 100))
     = Finite (5 # 4)
  /\ (5 # 4 < (10869565217391306 # 10000000000000000) * (115 # 100))
  /\ Number_mul (literal (inject_Z (10 ^ 308))) 10 = PosInfinity
  /\ Number_sub PosInfinity PosInfinity = NaN.
Proof. repeat split; vm_compute; reflexivity. Qed.

End Doubles.

(** ** The chart's coordinates (dashboard.js, [renderChart]) *)

Section ChartGeometry.

Lemma minute_fraction_bounds (pw m : Z) :
  (0 <= pw)%Z -> (0 <= m <= 1439)%Z ->
  (0 <= inject_Z m * inject_Z pw / inject_Z (Dashboard.MINUTES - 1)
   /\ inject_Z m * inject_Z pw / inject_Z (Dashboard.MINUTES - 1) <= inject_Z pw)%Q.
Proof.
  intros Hpw [Hm0 Hm1].
  change (inject_Z (Dashboard.MINUTES - 1)) with (inject_Z 1439).
  assert (0 <= inject_Z pw)%Q as Hq by (rewrite (Zle_Qle 0 pw) in Hpw; exact Hpw).
  assert (0 <= inject_Z m)%Q as Hm by (rewrite (Zle_Qle 0 m) in Hm0; exact Hm0).
  assert (inject_Z m <= inject_Z 1439)%Q as Hm' by (rewrite <- Zle_Qle; exact Hm1).
  assert (0 < inject_Z 1439)%Q as Hpos by reflexivity.
  destruct (scaled_fraction_bounds _ _ _ Hq Hm Hm' Hpos) as [H0 H1].
  assert (inject_Z m * inject_Z pw / inject_Z 1439
          == inject_Z pw * inject_Z m / inject_Z 1439)%Q as E
    by (unfold Qdiv; ring).
  rewrite E. split; assumption.
Qed.

Lemma x_of_minute_mono (pw m m' : Z) :
  (0 <= pw)%Z -> (m <= m')%Z ->
  (Dashboard.x_of_minute pw m <= Dashboard.x_of_minute pw m')%Z.
Proof.
  intros Hpw Hmm. unfold Dashboard.x_of_minute.
  apply Z.add_le_mono_l, Math_round_mono.
  unfold Qdiv. apply Qmult_le_compat_r; [apply Qmult_le_compat_r |].
  - rewrite <- Zle_Qle. exact Hmm.
  - rewrite (Zle_Qle 0 pw) in Hpw. exact Hpw.
  - discriminate.
Qed.

Lemma x_of_minute_first (pw : Z) : Dashboard.x_of_minute pw 0 = Dashboard.plot_x.
Proof.
  unfold Dashboard.x_of_minute.
  rewrite (Math_round_proper _ (inject_Z 0)).
  - rewrite Math_round_integer. lia.
  - unfold Qdiv. change (inject_Z 0) with 0%Q. ring.
Qed.

Lemma x_of_minute_last (pw : Z) :
  Dashboard.x_of_minute pw 1439 = (Dashboard.plot_x + pw)%Z.
Proof.
  unfold Dashboard.x_of_minute.
  rewrite (Math_round_proper _ (inject_Z pw)).
  - rewrite Math_round_integer. reflexivity.
  - change (inject_Z (Dashboard.MINUTES - 1)) with (inject_Z 1439).
    field.
Qed.

(** C6.  On a chart whose plot area has a non-negative width
    ([pw = chartW - 14 >= 0], so that [[px, px + pw]] is an interval), every
    minute of the day [m] in [0..1439] is drawn at an x-coordinate
    [px + round(m * pw / 1439)] inside [[px, px + pw]]; minute 0 is drawn
    at the left edge [px], minute 1439 at the right edge [px + pw], and the
    coordinate never decreases when the minute grows. *)
Theorem x_of_minute_within_chart (cw m : Z) :
  (0 <= Dashboard.plot_w cw)%Z ->
  (0 <= m <= 1439)%Z ->
  (Dashboard.plot_x <= Dashboard.x_of_minute (Dashboard.plot_w cw) m
     <= Dashboard.plot_x + Dashboard.plot_w cw)%Z
  /\ Dashboard.x_of_minute (Dashboard.plot_w cw) 0 = Dashboard.plot_x
  /\ Dashboard.x_of_minute (Dashboard.plot_w cw) 1439
     = (Dashboard.plot_x + Dashboard.plot_w cw)%Z
  /\ (forall m' : Z, (m <= m')%Z -> (m' <= 1439)%Z ->
        (Dashboard.x_of_minute (Dashboard.plot_w cw) m
         <= Dashboard.x_of_minute (Dashboard.plot_w cw) m')%Z).
Proof.
  intros Hpw Hm. split; [| split; [| split]].
  - destruct (minute_fraction_bounds _ _ Hpw Hm) as [H0 H1].
    unfold Dashboard.x_of_minute.
    pose proof (Math_round_between _ 0 (Dashboard.plot_w cw) H0 H1). lia.
  - apply x_of_minute_first.
  - apply x_of_minute_last.
  - intros m' Hmm _. apply x_of_minute_mono; assumption.
Qed.

Lemma x_of_minute_within_chart_witness :
  (0 <= Dashboard.plot_w 480)%Z /\ (0 <= 720 <= 1439)%Z /\
  (Dashboard.plot_x <= Dashboard.x_of_minute (Dashboard.plot_w 480) 720
     <= Dashboard.plot_x + Dashboard.plot_w 480)%Z.
Proof.
  assert (0 <= Dashboard.plot_w 480)%Z as Hw by (vm_compute; discriminate).
  assert (0 <= 720 <= 1439)%Z as Hm by lia.
  split; [exact Hw | split; [exact Hm |]].
  exact (proj1 (x_of_minute_within_chart 480 720 Hw Hm)).
Defined.

(** *** The vertical scale *)

Lemma Math_max_spread_upper (xs : list Q) (x : Q) :
  (x <= Math_max_spread x xs)%Q
  /\ (forall v, In v xs -> v <= Math_max_spread x xs)%Q.
Proof.
  unfold Math_max_spread. revert x.
  induction xs as [| y ys IH]; intros x; simpl.
  - split; [apply Qle_refl | intros v []].
  - destruct (IH (Qmax x y)) as [H1 H2]. split.
    + eapply Qle_trans; [apply Q.le_max_l | exact H1].
    + intros v [<- | Hv].
      * eapply Qle_trans; [apply Q.le_max_r | exact H1].
      * apply H2, Hv.
Qed.

Local Open Scope Q_scope.

Lemma literal_115 : literal (115 # 100) = Finite c115.
Proof. vm_compute. reflexivity. Qed.

Lemma computeYMax_unfold (values : list Q) :
  Dashboard.computeYMax values = quarter_up (raw_scale (largest values)).
Proof. reflexivity. Qed.

Lemma raw_scale_cases (mx : Q) :
  (round_double (mx * c115) = PosInfinity /\ raw_scale mx = PosInfinity)
  \/ (exists r, raw_scale mx = Finite r /\ 1 <= r /\ is_double r
                /\ ((exists t, round_double (mx * c115) = Finite t /\ t <= r)
                    \/ round_double (mx * c115) = NegInfinity)).
Proof.
  unfold raw_scale. rewrite literal_115. cbn [Number_mul].
  pose proof (round_double_not_NaN (mx * c115)) as Hn.
  pose proof (round_double_is_double (mx * c115)) as Hd.
  destruct (round_double (mx * c115)) as [t | | |]; [| | | contradiction].
  - right. cbn [Number_max Number_le].
    destruct (Qle_bool 1 t) eqn:E.
    + apply Qle_bool_iff in E. exists t. split; [reflexivity | split; [exact E |]].
      split; [apply Hd; reflexivity | left; exists t; split; [reflexivity | lra]].
    + exists 1. split; [reflexivity | split; [lra |]].
      split; [apply (is_double_Z 1); reflexivity |].
      left. exists t. split; [reflexivity |].
      apply Qlt_le_weak, Qnot_le_lt. intros H. apply Qle_bool_iff in H. congruence.
  - left. split; reflexivity.
  - right. exists 1. split; [reflexivity | split; [lra |]].
    split; [apply (is_double_Z 1); reflexivity | right; reflexivity].
Qed.

Lemma quarter_up_infinity : quarter_up PosInfinity = PosInfinity.
Proof. reflexivity. Qed.

Lemma quarter_up_finite (r : Q) :
  is_double r -> 1 <= r ->
  (pow2 1024 <= r * 4 /\ quarter_up r = PosInfinity)
  \/ (r * 4 < pow2 1024
      /\ quarter_up r = Finite (Qred (inject_Z (Qceiling (r * 4)) / 4))
      /\ is_double (inject_Z (Qceiling (r * 4)) / 4)).
Proof.
  intros Hd H1. unfold quarter_up. cbn [Number_mul].
  assert (r * 4 == r * pow2 2) as E4 by reflexivity.
  destruct (Qlt_le_dec (r * 4) (pow2 1024)) as [Hr | Hr].
  - right. split; [exact Hr |].
    assert (is_double (r * 4)) as Hs.
    { apply (is_double_comp (r * pow2 2)); [symmetry; exact E4 |].
      apply is_double_scale; [exact Hd | lia |].
      rewrite <- E4, Qabs_pos by lra. exact Hr. }
    rewrite (round_double_exact _ Hs). cbn [Number_ceil Number_div].
    change (Qeq_bool 4 0) with false. cbv iota.
    rewrite (Qceiling_comp (Qred (r * 4)) (r * 4)) by apply Qred_correct.
    assert (is_double (inject_Z (Qceiling (r * 4)) / 4)) as Hq.
    { destruct (Qlt_le_dec (r * 4) (pow2 52)) as [Hs52 | Hs52].
      - apply is_double_quarter.
        assert (Qceiling (r * 4) <= 2 ^ 52)%Z as Hc.
        { rewrite <- (Qceiling_Z (2 ^ 52)). apply Qceiling_resp_le.
          rewrite <- pow2_Z by lia. lra. }
        assert (0 <= Qceiling (r * 4))%Z as Hc0.
        { rewrite <- (Qceiling_Z 0). apply Qceiling_resp_le. change (inject_Z 0) with 0. lra. }
        lia.
      - destruct (is_double_large _ Hs Hs52) as [z Hz].
        rewrite (Qceiling_comp _ _ Hz), Qceiling_Z.
        apply (is_double_comp r); [| exact Hd].
        rewrite <- Hz. field. }
    split; [| exact Hq]. apply round_double_exact, Hq.
  - left. split; [exact Hr |].
    destruct Hd as (m & e & Hm & Hb & He & _).
    rewrite (round_double_overflow (r * 4) m (e + 2)); [reflexivity | | exact Hb | lia | exact Hr].
    rewrite pow2_add, Hm. change (pow2 2) with 4. ring.
Qed.

(** What [computeYMax] returns: [Infinity], or a multiple of 0.25 that is
    the raw scale rounded up. *)
Lemma computeYMax_spec (values : list Q) :
  Dashboard.computeYMax values = PosInfinity
  \/ exists (r : Q) (n : Z),
       raw_scale (largest values) = Finite r
       /\ 1 <= r /\ is_double r
       /\ n = Qceiling (r * 4)
       /\ Dashboard.computeYMax values = Finite (Qred (inject_Z n / 4))
       /\ is_double (inject_Z n / 4).
Proof.
  rewrite computeYMax_unfold.
  destruct (raw_scale_cases (largest values)) as [[_ ->] | (r & Hr & H1 & Hd & _)].
  - left. reflexivity.
  - rewrite Hr. destruct (quarter_up_finite r Hd H1) as [[_ E] | (_ & E & Hq)].
    + left. exact E.
    + right. exists r, (Qceiling (r * 4)). auto 10.
Qed.

Lemma quarter_bounds (r : Q) :
  let q := inject_Z (Qceiling (r * 4)) / 4 in r <= q /\ q < r + (1 # 4).
Proof.
  cbv zeta. pose proof (Qle_ceiling (r * 4)) as H1. pose proof (Qceiling_lt (r * 4)) as H2.
  unfold Zminus in H2. rewrite inject_Z_plus, inject_Z_opp in H2. change (inject_Z 1) with 1 in H2.
  split.
  - apply Qle_shift_div_l; [reflexivity | exact H1].
  - apply Qlt_shift_div_r; [reflexivity | lra].
Qed.

Lemma literal_06 : literal (6 # 10) = Finite c06.
Proof. vm_compute. reflexivity. Qed.

(** A finite scale is a multiple of 0.25 and at least 1. *)
Lemma computeYMax_finite (values : list Q) (y : Q) :
  Dashboard.computeYMax values = Finite y ->
  1 <= y /\ is_double y /\ exists n : Z, y == inject_Z n * (1 # 4).
Proof.
  intros H.
  destruct (computeYMax_spec values) as [E | (r & n & _ & H1 & _ & -> & E & Hd)];
    [congruence |].
  assert (y = Qred (inject_Z (Qceiling (r * 4)) / 4)) as -> by congruence.
  destruct (quarter_bounds r) as [Hq _].
  split; [rewrite Qred_correct; lra |].
  split; [apply is_double_Qred, Hd |].
  exists (Qceiling (r * 4)). rewrite Qred_correct. reflexivity.
Qed.

(** *** Doubles that are integers *)

Lemma Qred_inject_Z (z : Z) : Qred (inject_Z z) = inject_Z z.
Proof.
  unfold Qred, inject_Z. cbn [Qnum Qden].
  pose proof (Z.ggcd_gcd z 1) as Hg. pose proof (Z.ggcd_correct_divisors z 1) as Hd.
  destruct (Z.ggcd z 1) as [g [a b]]. cbn [fst snd] in *.
  rewrite Z.gcd_1_r in Hg. subst g. destruct Hd as [Ha Hb].
  assert (a = z) as -> by lia. assert (b = 1%Z) as -> by lia. reflexivity.
Qed.

Lemma round_double_Z (z : Z) :
  (Z.abs z < 2 ^ 53)%Z -> round_double (inject_Z z) = Finite (inject_Z z).
Proof.
  intros H. rewrite round_double_exact by (apply is_double_Z; exact H).
  rewrite Qred_inject_Z. reflexivity.
Qed.

Lemma Number_sub_Z (a b : Z) :
  (Z.abs (a - b) < 2 ^ 53)%Z ->
  Number_sub (Finite (inject_Z a)) (Finite (inject_Z b)) = Finite (inject_Z (a - b)).
Proof.
  intros H. unfold Number_sub. cbn [Number_opp Number_add].
  rewrite (round_double_comp _ (inject_Z (a - b))); [apply round_double_Z, H |].
  unfold Z.sub. rewrite inject_Z_plus, inject_Z_opp. reflexivity.
Qed.

(** *** The error of an operation *)

Lemma quantum_subnormal (x : Q) :
  ~ x == 0 -> Qabs x < pow2 (-1022) -> quantum x = (-1074)%Z.
Proof.
  intros Hx Hs. pose proof (Qabs_pos_lt x Hx) as Ha.
  destruct (ilog2_spec (Qabs x) Ha) as [S1 _].
  assert (pow2 (ilog2 (Qabs x)) < pow2 (-1022)) as L by lra.
  apply pow2_lt_inv in L. unfold quantum. lia.
Qed.

(** Half a unit in the last place: a relative error of [2^-53], or
    [2^-1075] among the subnormal doubles. *)
Lemma round_double_error_abs (x q : Q) :
  round_double x = Finite q ->
  Qabs (q - x) <= Qabs x * pow2 (-53) + pow2 (-1075).
Proof.
  intros H. pose proof (pow2_pos (-1075)) as P. pose proof (pow2_pos (-53)) as P53.
  pose proof (Qabs_nonneg x) as Hx0.
  assert (0 <= Qabs x * pow2 (-53)) as Hm by (apply Qmult_le_0_compat; lra).
  destruct (Qeq_dec x 0) as [Hx | Hx].
  - rewrite (round_double_0 x Hx) in H.
    assert (q = 0) as -> by congruence.
    assert (Qabs (0 - x) == 0) as -> by (rewrite Hx; reflexivity). lra.
  - destruct (Qlt_le_dec (Qabs x) (pow2 (-1022))) as [Hs | Hn].
    + destruct (round_double_cases x Hx) as [[E _] | [[E _] | [E _]]];
        rewrite E in H; try discriminate.
      assert (q = Qred (rounded x)) as -> by congruence.
      rewrite Qred_correct.
      destruct (rounded_spec x Hx) as [He _].
      rewrite (quantum_subnormal x Hx Hs) in He.
      assert (pow2 (-1074) * (1 # 2) == pow2 (-1075)) as E2 by reflexivity.
      lra.
    + pose proof (round_double_error x q H Hn). lra.
Qed.

(** The same error, two-sided, for a non-negative result. *)
Lemma round_double_near (x q : Q) :
  round_double x = Finite q -> 0 <= x ->
  x - (x * pow2 (-53) + pow2 (-1075)) <= q <= x + (x * pow2 (-53) + pow2 (-1075)).
Proof.
  intros H Hx. pose proof (round_double_error_abs x q H) as He.
  rewrite (Qabs_pos x) in He by exact Hx.
  apply Qabs_Qle_condition in He. lra.
Qed.

Lemma pow2_1021_double : is_double (pow2 1021).
Proof.
  exists 1%Z, 1021%Z. split; [ring | split; [reflexivity | split; [lia |]]].
  rewrite Qabs_pos by (apply Qlt_le_weak, pow2_pos). apply pow2_lt. lia.
Qed.

(** Dividing by a scale of at least 1 keeps an error bound. *)
Lemma quotient_near (u x y e h : Q) :
  1 <= y -> 0 <= h -> 0 <= x ->
  x - (x * e + h) <= u <= x + (x * e + h) ->
  x / y - (x / y * e + h) <= u / y <= x / y + (x / y * e + h).
Proof.
  intros Hy Hh Hx [Hl Hu].
  assert (0 < y) as Hpos by lra.
  assert (h / y <= h) as Hhy.
  { apply Qle_shift_div_r; [exact Hpos |].
    assert (h * 1 <= h * y) as H by (rewrite !(Qmult_comm h); apply Qmult_le_compat_r; lra).
    lra. }
  assert ((x - (x * e + h)) / y <= u / y) as H1
    by (unfold Qdiv; apply Qmult_le_compat_r; [exact Hl | apply Qlt_le_weak, Qinv_lt_0_compat, Hpos]).
  assert (u / y <= (x + (x * e + h)) / y) as H2
    by (unfold Qdiv; apply Qmult_le_compat_r; [exact Hu | apply Qlt_le_weak, Qinv_lt_0_compat, Hpos]).
  assert ((x - (x * e + h)) / y == x / y - (x / y * e + h / y)) as E1 by (field; lra).
  assert ((x + (x * e + h)) / y == x / y + (x / y * e + h / y)) as E2 by (field; lra).
  lra.
Qed.

(** [a * c / y] as the scripts compute it, for a scale [y] of at least 1:
    both operations return finite numbers, and the result is the exact
    quotient up to a relative error of [2^-51]. *)
Lemma mul_div_near (a c y : Q) :
  0 <= a -> 0 <= c -> 1 <= y -> a * c <= pow2 1021 ->
  exists u w : Q,
    round_double (a * c) = Finite u
    /\ round_double (u / y) = Finite w
    /\ 0 <= w
    /\ Qabs (w - a * c / y) <= a * c / y * pow2 (-51) + pow2 (-1073).
Proof.
  intros Ha Hc Hy Hb.
  assert (0 <= a * c) as Hx by (apply Qmult_le_0_compat; assumption).
  assert (0 < y) as Hpos by lra.
  destruct (round_double_bounded (a * c) (pow2 1021) Hx Hb pow2_1021_double)
    as (u & Eu & Hu0 & Hu1).
  assert (0 <= u / y) as Hq0 by (apply Qle_shift_div_l; lra).
  assert (u / y <= pow2 1021) as Hq1.
  { apply Qle_shift_div_r; [exact Hpos |].
    pose proof (pow2_pos 1021) as P.
    assert (pow2 1021 * 1 <= pow2 1021 * y) as H
      by (rewrite !(Qmult_comm (pow2 1021)); apply Qmult_le_compat_r; lra).
    lra. }
  destruct (round_double_bounded (u / y) (pow2 1021) Hq0 Hq1 pow2_1021_double)
    as (w & Ew & Hw0 & _).
  exists u, w. split; [exact Eu | split; [exact Ew | split; [exact Hw0 |]]].
  pose proof (round_double_near _ _ Eu Hx) as N1.
  pose proof (round_double_near _ _ Ew Hq0) as N2.
  assert (0 <= pow2 (-1075)) as P by (apply Qlt_le_weak, pow2_pos).
  pose proof (quotient_near u (a * c) y (pow2 (-53)) (pow2 (-1075)) Hy P Hx N1) as N3.
  assert (0 <= a * c / y) as HT by (apply Qle_shift_div_l; lra).
  revert N2 N3 HT Hq0. generalize (u / y). generalize (a * c / y). intros T x2 N2 N3 HT Hq0.
  change (pow2 (-53)) with (1 # 9007199254740992) in *.
  change (pow2 (-51)) with (1 # 2251799813685248).
  assert (pow2 (-1073) == 4 * pow2 (-1075)) as -> by reflexivity.
  revert P N2 N3. generalize (pow2 (-1075)). intros h P N2 N3.
  apply Qabs_Qle_condition.
  assert (0 <= x2 * (1 # 9007199254740992)) by lra.
  assert (x2 * (1 # 9007199254740992) <= T * (1 # 4503599627370496) + h) as Hx2.
  { destruct N3 as [_ N3]. 
    assert ((T + (T * (1 # 9007199254740992) + h)) * (1 # 9007199254740992)
            <= T * (1 # 4503599627370496) + h) as H1.
    { assert (0 <= T * (1 # 9007199254740992)) by lra. lra. }
    assert (x2 * (1 # 9007199254740992)
            <= (T + (T * (1 # 9007199254740992) + h)) * (1 # 9007199254740992)) as H2 by lra.
    lra. }
  lra.
Qed.

(** *** The plotted height of a value *)

Lemma Number_mul_not_NaN (a b : Q) : Number_mul (Finite a) (Finite b) <> NaN.
Proof. apply round_double_not_NaN. Qed.

Lemma Number_div_not_NaN (a : Number) (y : Q) :
  a <> NaN -> ~ y == 0 -> Number_div a (Finite y) <> NaN.
Proof.
  intros Ha Hy.
  assert (Qeq_bool y 0 = false) as E.
  { destruct (Qeq_bool y 0) eqn:E; [apply Qeq_bool_eq in E; contradiction | reflexivity]. }
  destruct a as [x | | |]; cbn [Number_div]; [| | | contradiction].
  - rewrite E. apply round_double_not_NaN.
  - destruct (Qle_bool 0 y); discriminate.
  - destruct (Qle_bool 0 y); discriminate.
Qed.

Lemma Number_round_not_NaN (a : Number) : a <> NaN -> Number_round a <> NaN.
Proof. destruct a; cbn [Number_round]; congruence. Qed.

Lemma Number_sub_not_NaN (a : Q) (b : Number) :
  b <> NaN -> Number_sub (Finite a) b <> NaN.
Proof.
  intros Hb. unfold Number_sub.
  destruct b as [x | | |]; cbn [Number_opp Number_add]; [| | | contradiction].
  - apply round_double_not_NaN.
  - discriminate.
  - discriminate.
Qed.

(** On a finite scale other than zero, the height of a finite value is a
    number. *)
Lemma y_of_value_not_NaN (ph : Z) (yMax v : Q) :
  ~ yMax == 0 -> Dashboard.y_of_value ph (Finite yMax) (Finite v) <> NaN.
Proof.
  intros Hy. unfold Dashboard.y_of_value.
  apply Number_sub_not_NaN, Number_round_not_NaN, Number_div_not_NaN;
    [apply Number_mul_not_NaN | exact Hy].
Qed.

(** The clamp brings every number into the band. *)
Lemma clamp_y_band (ph : Z) (y : Number) :
  (0 <= ph)%Z -> y <> NaN ->
  exists c : Q,
    Dashboard.clamp_y ph y = Finite c
    /\ inject_Z Dashboard.plot_y <= c <= inject_Z (Dashboard.plot_y + ph).
Proof.
  intros Hph Hy. unfold Dashboard.clamp_y, Dashboard.zq.
  assert (inject_Z Dashboard.plot_y <= inject_Z (Dashboard.plot_y + ph)) as Hb
    by (rewrite <- Zle_Qle; lia).
  revert Hb. generalize (inject_Z (Dashboard.plot_y + ph)).
  generalize (inject_Z Dashboard.plot_y). intros lo hi Hb.
  assert (Qle_bool lo hi = true) as Eb by (apply Qle_bool_iff, Hb).
  destruct y as [q | | |]; [| | | contradiction]; cbn [Number_min Number_le].
  - destruct (Qle_bool hi q) eqn:E1; cbn [Number_max Number_le].
    + rewrite Eb. exists hi. split; [reflexivity | lra].
    + assert (q < hi) as Hq.
      { apply Qnot_le_lt. intros H. apply Qle_bool_iff in H. congruence. }
      destruct (Qle_bool lo q) eqn:E2.
      * apply Qle_bool_iff in E2. exists q. split; [reflexivity | lra].
      * exists lo. split; [reflexivity | lra].
  - cbn [Number_max Number_le]. rewrite Eb. exists hi. split; [reflexivity | lra].
  - cbn [Number_max Number_le]. exists lo. split; [reflexivity | lra].
Qed.

(** *** The scale of bounded values *)

Lemma largest_upper (values : list Q) (v : Q) :
  In v values -> v <= largest values.
Proof.
  intros Hin. destruct values as [| x xs]; [destruct Hin |].
  destruct (Math_max_spread_upper xs x) as [Hx Hxs]. cbn [largest].
  destruct Hin as [<- | Hin]; [exact Hx | apply Hxs, Hin].
Qed.

Lemma Math_max_spread_attained (xs : list Q) (x : Q) :
  exists v, In v (x :: xs) /\ Math_max_spread x xs == v.
Proof.
  unfold Math_max_spread. revert x.
  induction xs as [| y ys IH]; intros x; simpl.
  - exists x. split; [left; reflexivity | reflexivity].
  - destruct (IH (Qmax x y)) as (v & [<- | Hin] & Hv).
    + destruct (Q.max_dec x y) as [E | E].
      * exists x. split; [left; reflexivity | rewrite Hv; exact E].
      * exists y. split; [right; left; reflexivity | rewrite Hv; exact E].
    + exists v. split; [right; right; exact Hin | exact Hv].
Qed.

(** A bound on every value is a bound on the largest. *)
Lemma largest_bounded (values : list Q) (lo hi : Q) :
  lo <= 0 -> 0 <= hi ->
  (forall v, In v values -> lo <= v <= hi) ->
  lo <= largest values <= hi.
Proof.
  intros Hlo Hhi Hall. destruct values as [| x xs]; cbn [largest]; [lra |].
  destruct (Math_max_spread_attained xs x) as (v & Hin & ->). apply Hall, Hin.
Qed.

Lemma raw_scale_finite (mx t : Q) :
  round_double (mx * c115) = Finite t ->
  raw_scale mx = Finite (if Qle_bool 1 t then t else 1).
Proof.
  intros H. unfold raw_scale. rewrite literal_115. cbn [Number_mul].
  rewrite H. cbn [Number_max Number_le]. destruct (Qle_bool 1 t); reflexivity.
Qed.

(** The scale of a list whose values times 1.15 stay below [M], for a
    double [M] within reach of the multiplication by 4: finite, a multiple
    of 0.25, the raw scale rounded up, and not above [M] when [M] is such
    a multiple. *)
Lemma computeYMax_below (values : list Q) (M : Q) :
  is_double M -> 1 <= M -> M <= pow2 1021 ->
  largest values * c115 <= M ->
  exists (r : Q) (n : Z),
    raw_scale (largest values) = Finite r
    /\ 1 <= r /\ r <= M
    /\ (forall t, round_double (largest values * c115) = Finite t -> t <= r)
    /\ round_double (largest values * c115) <> PosInfinity
    /\ n = Qceiling (r * 4)
    /\ Dashboard.computeYMax values = Finite (Qred (inject_Z n / 4)).
Proof.
  intros Hd H1 HM Hmx. set (mx := largest values) in *.
  assert (exists r, raw_scale mx = Finite r /\ 1 <= r /\ r <= M /\ is_double r
                    /\ (forall t, round_double (mx * c115) = Finite t -> t <= r)
                    /\ round_double (mx * c115) <> PosInfinity)
    as (r & Er & Hr1 & HrM & Hrd & Ht & Hinf).
  { pose proof (round_double_mono _ _ Hmx) as Hle.
    rewrite (round_double_exact M Hd) in Hle.
    pose proof (round_double_is_double (mx * c115)) as Hdt.
    pose proof (round_double_not_NaN (mx * c115)) as Hn.
    destruct (round_double (mx * c115)) as [t | | |] eqn:Et;
      [| discriminate Hle | | contradiction].
    - rewrite (raw_scale_finite mx t Et).
      cbn [Number_le] in Hle. apply Qle_bool_iff in Hle. rewrite Qred_correct in Hle.
      destruct (Qle_bool 1 t) eqn:E1.
      + apply Qle_bool_iff in E1. exists t.
        split; [reflexivity | split; [exact E1 | split; [exact Hle |]]].
        split; [apply Hdt; reflexivity |].
        split; [intros t' Ht'; injection Ht' as <-; lra | discriminate].
      + exists 1. split; [reflexivity | split; [lra | split; [exact H1 |]]].
        split; [apply (is_double_Z 1); reflexivity |].
        split; [| discriminate]. intros t' Ht'. injection Ht' as <-.
        apply Qlt_le_weak, Qnot_le_lt. intros H. apply Qle_bool_iff in H. congruence.
    - exists 1. unfold raw_scale. rewrite literal_115. cbn [Number_mul]. rewrite Et.
      split; [reflexivity | split; [lra | split; [exact H1 |]]].
      split; [apply (is_double_Z 1); reflexivity |].
      split; [intros t' Ht'; discriminate | discriminate]. }
  exists r, (Qceiling (r * 4)).
  split; [exact Er | split; [exact Hr1 | split; [exact HrM |]]].
  split; [exact Ht | split; [exact Hinf | split; [reflexivity |]]].
  rewrite computeYMax_unfold. fold mx. rewrite Er.
  destruct (quarter_up_finite r Hrd Hr1) as [[Ho _] | (_ & E & _)]; [| exact E].
  exfalso. assert (pow2 1024 == 8 * pow2 1021) as E8 by reflexivity.
  pose proof (pow2_pos 1021). lra.
Qed.

Lemma c115_bounds : 1 <= c115 /\ c115 <= 2.
Proof. split; unfold c115; lra. Qed.

(** Where the product with 1.15 is finite, it covers the value. *)
Lemma raw_covers (mx t : Q) :
  1 <= mx -> round_double (mx * c115) = Finite t -> mx <= t.
Proof.
  intros H1 Et.
  assert (0 <= mx * c115) as Hx by (unfold c115; lra).
  pose proof (round_double_near _ _ Et Hx) as [Hl _].
  assert (pow2 (-1075) <= 1 # 128) as P.
  { assert (pow2 (-7) == 1 # 128) as <- by reflexivity. apply pow2_le. lia. }
  revert Hl P. generalize (pow2 (-1075)). intros h Hl P.
  change (pow2 (-53)) with (1 # 9007199254740992) in Hl.
  unfold c115 in *. lra.
Qed.

(** C7 (as stated, refuted).  A history of two readings of 1e308, a
    non-negative rms value: the product [raw * 4] overflows, [computeYMax]
    returns [Infinity], which is no multiple of 0.25, and the height of
    the plotted points is [NaN], which lies in no band. *)
Lemma computeYMax_overflows :
  let v := double_of (inject_Z (10 ^ 308)) in
  let hist := [ (600%Z, v); (601%Z, v) ] in
  Forall (fun v => 0 <= v) (map snd hist)
  /\ Dashboard.computeYMax (map snd hist) = PosInfinity
  /\ snd (Dashboard.point_of (Dashboard.plot_w 480) (Dashboard.plot_h 320)
                              (Dashboard.computeYMax (map snd hist)) (601%Z, v))
     = NaN.
Proof.
  cbv zeta. split; [| split].
  - repeat constructor; vm_compute; discriminate.
  - vm_compute. reflexivity.
  - vm_compute. reflexivity.
Qed.

(** C7 (amended).  For every list of rms values between 0 and [2^1020]
    (about 1.1e307), [computeYMax] returns a finite multiple of 0.25 that
    is at least 1.0 and at least every value of the list.  Consequently,
    on a chart whose vertical band [[py, py + ph]] is an interval
    ([ph = chartH - 38 >= 0]), every point plotted for a history with
    these values has a clamped y-coordinate that is a finite number within
    [[py, py + ph]]. *)
Theorem computeYMax_covers_values (values : list Q) :
  (forall v, In v values -> 0 <= v <= pow2 1020) ->
  exists yMax : Q,
    Dashboard.computeYMax values = Finite yMax
    /\ (exists k : Z, yMax == inject_Z k * (1 # 4))
    /\ 1 <= yMax
    /\ (forall v, In v values -> v <= yMax)
    /\ (forall (hist : list (Z * Q)) (cw ch : Z) (p : Z * Q),
          map snd hist = values ->
          (0 <= Dashboard.plot_h ch)%Z ->
          In p hist ->
          exists y : Q,
            snd (Dashboard.point_of (Dashboard.plot_w cw) (Dashboard.plot_h ch)
                                    (Dashboard.computeYMax (map snd hist)) p)
            = Finite y
            /\ inject_Z Dashboard.plot_y <= y
               <= inject_Z (Dashboard.plot_y + Dashboard.plot_h ch)).
Proof.
  intros Hall.
  pose proof (pow2_pos 1020) as P.
  assert (pow2 1021 == 2 * pow2 1020) as E21 by reflexivity.
  assert (0 <= largest values <= pow2 1020) as [Hm0 Hm1]
    by (apply largest_bounded; [lra | lra | exact Hall]).
  destruct c115_bounds as [C1 C2].
  assert (largest values * c115 <= pow2 1021) as Hx.
  { assert (largest values * c115 <= largest values * 2) as H
      by (rewrite !(Qmult_comm (largest values)); apply Qmult_le_compat_r; lra).
    lra. }
  assert (1 <= pow2 1021) as H1.
  { assert (pow2 0 <= pow2 1021) as H by (apply pow2_le; lia). rewrite pow2_0 in H. exact H. }
  destruct (computeYMax_below values (pow2 1021) pow2_1021_double H1 (Qle_refl _) Hx)
    as (r & n & Er & Hr1 & _ & Ht & _ & -> & Ey).
  destruct (quarter_bounds r) as [Hq _].
  set (yMax := Qred (inject_Z (Qceiling (r * 4)) / 4)) in *.
  assert (yMax == inject_Z (Qceiling (r * 4)) / 4) as EyMax by apply Qred_correct.
  assert (1 <= yMax) as Hy1 by lra.
  exists yMax. split; [exact Ey | split; [| split; [exact Hy1 | split]]].
  - exists (Qceiling (r * 4)). rewrite EyMax. reflexivity.
  - intros v Hv. pose proof (largest_upper values v Hv) as Hle.
    destruct (Qlt_le_dec (largest values) 1) as [Hs | Hb]; [lra |].
    assert (0 <= largest values * c115) as Hx0 by (apply Qmult_le_0_compat; lra).
    destruct (round_double_bounded _ _ Hx0 Hx pow2_1021_double) as (t & Et & _).
    pose proof (raw_covers _ _ Hb Et). pose proof (Ht t Et). lra.
  - intros hist cw ch p <- Hph Hin. rewrite Ey.
    unfold Dashboard.point_of. cbn [snd].
    apply clamp_y_band; [exact Hph |].
    apply y_of_value_not_NaN. lra.
Qed.

Lemma computeYMax_covers_values_witness :
  let rms := double_of (10869565217391306 # 10000000000000000) in
  let hist := [ (600%Z, (41 # 100)%Q); (601%Z, rms) ] in
  (forall v, In v (map snd hist) -> 0 <= v <= pow2 1020)
  /\ (exists yMax : Q,
        Dashboard.computeYMax (map snd hist) = Finite yMax
        /\ 1 <= yMax
        /\ (forall v, In v (map snd hist) -> v <= yMax))
  /\ Dashboard.computeYMax (map snd hist) = Finite (5 # 4)
  /\ snd (Dashboard.point_of (Dashboard.plot_w 480) (Dashboard.plot_h 320)
            (Dashboard.computeYMax (map snd hist)) (601%Z, rms))
     = Finite 57.
Proof.
  intros rms hist.
  assert (forall v, In v (map snd hist) -> 0 <= v <= pow2 1020) as H.
  { assert (2 <= pow2 1020) as H1.
    { assert (pow2 1 <= pow2 1020) as H by (apply pow2_le; lia). exact H. }
    intros v [<- | [<- | []]];
      (split; [| eapply Qle_trans; [| exact H1]]; vm_compute; discriminate). }
  split; [exact H |].
  destruct (computeYMax_covers_values (map snd hist) H) as (yMax & Ey & _ & H1 & Hv & _).
  split; [exists yMax; auto |].
  split; vm_compute; reflexivity.
Defined.

(** *** The height of the alarm threshold *)

Lemma Qfloor_half_near (w : Q) :
  w - (1 # 2) <= inject_Z (Qfloor (w + (1 # 2))) <= w + (1 # 2).
Proof.
  pose proof (Qfloor_le (w + (1 # 2))) as H1.
  pose proof (Qlt_floor (w + (1 # 2))) as H2.
  rewrite inject_Z_plus in H2. change (inject_Z 1) with 1 in H2. lra.
Qed.

(** On the scale [Infinity] the line of the alarm threshold lies on the
    baseline. *)
Lemma threshold_height_infinity (ph : Z) :
  (0 <= ph < 2 ^ 31)%Z ->
  threshold_height ph PosInfinity = Finite (inject_Z (Dashboard.plot_y + ph)).
Proof.
  intros [Hp0 Hp1].
  assert (0 <= inject_Z ph) as Ha by (rewrite (Zle_Qle 0 ph) in Hp0; exact Hp0).
  assert (inject_Z ph <= inject_Z (2 ^ 31)) as Hb by (rewrite <- Zle_Qle; lia).
  change (inject_Z (2 ^ 31)) with 2147483648 in Hb.
  assert (0 <= inject_Z ph * c06) as Hx0 by (unfold c06; lra).
  assert (inject_Z ph * c06 <= pow2 1021) as Hx.
  { assert (pow2 31 <= pow2 1021) as H by (apply pow2_le; lia).
    change (pow2 31) with 2147483648 in H. unfold c06. lra. }
  destruct (round_double_bounded _ _ Hx0 Hx pow2_1021_double) as (u & Eu & _).
  unfold threshold_height. rewrite literal_06. cbn [Number_mul]. rewrite Eu.
  cbn [Number_div Number_round]. change (Qfloor (0 + (1 # 2))) with 0%Z.
  change (20 + ph)%Z with (Dashboard.plot_y + ph)%Z.
  rewrite Number_sub_Z by (change Dashboard.plot_y with 20%Z; lia).
  f_equal. f_equal. lia.
Qed.

(** On a scale of at least 1, the line of the alarm threshold lies [k]
    pixels above the baseline, where [k] is [ph * 0.6 / yMax] rounded to
    an integer: the operations on doubles move the quotient by less than
    a millionth of a pixel. *)
Lemma threshold_height_near (ph : Z) (y : Q) :
  (0 <= ph < 2 ^ 31)%Z -> 1 <= y ->
  exists k : Z,
    threshold_height ph (Finite y) = Finite (inject_Z (Dashboard.plot_y + ph - k))
    /\ (0 <= k <= ph)%Z
    /\ Qabs (inject_Z k - inject_Z ph * (6 # 10) / y) <= (1 # 2) + pow2 (-20).
Proof.
  intros [Hp0 Hp1] Hy.
  assert (0 <= inject_Z ph) as Ha by (rewrite (Zle_Qle 0 ph) in Hp0; exact Hp0).
  assert (inject_Z ph <= inject_Z (2 ^ 31)) as Hb by (rewrite <- Zle_Qle; lia).
  change (inject_Z (2 ^ 31)) with 2147483648 in Hb.
  assert (0 < y) as Hpos by lra.
  assert (0 <= c06) as Hc by (unfold c06; lra).
  assert (inject_Z ph * c06 <= pow2 1021) as Hx.
  { assert (pow2 31 <= pow2 1021) as H by (apply pow2_le; lia).
    change (pow2 31) with 2147483648 in H. unfold c06. lra. }
  destruct (mul_div_near (inject_Z ph) c06 y Ha Hc Hy Hx) as (u & w & Eu & Ew & Hw0 & Herr).
  set (k := Qfloor (w + (1 # 2))).
  assert (Qeq_bool y 0 = false) as Ey0.
  { destruct (Qeq_bool y 0) eqn:E; [apply Qeq_bool_eq in E; lra | reflexivity]. }
  pose proof (Qfloor_half_near w) as Hk. fold k in Hk.
  (* the exact quotient, through [g = ph / y] *)
  set (g := inject_Z ph / y).
  assert (0 <= g) as Hg0 by (apply Qle_shift_div_l; lra).
  assert (g <= inject_Z ph) as Hg1.
  { apply Qle_shift_div_r; [exact Hpos |].
    assert (inject_Z ph * 1 <= inject_Z ph * y) as H
      by (rewrite !(Qmult_comm (inject_Z ph)); apply Qmult_le_compat_r; lra).
    lra. }
  assert (inject_Z ph * c06 / y == g * c06) as ET by (unfold g; field; lra).
  assert (inject_Z ph * (6 # 10) / y == g * (6 # 10)) as ET' by (unfold g; field; lra).
  rewrite ET in Herr. apply Qabs_Qle_condition in Herr.
  assert (pow2 (-1073) <= pow2 (-51)) as Ptiny by (apply pow2_le; lia).
  change (pow2 (-51)) with (1 # 2251799813685248) in *.
  revert Herr Ptiny. generalize (pow2 (-1073)). intros h Herr Ptiny.
  assert (inject_Z k <= inject_Z ph + 1) as Hku by (unfold c06 in *; lra).
  assert (-1 < inject_Z k) as Hkl by lra.
  assert (0 <= k <= ph)%Z as Hkz.
  { split.
    - assert (inject_Z (-1) < inject_Z k) as H by exact Hkl.
      rewrite <- Zlt_Qlt in H. lia.
    - assert (inject_Z k < inject_Z (ph + 1)) as H.
      { rewrite inject_Z_plus. change (inject_Z 1) with 1. unfold c06 in *. lra. }
      rewrite <- Zlt_Qlt in H. lia. }
  exists k. split; [| split; [exact Hkz |]].
  - unfold threshold_height. rewrite literal_06. cbn [Number_mul]. rewrite Eu.
    cbn [Number_div]. rewrite Ey0, Ew. cbn [Number_round]. fold k.
    change (20 + ph)%Z with (Dashboard.plot_y + ph)%Z.
    apply Number_sub_Z. change Dashboard.plot_y with 20%Z. lia.
  - rewrite ET'. apply Qabs_Qle_condition.
    change (pow2 (-20)) with (1 # 1048576). unfold c06 in *. lra.
Qed.

Local Close Scope Q_scope.

End ChartGeometry.

(** ** The rules of the program logic *)

Section Hoare.

Lemma hoare_ret {A} (P : World -> Prop) (a : A) (Q : A -> World -> Prop) E :
  (forall w, P w -> Q a w) -> hoare P (ret a) Q E.
Proof. intros H w Hw. simpl. auto. Qed.

Lemma hoare_throw {A} (P : World -> Prop) e (Q : A -> World -> Prop) (E : World -> Prop) :
  (forall w, P w -> E w) -> hoare P (throw e) Q E.
Proof. intros H w Hw. simpl. auto. Qed.

Lemma hoare_gets {A} (P : World -> Prop) (f : World -> A) (Q : A -> World -> Prop) E :
  (forall w, P w -> Q (f w) w) -> hoare P (gets f) Q E.
Proof. intros H w Hw. simpl. auto. Qed.

Lemma hoare_modify (P : World -> Prop) (f : World -> World) (Q : unit -> World -> Prop) E :
  (forall w, P w -> Q tt (f w)) -> hoare P (modify f) Q E.
Proof. intros H w Hw. simpl. auto. Qed.

Lemma hoare_bind {A B} (P : World -> Prop) (R : A -> World -> Prop)
      (m : M A) (k : A -> M B) (Q : B -> World -> Prop) E :
  hoare P m R E ->
  (forall a, hoare (R a) (k a) Q E) ->
  hoare P (bind m k) Q E.
Proof.
  intros Hm Hk w Hw. unfold bind.
  specialize (Hm w Hw). destruct (m w) as [w' [a | e]].
  - apply (Hk a w' Hm).
  - exact Hm.
Qed.

Lemma hoare_consequence {A} (P P' : World -> Prop) (m : M A)
      (Q Q' : A -> World -> Prop) (E E' : World -> Prop) :
  hoare P' m Q' E' ->
  (forall w, P w -> P' w) ->
  (forall a w, Q' a w -> Q a w) ->
  (forall w, E' w -> E w) ->
  hoare P m Q E.
Proof.
  intros H HP HQ HE w Hw. specialize (H w (HP w Hw)).
  destruct (m w) as [w' [a | e]]; auto.
Qed.

Lemma hoare_pre {A} (P P' : World -> Prop) (m : M A) Q E :
  hoare P' m Q E -> (forall w, P w -> P' w) -> hoare P m Q E.
Proof. intros H HP. eapply hoare_consequence; eauto. Qed.

Lemma hoare_post {A} (P : World -> Prop) (m : M A) (Q Q' : A -> World -> Prop) E :
  hoare P m Q' E -> (forall a w, Q' a w -> Q a w) -> hoare P m Q E.
Proof. intros H HQ. eapply hoare_consequence; eauto. Qed.

(** The value read by [gets] is known to the continuation. *)
Lemma hoare_gets_bind {A B} (P : World -> Prop) (f : World -> A)
      (k : A -> M B) (Q : B -> World -> Prop) E :
  (forall a, hoare (fun w => P w /\ f w = a) (k a) Q E) ->
  hoare P (bind (gets f) k) Q E.
Proof.
  intros Hk. apply hoare_bind with (R := fun a w => P w /\ f w = a).
  - apply hoare_gets. auto.
  - exact Hk.
Qed.

Lemma hoare_gets_bind_any {A B} (P : World -> Prop) (f : World -> A)
      (k : A -> M B) (Q : B -> World -> Prop) E :
  (forall a, hoare P (k a) Q E) ->
  hoare P (bind (gets f) k) Q E.
Proof.
  intros Hk. apply hoare_gets_bind. intros a.
  eapply hoare_pre; [apply Hk | intros w [Hw _]; exact Hw].
Qed.

Lemma getElementById_from_id (id : string) (p : Page) :
  from_id id (getElementById id p).
Proof.
  unfold getElementById, from_id. destruct (nodes p !! by_id id); auto.
Qed.

Lemma hoare_getEl_bind {B} (P : World -> Prop) (id : string)
      (k : option NodeRef -> M B) (Q : B -> World -> Prop) E :
  (forall r, from_id id r -> hoare P (k r) Q E) ->
  hoare P (bind (getEl id) k) Q E.
Proof.
  intros Hk. unfold getEl. apply hoare_gets_bind. intros r.
  intros w [Hw Hr]. apply (Hk r); [| exact Hw].
  rewrite <- Hr. apply getElementById_from_id.
Qed.

Lemma hoare_getEl_bind_found {B} (P : World -> Prop) (id : string)
      (k : option NodeRef -> M B) (Q : B -> World -> Prop) E :
  (forall w, P w -> is_Some (lookup_node (by_id id) (page w))) ->
  hoare P (k (Some (by_id id))) Q E ->
  hoare P (bind (getEl id) k) Q E.
Proof.
  intros Hfound Hk. unfold getEl. apply hoare_gets_bind. intros r.
  intros w [Hw Hr]. destruct (Hfound w Hw) as [e He].
  unfold getElementById, lookup_node in *. rewrite He in Hr. subst r.
  apply Hk, Hw.
Qed.

Lemma hoare_forEach_from {A} (I E : World -> Prop) (l : list A)
      (f : A -> nat -> M unit) (i : nat) :
  (forall x j, hoare I (f x j) (fun _ => I) E) ->
  hoare I (forEach_from i l f) (fun _ => I) E.
Proof.
  intros Hf. revert i. induction l as [| x rest IH]; intros i; simpl.
  - apply hoare_ret. auto.
  - eapply hoare_bind; [apply Hf | intros ?; apply IH].
Qed.

Lemma hoare_forEach {A} (I E : World -> Prop) (l : list A) (f : A -> nat -> M unit) :
  (forall x j, hoare I (f x j) (fun _ => I) E) ->
  hoare I (forEach l f) (fun _ => I) E.
Proof. apply hoare_forEach_from. Qed.

Lemma hoare_write (I E : World -> Prop) r f :
  stable_under_write I r f -> hoare I (write r f) (fun _ => I) E.
Proof. intros H. apply hoare_modify. exact H. Qed.

Lemma hoare_when_present (I E : World -> Prop) r f :
  (forall n, r = Some n -> stable_under_write I n f) ->
  hoare I (when_present r f) (fun _ => I) E.
Proof.
  intros H. destruct r as [n |]; simpl.
  - apply hoare_write, H. reflexivity.
  - apply hoare_ret. auto.
Qed.

Lemma hoare_deref_some (P : World -> Prop) what n
      (Q : NodeRef -> World -> Prop) E :
  (forall w, P w -> Q n w) -> hoare P (deref what (Some n)) Q E.
Proof. intros H. simpl. apply hoare_ret, H. Qed.

Lemma hoare_deref (I E : World -> Prop) what r :
  (r = None -> forall w, I w -> E w) ->
  hoare I (deref what r) (fun _ => I) E.
Proof.
  intros H. destruct r as [n |]; simpl.
  - apply hoare_ret. auto.
  - apply hoare_throw. apply H. reflexivity.
Qed.

Lemma hoare_deref_some_bind {B} (P : World -> Prop) (what : string) (n : NodeRef)
      (k : NodeRef -> M B) (Q : B -> World -> Prop) E :
  hoare P (k n) Q E -> hoare P (bind (deref what (Some n)) k) Q E.
Proof. intros H w Hw. unfold bind. simpl. apply H, Hw. Qed.

Lemma hoare_deref_none_bind {B} (P : World -> Prop) (what : string)
      (k : NodeRef -> M B) (Q : B -> World -> Prop) (E : World -> Prop) :
  (forall w, P w -> E w) -> hoare P (bind (deref what None) k) Q E.
Proof. intros H w Hw. unfold bind. simpl. apply H, Hw. Qed.

End Hoare.

(** ** app.js: sending and dispatching *)

Section AppProperties.

Lemma send_closed (obj : Command) (w : World) :
  App.is_open (ws w) = false -> App.send obj w = (w, Normal tt).
Proof.
  intros H. unfold App.send, bind, gets. destruct (ws w) as [sock |] eqn:E.
  - rewrite H. reflexivity.
  - reflexivity.
Qed.

Lemma send_open (obj : Command) (w : World) (sock : WebSocket) :
  ws w = Some sock -> readyState sock = OPEN ->
  App.send obj w = (set_ws (Some (mkWebSocket OPEN (sent sock ++ [obj]))) w, Normal tt).
Proof.
  intros H Ho. unfold App.send, bind, gets. rewrite H. simpl. rewrite Ho. reflexivity.
Qed.

Lemma send_run (obj : Command) (w : World) :
  exists s, App.send obj w = (set_ws s w, Normal tt)
            /\ App.is_open s = App.is_open (ws w).
Proof.
  destruct (App.is_open (ws w)) eqn:Ho.
  - unfold App.is_open in Ho. destruct (ws w) as [sock |] eqn:E; [| discriminate].
    destruct (readyState sock) eqn:Er; try discriminate.
    rewrite (send_open obj w sock E Er). eexists. split; reflexivity.
  - rewrite (send_closed obj w Ho). exists (ws w). split; [| exact Ho].
    destruct w; reflexivity.
Qed.

(** C8.  While the socket is null or not in the OPEN state, [App.send] does
    nothing and raises nothing: the world is left exactly as it was, so the
    rest of the session runs as if the command had never been issued, and a
    socket that is opened afterwards has no frame written to it. *)
Theorem send_while_down_is_discarded (obj : Command) (w : World) :
  App.is_open (ws w) = false ->
  App.send obj w = (w, Normal tt)
  /\ (forall (B : Type) (k : M B), bind (App.send obj) (fun _ => k) w = k w)
  /\ ws (world_after (App.send obj ;;; App.connect ;;; App.ws_onopen) w)
     = Some (mkWebSocket OPEN []).
Proof.
  intros H. pose proof (send_closed obj w H) as Hs. split; [exact Hs | split].
  - intros B k. unfold bind. rewrite Hs. reflexivity.
  - unfold world_after, bind. rewrite Hs.
    unfold App.connect, App.ws_onopen, App.clockTick, modify, bind, gets, getEl. simpl.
    destruct (getElementById "clock" (page w)); reflexivity.
Qed.

Lemma send_while_down_is_discarded_witness :
  App.is_open (ws offline_world) = false
  /\ App.send (CmdWifiConnect (Some "Home") "secret") offline_world
     = (offline_world, Normal tt).
Proof.
  assert (App.is_open (ws offline_world) = false) as H by reflexivity.
  split; [exact H |].
  exact (proj1 (send_while_down_is_discarded _ _ H)).
Defined.

(** *** Writes to the page *)

Lemma lookup_update_node (r r' : NodeRef) (f : Element -> Element) (p : Page) :
  lookup_node r (update_node r' f p)
  = if decide (r' = r) then f <$> lookup_node r p else lookup_node r p.
Proof.
  unfold lookup_node, update_node. simpl. rewrite lookup_alter.
  destruct (decide (r' = r)) as [-> |]; reflexivity.
Qed.

Lemma lookup_update_node_is_Some (r r' : NodeRef) (f : Element -> Element) (p : Page) :
  is_Some (lookup_node r (update_node r' f p)) <-> is_Some (lookup_node r p).
Proof.
  rewrite lookup_update_node. destruct (decide (r' = r)); [| reflexivity].
  rewrite fmap_is_Some. reflexivity.
Qed.

(** C1 (as stated, refuted).  A viewer on the main view with an open socket
    receives [{type: "toggle_view"}]: it switches to the setup view and
    writes the command [{cmd: "get_status"}] to the socket. *)
Lemma toggle_view_sends_get_status :
  msg_type toggle_view_msg = Some "toggle_view"
  /\ frames_sent sample_world = []
  /\ frames_sent (world_after (App.dispatch no_listeners toggle_view_msg) sample_world)
     = [CmdGetStatus].
Proof. repeat split; vm_compute; reflexivity. Qed.

(** The views and the socket after [showMain]. *)
Lemma showMain_effect (w0 : World) :
  hoare (fun w => w = w0) App.showMain
        (fun _ w => currentView w = ViewMain /\ ws w = ws w0)
        (fun w => currentView w = ViewMain /\ ws w = ws w0).
Proof.
  unfold App.showMain.
  set (J := fun w : World => currentView w = ViewMain /\ ws w = ws w0).
  assert (forall r f, stable_under_write J r f) as Hst.
  { intros r f w Hw. exact Hw. }
  eapply hoare_bind with (R := fun _ => J).
  { apply hoare_modify. intros w ->. split; reflexivity. }
  intros ?. apply hoare_getEl_bind. intros m _.
  eapply hoare_bind; [apply hoare_deref; auto |]. intros m'.
  eapply hoare_bind; [apply hoare_write, Hst |]. intros ?.
  apply hoare_getEl_bind. intros s _.
  eapply hoare_bind; [apply hoare_deref; auto |]. intros s'.
  apply hoare_write, Hst.
Qed.

Lemma send_effect (obj : Command) (w : World) :
  exists w', App.send obj w = (w', Normal tt)
             /\ currentView w' = currentView w
             /\ page w' = page w
             /\ sent_at_most obj (ws w) (ws w')
             /\ (forall sock, ws w = Some sock -> readyState sock = OPEN ->
                   ws w' = Some (mkWebSocket OPEN (sent sock ++ [obj]))).
Proof.
  destruct (App.is_open (ws w)) eqn:Ho.
  - unfold App.is_open in Ho. destruct (ws w) as [sock |] eqn:E; [| discriminate].
    destruct (readyState sock) eqn:Er; try discriminate.
    rewrite (send_open obj w sock E Er). eexists. split; [reflexivity |].
    simpl. repeat split.
    + right. exists sock. auto.
    + intros sock' Hs _. injection Hs as <-. reflexivity.
  - rewrite (send_closed obj w Ho). exists w. repeat split.
    + left. reflexivity.
    + intros sock Hs Hr. unfold App.is_open in Ho. rewrite Hs, Hr in Ho. discriminate.
Qed.

Lemma showSetup_effect (w0 : World) :
  hoare (fun w => w = w0) App.showSetup
        (fun _ w => currentView w = ViewSetup /\ sent_at_most CmdGetStatus (ws w0) (ws w))
        (fun w => currentView w = ViewSetup /\ ws w = ws w0).
Proof.
  unfold App.showSetup.
  set (J := fun w : World => currentView w = ViewSetup /\ ws w = ws w0).
  assert (forall r f, stable_under_write J r f) as Hst.
  { intros r f w Hw. exact Hw. }
  eapply hoare_bind with (R := fun _ => J).
  { apply hoare_modify. intros w ->. split; reflexivity. }
  intros ?. apply hoare_getEl_bind. intros s _.
  eapply hoare_bind; [apply hoare_deref; auto |]. intros s'.
  eapply hoare_bind; [apply hoare_write, Hst |]. intros ?.
  apply hoare_getEl_bind. intros m _.
  eapply hoare_bind; [apply hoare_deref; auto |]. intros m'.
  eapply hoare_bind; [apply hoare_write, Hst |]. intros ?.
  intros w [Hv Hw].
  destruct (send_effect CmdGetStatus w) as (w' & -> & Hv' & _ & Hs & _).
  rewrite Hv', Hv, <- Hw. auto.
Qed.

(** With both views on the page, [showSetup] reaches its [send]. *)
Lemma showSetup_sends (w0 : World) (sock : WebSocket) :
  is_Some (lookup_node (by_id "view-setup") (page w0)) ->
  is_Some (lookup_node (by_id "view-main") (page w0)) ->
  ws w0 = Some sock -> readyState sock = OPEN ->
  hoare (fun w => w = w0) App.showSetup
        (fun _ w => ws w = Some (mkWebSocket OPEN (sent sock ++ [CmdGetStatus])))
        (fun _ => False).
Proof.
  intros Hs Hm Hws Hopen. unfold App.showSetup.
  set (J := fun w : World =>
              ws w = ws w0
              /\ is_Some (lookup_node (by_id "view-setup") (page w))
              /\ is_Some (lookup_node (by_id "view-main") (page w))).
  assert (forall r f, stable_under_write J r f) as Hst.
  { intros r f w (Hw & H1 & H2). unfold J. simpl.
    rewrite !lookup_update_node_is_Some. auto. }
  eapply hoare_bind with (R := fun _ => J).
  { apply hoare_modify. intros w ->. unfold J. simpl. auto. }
  intros ?. apply hoare_getEl_bind_found; [intros w Hw; apply Hw |].
  eapply hoare_bind; [apply hoare_deref; discriminate |]. intros s'.
  eapply hoare_bind; [apply hoare_write, Hst |]. intros ?.
  apply hoare_getEl_bind_found; [intros w Hw; apply Hw |].
  eapply hoare_bind; [apply hoare_deref; discriminate |]. intros m'.
  eapply hoare_bind; [apply hoare_write, Hst |]. intros ?.
  intros w (Hw & _).
  destruct (send_effect CmdGetStatus w) as (w' & -> & _ & _ & _ & Hsent).
  apply Hsent; [rewrite Hw; exact Hws | exact Hopen].
Qed.

(** *** What a view switch leaves alone *)

Lemma same_but_active_refl (e : Element) : same_but_active e e.
Proof. repeat split; auto. Qed.

Lemma same_but_active_trans (e1 e2 e3 : Element) :
  same_but_active e1 e2 -> same_but_active e2 e3 -> same_but_active e1 e3.
Proof.
  intros (C1 & S1 & T1) (C2 & S2 & T2). split; [congruence | split; [congruence |]].
  intros tok Hne. rewrite (T2 tok Hne). apply T1, Hne.
Qed.

Lemma same_but_active_add (e : Element) :
  same_but_active e (classList_add "active" e).
Proof.
  unfold classList_add. destruct (has_class "active" e);
    [apply same_but_active_refl |].
  split; [reflexivity | split; [reflexivity |]]. intros tok Hne. simpl.
  rewrite elem_of_app, list_elem_of_singleton. tauto.
Qed.

Lemma same_but_active_remove (e : Element) :
  same_but_active e (classList_remove "active" e).
Proof.
  split; [reflexivity | split; [reflexivity |]]. intros tok Hne.
  unfold classList_remove. simpl. rewrite list_elem_of_filter. tauto.
Qed.

Lemma only_views_switched_refl (w : World) : only_views_switched w w.
Proof.
  unfold only_views_switched. repeat split; try reflexivity.
  intros r _. destruct (lookup_node r (page w)); [apply same_but_active_refl | exact I].
Qed.

Lemma only_views_switched_view (w0 w : World) (v : View) :
  only_views_switched w0 w -> only_views_switched w0 (set_currentView v w).
Proof. intros H. exact H. Qed.

Lemma only_views_switched_ws (w0 w : World) (s : option WebSocket) :
  only_views_switched w0 w -> only_views_switched w0 (set_ws s w).
Proof. intros H. exact H. Qed.

Lemma only_views_switched_write (w0 : World) (r : NodeRef) (f : Element -> Element) :
  is_view r -> (forall e, same_but_active e (f e)) ->
  stable_under_write (only_views_switched w0) r f.
Proof.
  intros Hr Hf w (H1 & H2 & H3 & H4 & H5 & H6 & H7 & H8 & H9 & H10 & H11 & Hother & Hview).
  unfold only_views_switched. cbn [set_page page clock listeners ctx chartW chartH
    sensorData selectedSSID kbdText kbdMode update_node sel_tile_value sel_signal_bars].
  repeat (split; [assumption |]). split.
  - intros r0 Hr0. rewrite lookup_update_node.
    destruct (decide (r = r0)) as [-> | _]; [contradiction | apply Hother, Hr0].
  - intros r0 Hr0. specialize (Hview r0 Hr0). rewrite lookup_update_node.
    destruct (decide (r = r0)) as [-> | _]; [| exact Hview].
    destruct (lookup_node r0 (page w0)) as [e0 |], (lookup_node r0 (page w)) as [e |];
      simpl; try exact Hview.
    apply (same_but_active_trans e0 e (f e)); [exact Hview | apply Hf].
Qed.

Lemma showMain_frame (w0 : World) :
  hoare (only_views_switched w0) App.showMain
        (fun _ => only_views_switched w0) (only_views_switched w0).
Proof.
  unfold App.showMain.
  eapply hoare_bind with (R := fun _ => only_views_switched w0).
  { apply hoare_modify. intros w Hw. apply only_views_switched_view, Hw. }
  intros ?. apply hoare_getEl_bind. intros m [-> | ->];
    [apply hoare_deref_none_bind; auto | apply hoare_deref_some_bind].
  eapply hoare_bind.
  { apply hoare_write, only_views_switched_write;
      [left; reflexivity | apply same_but_active_add]. }
  intros ?. apply hoare_getEl_bind. intros s [-> | ->];
    [apply hoare_deref_none_bind; auto | apply hoare_deref_some_bind].
  apply hoare_write, only_views_switched_write;
    [right; reflexivity | apply same_but_active_remove].
Qed.

Lemma showSetup_frame (w0 : World) :
  hoare (only_views_switched w0) App.showSetup
        (fun _ => only_views_switched w0) (only_views_switched w0).
Proof.
  unfold App.showSetup.
  eapply hoare_bind with (R := fun _ => only_views_switched w0).
  { apply hoare_modify. intros w Hw. apply only_views_switched_view, Hw. }
  intros ?. apply hoare_getEl_bind. intros s [-> | ->];
    [apply hoare_deref_none_bind; auto | apply hoare_deref_some_bind].
  eapply hoare_bind.
  { apply hoare_write, only_views_switched_write;
      [right; reflexivity | apply same_but_active_add]. }
  intros ?. apply hoare_getEl_bind. intros m [-> | ->];
    [apply hoare_deref_none_bind; auto | apply hoare_deref_some_bind].
  eapply hoare_bind.
  { apply hoare_write, only_views_switched_write;
      [left; reflexivity | apply same_but_active_remove]. }
  intros ? w Hw. destruct (send_run CmdGetStatus w) as (s & -> & _).
  apply only_views_switched_ws, Hw.
Qed.

(** C1 (amended).  Handling [{type: "toggle_view"}] runs no listener and
    only switches the view: apart from [currentView], the socket and the
    class [active] of the elements [view-main] and [view-setup], the
    world is left as it was (clock, listeners, canvas, sensor data,
    keyboard state, every other element of the page, and the children,
    style and other classes of the two views).  From the setup view it
    switches to the main view and leaves the socket untouched.  From the
    main view it switches to the setup view and writes at most one frame,
    the command [{cmd: "get_status"}]; it writes that frame whenever the
    socket is open and the page holds both views. *)
Theorem dispatch_toggle_view (call : Listener -> Msg -> M unit) (msg : Msg) (w : World) :
  msg_type msg = Some "toggle_view" ->
  let w' := world_after (App.dispatch call msg) w in
  (forall call', App.dispatch call' msg w = App.dispatch call msg w)
  /\ only_views_switched w w'
  /\ match currentView w with
     | ViewSetup => currentView w' = ViewMain /\ ws w' = ws w
     | ViewMain =>
         currentView w' = ViewSetup
         /\ sent_at_most CmdGetStatus (ws w) (ws w')
         /\ (is_Some (lookup_node (by_id "view-setup") (page w)) ->
             is_Some (lookup_node (by_id "view-main") (page w)) ->
             forall sock, ws w = Some sock -> readyState sock = OPEN ->
               ws w' = Some (mkWebSocket OPEN (sent sock ++ [CmdGetStatus])))
     end.
Proof.
  intros Ht w'.
  assert (forall c, App.dispatch c msg w
                    = match currentView w with
                      | ViewMain => App.showSetup w
                      | ViewSetup => App.showMain w
                      end) as Hd.
  { intros c. unfold App.dispatch. rewrite Ht.
    rewrite bool_decide_eq_true_2 by reflexivity.
    unfold bind, gets. destruct (currentView w); reflexivity. }
  split; [intros c; rewrite !Hd; reflexivity |].
  subst w'. unfold world_after. rewrite Hd.
  destruct (currentView w) eqn:Ev.
  - pose proof (showSetup_effect w w eq_refl) as H1.
    pose proof (showSetup_frame w w (only_views_switched_refl w)) as Hf.
    split; [| split; [| split]].
    + destruct (App.showSetup w) as [w1 [[] | e]]; simpl; exact Hf.
    + destruct (App.showSetup w) as [w1 [[] | e]]; simpl; apply H1.
    + destruct (App.showSetup w) as [w1 [[] | e]]; simpl;
        [apply H1 | left; apply H1].
    + intros Hs Hm sock Hws Hopen.
      pose proof (showSetup_sends w sock Hs Hm Hws Hopen w eq_refl) as H2.
      destruct (App.showSetup w) as [w1 [[] | e]]; simpl; [exact H2 | destruct H2].
  - pose proof (showMain_effect w w eq_refl) as H1.
    pose proof (showMain_frame w w (only_views_switched_refl w)) as Hf.
    destruct (App.showMain w) as [w1 [[] | e]]; simpl; (split; [exact Hf | exact H1]).
Qed.

Lemma dispatch_toggle_view_witness :
  let w' := world_after (App.dispatch no_listeners toggle_view_msg) sample_world in
  msg_type toggle_view_msg = Some "toggle_view"
  /\ currentView w' = ViewSetup
  /\ only_views_switched sample_world w'
  /\ lookup_node (by_id "clock") (page w') = lookup_node (by_id "clock") (page sample_world)
  /\ lookup_node (by_id "view-setup") (page w') = Some (plain ["view"; "active"])
  /\ lookup_node (by_id "view-main") (page w') = Some (plain ["view"]).
Proof.
  intros w'.
  assert (msg_type toggle_view_msg = Some "toggle_view") as H by reflexivity.
  split; [exact H |].
  destruct (dispatch_toggle_view no_listeners toggle_view_msg sample_world H)
    as (_ & Hframe & Hview & _).
  split; [exact Hview | split; [exact Hframe |]].
  repeat split; vm_compute; reflexivity.
Defined.

End AppProperties.

(** ** setup.js: HTML escaping *)

Section Escaping.

Local Arguments String.append !_ _ / : simpl nomatch.

Lemma str_app_assoc (a b c : string) : (a +:+ b) +:+ c = a +:+ (b +:+ c).
Proof. induction a as [| x a IH]; simpl; [reflexivity | f_equal; exact IH]. Qed.

Lemma replace_all_app (c : ascii) (r a b : string) :
  replace_all c r (a +:+ b) = replace_all c r a +:+ replace_all c r b.
Proof.
  induction a as [| x a IH]; simpl; [reflexivity |].
  rewrite IH. destruct (Ascii.eqb x c).
  - symmetry. apply str_app_assoc.
  - reflexivity.
Qed.

Lemma escHtml_app (a b : string) :
  Setup.escHtml (a +:+ b) = Setup.escHtml a +:+ Setup.escHtml b.
Proof. unfold Setup.escHtml. rewrite !replace_all_app. reflexivity. Qed.

Lemma escHtml_single (c : ascii) :
  Setup.escHtml (String c EmptyString) = esc_char c.
Proof.
  unfold Setup.escHtml, esc_char. simpl.
  destruct (Ascii.eqb_spec c "&") as [-> | Hamp]; [reflexivity |]. simpl.
  destruct (Ascii.eqb_spec c "<") as [-> | Hlt]; [reflexivity |]. simpl.
  destruct (Ascii.eqb_spec c ">") as [-> | Hgt]; [reflexivity |]. simpl.
  destruct (Ascii.eqb_spec c Setup.dquote) as [-> | Hdq]; reflexivity.
Qed.

(** [escHtml] works character by character. *)
Lemma escHtml_cons (c : ascii) (s : string) :
  Setup.escHtml (String c s) = esc_char c +:+ Setup.escHtml s.
Proof.
  change (String c s) with (String c EmptyString +:+ s).
  rewrite escHtml_app, escHtml_single. reflexivity.
Qed.

Lemma list_ascii_app (a b : string) :
  list_ascii_of_string (a +:+ b) = (list_ascii_of_string a ++ list_ascii_of_string b)%list.
Proof. induction a as [| x a IH]; simpl; [reflexivity | f_equal; exact IH]. Qed.

Lemma esc_char_no_markup (a c : ascii) :
  markup_char c -> ~ In c (list_ascii_of_string (esc_char a)).
Proof.
  intros Hc. unfold esc_char.
  destruct (Ascii.eqb_spec a "&"); [| destruct (Ascii.eqb_spec a "<");
    [| destruct (Ascii.eqb_spec a ">"); [| destruct (Ascii.eqb_spec a Setup.dquote)]]];
    simpl; unfold markup_char, Setup.dquote in *; intros Hin;
    repeat (destruct Hin as [Hin | Hin]; [subst; intuition discriminate |]);
    try (destruct Hin).
  all: subst; intuition congruence.
Qed.

Lemma escHtml_no_markup (s : string) (c : ascii) :
  markup_char c -> ~ In c (list_ascii_of_string (Setup.escHtml s)).
Proof.
  intros Hc. induction s as [| a s IH].
  - simpl. auto.
  - rewrite escHtml_cons, list_ascii_app, in_app_iff.
    intros [H | H]; [exact (esc_char_no_markup a c Hc H) | exact (IH H)].
Qed.

Lemma prefix_app (e r : string) : String.prefix e (e +:+ r) = true.
Proof.
  induction e as [| x e IH]; simpl.
  - destruct r; reflexivity.
  - destruct (ascii_dec x x); [exact IH | congruence].
Qed.

Lemma escHtml_ampersands (s : string) (i : nat) :
  String.get i (Setup.escHtml s) = Some "&"%char -> entity_at i (Setup.escHtml s).
Proof.
  revert i. induction s as [| a s IH]; intros i.
  - simpl. destruct i; discriminate.
  - rewrite escHtml_cons. unfold esc_char.
    destruct (Ascii.eqb_spec a "&") as [-> | Hamp].
    { do 5 (destruct i as [| i];
            [simpl; intros H;
             first [ discriminate H
                   | exists "&amp;"; split; [simpl; auto | apply (prefix_app "&amp;")] ] |]).
      simpl. apply IH. }
    destruct (Ascii.eqb_spec a "<") as [-> | Hlt].
    { do 4 (destruct i as [| i];
            [simpl; intros H;
             first [ discriminate H
                   | exists "&lt;"; split; [simpl; auto | apply (prefix_app "&lt;")] ] |]).
      simpl. apply IH. }
    destruct (Ascii.eqb_spec a ">") as [-> | Hgt].
    { do 4 (destruct i as [| i];
            [simpl; intros H;
             first [ discriminate H
                   | exists "&gt;"; split; [simpl; auto | apply (prefix_app "&gt;")] ] |]).
      simpl. apply IH. }
    destruct (Ascii.eqb_spec a Setup.dquote) as [-> | Hdq].
    { do 6 (destruct i as [| i];
            [simpl; intros H;
             first [ discriminate H
                   | exists "&quot;"; split; [simpl; auto | apply (prefix_app "&quot;")] ] |]).
      simpl. apply IH. }
    destruct i as [| i]; simpl.
    + intros H. congruence.
    + apply IH.
Qed.

(** C10.  For every string [s], [escHtml s] contains none of the characters
    [<], [>] and the double quote; every [&] in it starts one of the
    entities [&amp;], [&lt;], [&gt;], [&quot;]; and a single quote is copied
    as it is. *)
Theorem escHtml_escapes (s : string) :
  (forall c : ascii,
     c = "<"%char \/ c = ">"%char \/ c = Setup.dquote ->
     ~ In c (list_ascii_of_string (Setup.escHtml s)))
  /\ (forall i : nat,
        String.get i (Setup.escHtml s) = Some "&"%char ->
        exists ent, In ent [ "&amp;"; "&lt;"; "&gt;"; "&quot;" ]
                    /\ String.prefix ent (drop_str i (Setup.escHtml s)) = true)
  /\ (forall a b : string,
        s = a +:+ String "'" b ->
        Setup.escHtml s = Setup.escHtml a +:+ String "'" (Setup.escHtml b)).
Proof.
  split; [| split].
  - intros c Hc. apply escHtml_no_markup. exact Hc.
  - intros i Hi. apply (escHtml_ampersands s i Hi).
  - intros a b ->. rewrite escHtml_app, escHtml_cons. reflexivity.
Qed.

End Escaping.

(** ** setup.js: the on-screen keyboard *)

Section Keyboard.

Local Arguments String.append !_ _ / : simpl nomatch.
Local Arguments Setup.updateKbdDisplay : simpl never.
Local Arguments Setup.buildKeyboard : simpl never.
Local Arguments Setup.setWifiStatus : simpl never.
Local Arguments App.send : simpl never.
Local Arguments Setup.join : simpl never.
Local Arguments Setup.LAYOUTS : simpl never.
Local Arguments Setup.row_html : simpl never.

Lemma length_app_str (a b : string) :
  String.length (a +:+ b) = (String.length a + String.length b)%nat.
Proof. induction a as [| x a IH]; simpl; [reflexivity | rewrite IH; reflexivity]. Qed.

Lemma length_slice_drop_last_cons (s : string) (x : ascii) :
  String.length (slice_drop_last (String x s)) = String.length s.
Proof.
  revert x. induction s as [| y s IH]; intros x; [reflexivity |].
  change (slice_drop_last (String x (String y s)))
    with (String x (slice_drop_last (String y s))).
  change (String.length (String x (slice_drop_last (String y s))))
    with (S (String.length (slice_drop_last (String y s)))).
  rewrite IH. reflexivity.
Qed.

Lemma length_slice_drop_last (s : string) :
  String.length (slice_drop_last s) = Nat.pred (String.length s).
Proof.
  destruct s as [| x s]; [reflexivity |]. apply length_slice_drop_last_cons.
Qed.

Lemma updateKbdDisplay_run (w : World) :
  Setup.updateKbdDisplay w
  = (set_page (match getElementById "kbd-input-display" (page w) with
               | Some r => update_node r (set_textContent (stars (String.length (kbdText w)))) (page w)
               | None => page w
               end) w, Normal tt).
Proof.
  unfold Setup.updateKbdDisplay, bind, getEl, gets, when_present, write, modify, stars.
  destruct (getElementById "kbd-input-display" (page w)); [reflexivity |].
  destruct w; reflexivity.
Qed.

Lemma buildKeyboard_run (w : World) :
  Setup.buildKeyboard w
  = match getElementById "keyboard" (page w) with
    | Some r =>
        (set_page (update_node r
                     (set_innerHTML (Setup.join (map Setup.row_html (Setup.LAYOUTS (kbdMode w)))))
                     (page w)) w, Normal tt)
    | None => (w, Throw (TypeError "keyboard"))
    end.
Proof.
  unfold Setup.buildKeyboard, bind, getEl, gets, deref, write, modify.
  destruct (getElementById "keyboard" (page w)); reflexivity.
Qed.

Lemma setWifiStatus_run (msg cls : string) (w : World) :
  Setup.setWifiStatus msg cls w
  = (set_page (match getElementById "wifi-status" (page w) with
               | Some r => update_node r (set_className ("status-msg " +:+ cls))
                             (update_node r (set_textContent msg) (page w))
               | None => page w
               end) w, Normal tt).
Proof.
  unfold Setup.setWifiStatus, bind, getEl, gets, write, modify.
  destruct (getElementById "wifi-status" (page w)); [reflexivity |].
  destruct w; reflexivity.
Qed.

(** One key press: two runs that agree on [screen_view] complete alike and
    agree on it afterwards. *)
Lemma kbdPress_view (key : string) (w1 w2 : World) :
  screen_view w1 = screen_view w2 ->
  screen_view (world_after (Setup.kbdPress key) w1)
  = screen_view (world_after (Setup.kbdPress key) w2)
  /\ completion_of (Setup.kbdPress key) w1 = completion_of (Setup.kbdPress key) w2.
Proof.
  unfold screen_view. intros Hv.
  injection Hv as Hp Hm Hs Ho Hl.
  unfold world_after, completion_of, Setup.kbdPress.
  destruct (String.eqb key "DEL").
  { unfold bind, gets, modify. rewrite !updateKbdDisplay_run. simpl.
    rewrite !length_slice_drop_last, Hp, Hm, Hs, Ho, Hl. auto. }
  destruct (String.eqb key "SPACE").
  { unfold bind, gets, modify. rewrite !updateKbdDisplay_run. simpl.
    rewrite !length_app_str, Hp, Hm, Hs, Ho, Hl. auto. }
  destruct (String.eqb key "SHF").
  { unfold bind, modify. rewrite !buildKeyboard_run. simpl. rewrite Hp.
    destruct (getElementById "keyboard" (page w2)); simpl; rewrite ?Hp, ?Hs, ?Ho, ?Hl; auto. }
  destruct (String.eqb key "shf").
  { unfold bind, modify. rewrite !buildKeyboard_run. simpl. rewrite Hp.
    destruct (getElementById "keyboard" (page w2)); simpl; rewrite ?Hp, ?Hs, ?Ho, ?Hl; auto. }
  destruct (String.eqb key "123").
  { unfold bind, modify. rewrite !buildKeyboard_run. simpl. rewrite Hp.
    destruct (getElementById "keyboard" (page w2)); simpl; rewrite ?Hp, ?Hs, ?Ho, ?Hl; auto. }
  destruct (String.eqb key "ABC").
  { unfold bind, modify. rewrite !buildKeyboard_run. simpl. rewrite Hp.
    destruct (getElementById "keyboard" (page w2)); simpl; rewrite ?Hp, ?Hs, ?Ho, ?Hl; auto. }
  destruct (String.eqb key "OK").
  { unfold bind, getEl, gets, deref, write, modify, ret, throw. rewrite Hp.
    destruct (getElementById "keyboard-overlay" (page w2)) as [ov |];
      [| simpl; rewrite Hp, Hm, Hs, Ho, Hl; auto].
    match goal with
    | |- context [App.send ?c ?w] =>
        destruct (send_run c w) as (s1 & -> & Hs1)
    end.
    match goal with
    | |- context [App.send ?c ?w] =>
        destruct (send_run c w) as (s2 & -> & Hs2)
    end.
    rewrite !setWifiStatus_run. simpl in *.
    rewrite Hs1, Hs2, Hp, Hm, Hs, Ho, Hl. auto. }
  unfold bind, gets, modify. simpl. rewrite Hm.
  destruct (kbdMode w2) eqn:Em; unfold ret, bind, modify; simpl.
  - rewrite !updateKbdDisplay_run. simpl.
    rewrite !length_app_str, Hp, Hs, Ho, Hl, Hm, Em. auto.
  - rewrite !buildKeyboard_run. simpl. rewrite Hp.
    destruct (getElementById "keyboard" (page w2)); simpl;
      [| rewrite !length_app_str, ?Hp, ?Hs, ?Ho, ?Hl; auto].
    rewrite !updateKbdDisplay_run. simpl.
    rewrite !length_app_str, Hs, Ho, Hl. auto.
  - rewrite !updateKbdDisplay_run. simpl.
    rewrite !length_app_str, Hp, Hs, Ho, Hl, Hm, Em. auto.
Qed.

(** A key that is none of the named ones takes the last branch. *)
Lemma kbdPress_typed (key : string) :
  is_named key = false ->
  Setup.kbdPress key
  = (txt <- gets kbdText ;;
     modify (set_kbdText (txt +:+ key)) ;;;
     mode <- gets kbdMode ;;
     (match mode with
      | KbdUpper => modify (set_kbdMode KbdLower) ;;; Setup.buildKeyboard
      | _ => ret tt
      end) ;;;
     Setup.updateKbdDisplay).
Proof.
  unfold is_named, named_keys, existsb. intros H.
  repeat (apply orb_false_elim in H; destruct H as [? H]).
  unfold Setup.kbdPress.
  repeat match goal with E : String.eqb key _ = false |- _ => rewrite E; clear E end.
  reflexivity.
Qed.

(** One key press in each of two runs, the two keys alike up to the
    characters typed: runs that agree on [screen_view] complete alike and
    agree on it afterwards. *)
Lemma kbdPress_view_typed (k1 k2 : string) (w1 w2 : World) :
  same_press k1 k2 ->
  screen_view w1 = screen_view w2 ->
  screen_view (world_after (Setup.kbdPress k1) w1)
  = screen_view (world_after (Setup.kbdPress k2) w2)
  /\ completion_of (Setup.kbdPress k1) w1 = completion_of (Setup.kbdPress k2) w2.
Proof.
  unfold same_press. destruct (is_named k1) eqn:E1.
  { intros <-. apply kbdPress_view. }
  intros [E2 Hlen] Hv.
  unfold screen_view in *. injection Hv as Hp Hm Hs Ho Hl.
  unfold world_after, completion_of.
  rewrite (kbdPress_typed k1 E1), (kbdPress_typed k2 E2).
  unfold bind, gets, modify. simpl. rewrite Hm.
  destruct (kbdMode w2) eqn:Em; unfold ret, bind, modify; simpl.
  - rewrite !updateKbdDisplay_run. simpl.
    rewrite !length_app_str, Hp, Hs, Ho, Hl, Hm, Em, Hlen. auto.
  - rewrite !buildKeyboard_run. simpl. rewrite Hp.
    destruct (getElementById "keyboard" (page w2)); simpl;
      [| rewrite !length_app_str, ?Hp, ?Hs, ?Ho, ?Hl, ?Hlen; auto].
    rewrite !updateKbdDisplay_run. simpl.
    rewrite !length_app_str, Hs, Ho, Hl, Hlen. auto.
  - rewrite !updateKbdDisplay_run. simpl.
    rewrite !length_app_str, Hp, Hs, Ho, Hl, Hm, Em, Hlen. auto.
Qed.

Lemma after_keys_view (keys1 keys2 : list string) (w1 w2 : World) :
  Forall2 same_press keys1 keys2 ->
  screen_view w1 = screen_view w2 ->
  screen_view (after_keys keys1 w1) = screen_view (after_keys keys2 w2).
Proof.
  intros Hk. revert w1 w2.
  induction Hk as [| k1 k2 keys1 keys2 Hpress _ IH]; intros w1 w2 Hv; simpl.
  - exact Hv.
  - apply IH. apply kbdPress_view_typed; assumption.
Qed.

(** C9.  The keyboard's input display depends only on the length of the
    typed password.  For two passwords of equal length, [updateKbdDisplay]
    leaves the same page, and the display element then shows a row of
    asterisks of that length.  Typing does not show the characters either:
    two runs of key presses that differ only in WHICH characters are typed
    (the same named keys at the same places, typed keys of the same length
    elsewhere), started from texts of equal length, leave the same page
    after every press; so a [kbdPress] that put a typed character on the
    page would fail this. *)
Theorem kbd_display_shows_length_only (w : World) (t1 t2 : string) :
  String.length t1 = String.length t2 ->
  page (world_after Setup.updateKbdDisplay (set_kbdText t1 w))
  = page (world_after Setup.updateKbdDisplay (set_kbdText t2 w))
  /\ (forall e : Element,
        lookup_node (by_id "kbd-input-display") (page w) = Some e ->
        lookup_node (by_id "kbd-input-display")
                    (page (world_after Setup.updateKbdDisplay (set_kbdText t1 w)))
        = Some (set_textContent (repeat_char "*" (String.length t1)) e))
  /\ (forall keys1 keys2 : list string,
        Forall2 same_press keys1 keys2 ->
        page (after_keys keys1 (set_kbdText t1 w))
        = page (after_keys keys2 (set_kbdText t2 w))).
Proof.
  intros Hlen. split; [| split].
  - unfold world_after. rewrite !updateKbdDisplay_run. simpl. rewrite Hlen. reflexivity.
  - intros e He. unfold world_after. rewrite updateKbdDisplay_run. simpl.
    unfold getElementById. unfold lookup_node in He. rewrite He.
    rewrite lookup_update_node. unfold lookup_node.
    destruct (decide (by_id "kbd-input-display" = by_id "kbd-input-display")) as [_ | Hne];
      [| congruence].
    rewrite He. reflexivity.
  - intros keys1 keys2 Hkeys.
    assert (screen_view (set_kbdText t1 w) = screen_view (set_kbdText t2 w)) as Hv.
    { unfold screen_view. simpl. rewrite Hlen. reflexivity. }
    pose proof (after_keys_view keys1 keys2 _ _ Hkeys Hv) as Hk.
    unfold screen_view in Hk. congruence.
Qed.

End Keyboard.

Lemma kbd_display_shows_length_only_witness :
  String.length "hunter" = String.length "sesame"
  /\ page (world_after Setup.updateKbdDisplay (set_kbdText "hunter" setup_world))
     = page (world_after Setup.updateKbdDisplay (set_kbdText "sesame" setup_world))
  /\ page (after_keys ["2"; "DEL"; "SHF"; "A"; "b"] (set_kbdText "hunter" setup_world))
     = page (after_keys ["7"; "DEL"; "SHF"; "Z"; "y"] (set_kbdText "sesame" setup_world)).
Proof.
  assert (String.length "hunter" = String.length "sesame") as H by reflexivity.
  destruct (kbd_display_shows_length_only setup_world "hunter" "sesame" H)
    as (Hpage & _ & Hkeys).
  split; [exact H | split; [exact Hpage |]].
  apply Hkeys.
  repeat (constructor; [vm_compute; auto |]). constructor.
Defined.

(** ** dashboard.js: the tiles *)

Create HintDb dom discriminated.

Section ElementUpdates.

Lemma keeps_hidden_textContent s : keeps_hidden (set_textContent s).
Proof. intros e. reflexivity. Qed.

Lemma keeps_hidden_innerHTML s : keeps_hidden (set_innerHTML s).
Proof. intros e. reflexivity. Qed.

Lemma keeps_hidden_span v : keeps_hidden (appendChild_span v).
Proof. intros e. reflexivity. Qed.

Lemma keeps_hidden_style p v : keeps_hidden (set_style p v).
Proof. intros e. reflexivity. Qed.

Lemma classList_add_spec (tok t : string) (e : Element) :
  t ∈ classes (classList_add tok e) <-> t ∈ classes e \/ t = tok.
Proof.
  unfold classList_add, has_class. case_bool_decide as Hin; simpl.
  - split; [auto | intros [H | ->]; assumption].
  - rewrite elem_of_app, list_elem_of_singleton. reflexivity.
Qed.

Lemma classList_remove_spec (tok t : string) (e : Element) :
  t ∈ classes (classList_remove tok e) <-> t ∈ classes e /\ t <> tok.
Proof.
  unfold classList_remove. simpl. rewrite list_elem_of_filter. tauto.
Qed.

Lemma keeps_hidden_toggle_on b : keeps_hidden (classList_toggle "on" b).
Proof.
  intros e. destruct b; unfold classList_toggle.
  - rewrite classList_add_spec. split; [intros [H | H]; [exact H | discriminate] | auto].
  - rewrite classList_remove_spec. split; [tauto | intros H; split; [exact H | discriminate]].
Qed.

Lemma keeps_children_style p v : keeps_children (set_style p v).
Proof. intros e. reflexivity. Qed.

Lemma keeps_children_className s : keeps_children (set_className s).
Proof. intros e. reflexivity. Qed.

Lemma keeps_children_toggle tok b : keeps_children (classList_toggle tok b).
Proof.
  intros e. destruct b; unfold classList_toggle; [| reflexivity].
  unfold classList_add. destruct (has_class tok e); reflexivity.
Qed.

(** *** Which writes keep which facts *)

Lemma stable_present r0 r f : stable_under_write (present r0) r f.
Proof.
  intros w H. unfold present in *. simpl.
  rewrite lookup_update_node_is_Some. exact H.
Qed.

Lemma stable_page_ready r f : stable_under_write page_ready r f.
Proof.
  intros w [H1 H2]. unfold page_ready in *. simpl. split; [| exact H2].
  rewrite lookup_update_node_is_Some. exact H1.
Qed.

Lemma stable_hidden_keeps r0 b r f :
  keeps_hidden f -> stable_under_write (hidden_is r0 b) r f.
Proof.
  intros Hk w (e & He & Hb). unfold hidden_is. simpl.
  rewrite lookup_update_node. destruct (decide (r = r0)) as [-> |].
  - rewrite He. exists (f e). split; [reflexivity |]. rewrite (Hk e). exact Hb.
  - exists e. auto.
Qed.

Lemma stable_hidden_other r0 b r f :
  r <> r0 -> stable_under_write (hidden_is r0 b) r f.
Proof.
  intros Hne w (e & He & Hb). unfold hidden_is. simpl.
  rewrite lookup_update_node. destruct (decide (r = r0)); [congruence |].
  exists e. auto.
Qed.

Lemma stable_children_keeps r0 cs r f :
  keeps_children f -> stable_under_write (children_are r0 cs) r f.
Proof.
  intros Hk w (e & He & Hc). unfold children_are. simpl.
  rewrite lookup_update_node. destruct (decide (r = r0)) as [-> |].
  - rewrite He. exists (f e). split; [reflexivity |]. rewrite (Hk e). exact Hc.
  - exists e. auto.
Qed.

Lemma stable_children_other r0 cs r f :
  r <> r0 -> stable_under_write (children_are r0 cs) r f.
Proof.
  intros Hne w (e & He & Hc). unfold children_are. simpl.
  rewrite lookup_update_node. destruct (decide (r = r0)); [congruence |].
  exists e. auto.
Qed.

Lemma stable_and (I1 I2 : World -> Prop) r f :
  stable_under_write I1 r f -> stable_under_write I2 r f ->
  stable_under_write (fun w => I1 w /\ I2 w) r f.
Proof. intros H1 H2 w [Ha Hb]. split; [apply H1, Ha | apply H2, Hb]. Qed.

Lemma from_id_some (id : string) (n : NodeRef) :
  from_id id (Some n) -> n = by_id id.
Proof. intros [H | H]; [discriminate | injection H as ->; reflexivity]. Qed.

Lemma by_id_neq (a b : string) : a <> b -> by_id a <> by_id b.
Proof. unfold by_id. congruence. Qed.

(** The element written after [getElementById id] is the one with that id. *)
Lemma stable_from_id (I : World -> Prop) id r f :
  from_id id r -> stable_under_write I (by_id id) f ->
  forall n, r = Some n -> stable_under_write I n f.
Proof.
  intros [-> | ->] Hst n Hn; [discriminate |]. injection Hn as <-. exact Hst.
Qed.

End ElementUpdates.

#[global] Hint Resolve keeps_hidden_textContent keeps_hidden_innerHTML
  keeps_hidden_span keeps_hidden_style keeps_hidden_toggle_on
  keeps_children_style keeps_children_className keeps_children_toggle : dom.

Ltac stable_tac :=
  first
    [ solve [apply stable_present]
    | solve [apply stable_page_ready]
    | solve [apply stable_hidden_keeps; auto with dom]
    | solve [apply stable_hidden_other; apply by_id_neq; discriminate]
    | solve [apply stable_children_keeps; auto with dom]
    | solve [apply stable_children_other; apply by_id_neq; discriminate]
    | apply stable_and; stable_tac ].

Ltac when_present_tac :=
  apply hoare_when_present;
  let n := fresh "n" in
  let Hn := fresh "Hn" in
  intros n Hn;
  first
    [ match goal with
      | Hr : from_id _ ?r |- _ =>
          match type of Hn with
          | r = Some _ => revert n Hn; apply (stable_from_id _ _ _ _ Hr); stable_tac
          end
      end
    | match type of Hn with
      | Some _ = Some _ => injection Hn as <-; stable_tac
      end
    | stable_tac ].

(** One step of a proof that a script function keeps an invariant. *)
Ltac hoare_inv_step :=
  cbv beta;
  lazymatch goal with
  | |- hoare _ (bind (getEl _) _) _ _ => apply hoare_getEl_bind; intros ? ?
  | |- hoare _ (bind (gets _) _) _ _ => apply hoare_gets_bind_any; intros ?
  | |- hoare _ (bind _ _) _ _ => eapply hoare_bind; [| intros ?]
  | |- hoare _ (if ?b then _ else _) _ _ => destruct b
  | |- hoare _ (when_present _ _) _ _ => when_present_tac
  | |- hoare _ (write _ _) _ _ => apply hoare_write; stable_tac
  | |- hoare _ (deref _ _) _ _ => apply hoare_deref; auto
  | |- hoare _ (forEach _ _) _ _ => apply hoare_forEach; intros ? ?
  | |- hoare _ (ret _) _ _ => apply hoare_ret; auto
  | |- hoare _ (Dashboard.setText _ _) _ _ => unfold Dashboard.setText
  | |- hoare _ (Dashboard.updateYAxis _) _ _ => unfold Dashboard.updateYAxis
  | |- hoare _ (match ?x with Some _ => _ | None => _ end) _ _ =>
      destruct x;
      try match goal with
          | H : from_id _ (Some ?n) |- _ => apply from_id_some in H; subst n
          end
  end.

Ltac hoare_inv := repeat hoare_inv_step.

Section TileProperties.

Context `{host : Host}.

Lemma updateTiles_blocks (d : SensorData) :
  Dashboard.updateTiles d
  = (Dashboard.setText "val-rms" (toFixed (vib_rms d) 3) ;;;
     Dashboard.setText "val-peak" (toFixed (vib_peak d) 2) ;;;
     Dashboard.setText "val-temp" (toFixed (temp d) 1) ;;;
     Dashboard.setText "val-hum" (toFixed (humidity d) 1) ;;;
     badge <- getEl "alarm-badge" ;;
     clk <- getEl "clock" ;;
     tiles_alarm_block d badge clk ;;;
     tiles_after_alarm d).
Proof. reflexivity. Qed.

(** The four value tiles keep every fact about the other elements. *)
Lemma setText_keeps (I E : World -> Prop) (id val : string) :
  stable_under_write I (by_id id) (set_textContent val) ->
  hoare I (Dashboard.setText id val) (fun _ => I) E.
Proof.
  intros Hst. unfold Dashboard.setText.
  apply hoare_getEl_bind. intros r Hr.
  apply hoare_when_present. apply (stable_from_id _ _ _ _ Hr Hst).
Qed.

Lemma tiles_after_alarm_keeps_hidden (d : SensorData) (b1 b2 : bool) :
  let I := fun w => hidden_is (by_id "alarm-badge") b1 w
                    /\ hidden_is (by_id "clock") b2 w in
  hoare I (tiles_after_alarm d) (fun _ => I) I.
Proof.
  intros I. unfold tiles_after_alarm, I. hoare_inv.
Qed.

Lemma tiles_alarm_block_sets_hidden (d : SensorData) :
  let P := fun w => present (by_id "alarm-badge") w /\ present (by_id "clock") w in
  let Q := fun w => hidden_is (by_id "alarm-badge") (negb (alarm d)) w
                    /\ hidden_is (by_id "clock") (alarm d) w in
  hoare P (tiles_alarm_block d (Some (by_id "alarm-badge")) (Some (by_id "clock")))
        (fun _ => Q) Q.
Proof.
  intros P Q. unfold tiles_alarm_block, P, Q.
  destruct (alarm d); simpl negb.
  - eapply hoare_bind
      with (R := fun _ w => hidden_is (by_id "alarm-badge") false w
                            /\ present (by_id "clock") w).
    { apply hoare_modify. intros w [[e He] Hc]. split.
      - unfold hidden_is. simpl. rewrite lookup_update_node.
        destruct (decide (by_id "alarm-badge" = by_id "alarm-badge")); [| congruence].
        rewrite He. eexists. split; [reflexivity |].
        rewrite classList_remove_spec. split; [tauto | discriminate].
      - apply stable_present. exact Hc. }
    intros ?. eapply hoare_bind
      with (R := fun _ w => hidden_is (by_id "alarm-badge") false w
                            /\ hidden_is (by_id "clock") true w).
    { apply hoare_modify. intros w [Hb [e He]]. split.
      - apply stable_hidden_other; [apply by_id_neq; discriminate | exact Hb].
      - unfold hidden_is. simpl. rewrite lookup_update_node.
        destruct (decide (by_id "clock" = by_id "clock")); [| congruence].
        rewrite He. eexists. split; [reflexivity |].
        rewrite classList_add_spec. split; auto. }
    intros ?. hoare_inv.
  - eapply hoare_bind
      with (R := fun _ w => hidden_is (by_id "alarm-badge") true w
                            /\ present (by_id "clock") w).
    { apply hoare_modify. intros w [[e He] Hc]. split.
      - unfold hidden_is. simpl. rewrite lookup_update_node.
        destruct (decide (by_id "alarm-badge" = by_id "alarm-badge")); [| congruence].
        rewrite He. eexists. split; [reflexivity |].
        rewrite classList_add_spec. split; auto.
      - apply stable_present. exact Hc. }
    intros ?. eapply hoare_bind
      with (R := fun _ w => hidden_is (by_id "alarm-badge") true w
                            /\ hidden_is (by_id "clock") false w).
    { apply hoare_modify. intros w [Hb [e He]]. split.
      - apply stable_hidden_other; [apply by_id_neq; discriminate | exact Hb].
      - unfold hidden_is. simpl. rewrite lookup_update_node.
        destruct (decide (by_id "clock" = by_id "clock")); [| congruence].
        rewrite He. eexists. split; [reflexivity |].
        rewrite classList_remove_spec. split; [tauto | discriminate]. }
    intros ?. hoare_inv.
Qed.

Lemma updateTiles_sets_hidden (d : SensorData) :
  let P := fun w => present (by_id "alarm-badge") w /\ present (by_id "clock") w in
  let Q := fun w => hidden_is (by_id "alarm-badge") (negb (alarm d)) w
                    /\ hidden_is (by_id "clock") (alarm d) w in
  hoare P (Dashboard.updateTiles d) (fun _ => Q) Q.
Proof.
  intros P Q. rewrite updateTiles_blocks.
  assert (forall id val, hoare P (Dashboard.setText id val) (fun _ => P) Q) as Htxt.
  { intros id val. apply setText_keeps. unfold P. stable_tac. }
  do 4 (eapply hoare_bind; [apply Htxt | intros ?]).
  apply hoare_getEl_bind_found; [intros w Hw; apply Hw |].
  apply hoare_getEl_bind_found; [intros w Hw; apply Hw |].
  eapply hoare_bind; [apply tiles_alarm_block_sets_hidden | intros ?].
  apply tiles_after_alarm_keeps_hidden.
Qed.

(** C3.  After [updateTiles] has processed an update, whether it returned
    or not, the alarm badge of the page is visible if and only if the
    update's [alarm] flag is true, and the clock is hidden exactly when the
    badge is visible. *)
Theorem updateTiles_badge_and_clock (d : SensorData) (w : World) :
  present (by_id "alarm-badge") w ->
  present (by_id "clock") w ->
  let p' := page (world_after (Dashboard.updateTiles d) w) in
  (is_visible (by_id "alarm-badge") p' <-> alarm d = true)
  /\ (is_hidden (by_id "clock") p' <-> is_visible (by_id "alarm-badge") p').
Proof.
  intros Hb Hc p'.
  pose proof (updateTiles_sets_hidden d w (conj Hb Hc)) as H.
  assert (hidden_is (by_id "alarm-badge") (negb (alarm d))
                    (world_after (Dashboard.updateTiles d) w)
          /\ hidden_is (by_id "clock") (alarm d)
                       (world_after (Dashboard.updateTiles d) w)) as [HB HC].
  { unfold world_after. destruct (Dashboard.updateTiles d w) as [w1 [a | e]]; exact H. }
  clear H. subst p'.
  destruct HB as (eb & Heb & Hbh). destruct HC as (ec & Hec & Hch).
  assert (is_visible (by_id "alarm-badge")
                     (page (world_after (Dashboard.updateTiles d) w))
          <-> alarm d = true) as Hvis.
  { unfold is_visible. split.
    - intros (e & He & Hn). rewrite Heb in He. injection He as <-.
      destruct (alarm d); [reflexivity |]. exfalso. apply Hn, Hbh. reflexivity.
    - intros Ha. exists eb. split; [exact Heb |].
      rewrite Hbh, Ha. discriminate. }
  split; [exact Hvis |].
  rewrite Hvis. unfold is_hidden. split.
  - intros (e & He & Hin). rewrite Hec in He. injection He as <-. apply Hch, Hin.
  - intros Ha. exists ec. split; [exact Hec | apply Hch, Ha].
Qed.

(** *** Running to completion *)

(** On a ready page the alarm block returns, whatever [I] it has to keep. *)
Lemma tiles_alarm_block_returns (I : World -> Prop) (d : SensorData)
      (badge clk : option NodeRef) :
  (forall r f, stable_under_write I r f) ->
  let P := fun w => page_ready w /\ I w in
  hoare P (tiles_alarm_block d badge clk) (fun _ => P) nothing_thrown.
Proof.
  intros HI P.
  assert (forall r f, stable_under_write P r f) as Hst.
  { intros r f. unfold P. apply stable_and; [apply stable_page_ready | apply HI]. }
  assert (forall c, hoare P
            (tile <- getEl "tile-rms" ;;
             _ <- deref "tile-rms" tile ;;
             v <- gets (fun w => sel_tile_value (page w)) ;;
             v <- deref ".tile-value" v ;;
             write v (set_style "color" c))
            (fun _ => P) nothing_thrown) as Htile.
  { intros c.
    apply hoare_getEl_bind_found; [intros w Hw; apply Hw |].
    eapply hoare_bind; [apply hoare_deref; discriminate | intros ?].
    apply hoare_gets_bind. intros v.
    destruct v as [v |].
    - eapply hoare_bind.
      + apply hoare_deref_some with (Q := fun _ => P). intros w Hw. apply Hw.
      + intros ?. apply hoare_write, Hst.
    - intros w [[[_ [x Hx]] _] Hn]. rewrite Hn in Hx. discriminate. }
  unfold tiles_alarm_block. destruct (alarm d).
  - eapply hoare_bind; [apply hoare_when_present; intros; apply Hst | intros ?].
    eapply hoare_bind; [apply hoare_when_present; intros; apply Hst | intros ?].
    apply Htile.
  - eapply hoare_bind; [apply hoare_when_present; intros; apply Hst | intros ?].
    eapply hoare_bind; [apply hoare_when_present; intros; apply Hst | intros ?].
    apply Htile.
Qed.

(** The rest of [updateTiles] dereferences nothing. *)
Lemma tiles_after_alarm_returns (I : World -> Prop) (d : SensorData) :
  (forall r f, stable_under_write I r f) ->
  hoare I (tiles_after_alarm d) (fun _ => I) nothing_thrown.
Proof.
  intros HI. unfold tiles_after_alarm.
  repeat (cbv beta;
          lazymatch goal with
          | |- hoare _ (bind (getEl _) _) _ _ => apply hoare_getEl_bind; intros ? ?
          | |- hoare _ (bind (gets _) _) _ _ => apply hoare_gets_bind_any; intros ?
          | |- hoare _ (bind _ _) _ _ => eapply hoare_bind; [| intros ?]
          | |- hoare _ (if ?b then _ else _) _ _ => destruct b
          | |- hoare _ (when_present _ _) _ _ => apply hoare_when_present; intros; apply HI
          | |- hoare _ (write _ _) _ _ => apply hoare_write, HI
          | |- hoare _ (forEach _ _) _ _ => apply hoare_forEach; intros ? ?
          | |- hoare _ (ret _) _ _ => apply hoare_ret; auto
          | |- hoare _ (Dashboard.setText _ _) _ _ => unfold Dashboard.setText
          | |- hoare _ (Dashboard.updateYAxis _) _ _ => unfold Dashboard.updateYAxis
          | |- hoare _ (match ?x with Some _ => _ | None => _ end) _ _ => destruct x
          end).
Qed.

Lemma updateTiles_returns (I : World -> Prop) (d : SensorData) :
  (forall r f, stable_under_write I r f) ->
  let P := fun w => page_ready w /\ I w in
  hoare P (Dashboard.updateTiles d) (fun _ => P) nothing_thrown.
Proof.
  intros HI P. rewrite updateTiles_blocks.
  assert (forall r f, stable_under_write P r f) as Hst.
  { intros r f. unfold P. apply stable_and; [apply stable_page_ready | apply HI]. }
  do 4 (eapply hoare_bind; [apply setText_keeps, Hst | intros ?]).
  apply hoare_getEl_bind. intros badge _.
  apply hoare_getEl_bind. intros clk _.
  eapply hoare_bind; [apply (tiles_alarm_block_returns I d badge clk HI) | intros ?].
  apply tiles_after_alarm_returns, Hst.
Qed.

(** The connection block and what follows it. *)
Lemma tiles_after_alarm_sets_label (d : SensorData) :
  let txt := if connected d then "Connected" else "No Signal" in
  hoare (present (by_id "conn-label")) (tiles_after_alarm d)
        (fun _ => children_are (by_id "conn-label") [TextNode txt])
        nothing_thrown.
Proof.
  intros txt. unfold tiles_after_alarm.
  apply hoare_getEl_bind. intros dot Hdot.
  apply hoare_getEl_bind_found; [intros w Hw; exact Hw |].
  assert (forall s, s <> EmptyString ->
            hoare (present (by_id "conn-label"))
                  (write (by_id "conn-label") (set_textContent s))
                  (fun _ => children_are (by_id "conn-label") [TextNode s])
                  nothing_thrown) as Hset.
  { intros s Hs. apply hoare_modify. intros w [e He].
    unfold children_are. simpl. rewrite lookup_update_node.
    destruct (decide (by_id "conn-label" = by_id "conn-label")); [| congruence].
    rewrite He. eexists. split; [reflexivity |]. simpl.
    destruct (String.eqb_spec s EmptyString); [contradiction | reflexivity]. }
  eapply hoare_bind with (R := fun _ => children_are (by_id "conn-label") [TextNode txt]).
  - subst txt. destruct (connected d).
    + eapply hoare_bind; [when_present_tac | intros ?].
      eapply hoare_bind; [apply Hset; discriminate | intros ?].
      hoare_inv.
    + eapply hoare_bind; [when_present_tac | intros ?].
      eapply hoare_bind; [apply Hset; discriminate | intros ?].
      hoare_inv.
  - intros ?. hoare_inv.
Qed.

(** C5.  On a page that has the rms tile and a connection label, every
    update sets the label's text to "Connected" when its [connected] field
    is true and to "No Signal" when it is false; the label shows nothing
    else, and the update itself returns without an error. *)
Theorem updateTiles_connection_label (d : SensorData) (w : World) :
  page_ready w ->
  present (by_id "conn-label") w ->
  let w' := world_after (Dashboard.updateTiles d) w in
  completes_normally (Dashboard.updateTiles d) w
  /\ (connected d = true ->
      text_of (by_id "conn-label") (page w') = Some [TextNode "Connected"])
  /\ (connected d = false ->
      text_of (by_id "conn-label") (page w') = Some [TextNode "No Signal"]).
Proof.
  intros Hr Hl w'.
  assert (hoare (fun w => page_ready w /\ present (by_id "conn-label") w)
                (Dashboard.updateTiles d)
                (fun _ => children_are (by_id "conn-label")
                            [TextNode (if connected d then "Connected" else "No Signal")])
                nothing_thrown) as H.
  { rewrite updateTiles_blocks.
    set (P := fun w => page_ready w /\ present (by_id "conn-label") w).
    assert (forall r f, stable_under_write P r f) as Hst.
    { intros r f. unfold P. stable_tac. }
    do 4 (eapply hoare_bind; [apply setText_keeps, Hst | intros ?]).
    apply hoare_getEl_bind. intros badge _.
    apply hoare_getEl_bind. intros clk _.
    eapply hoare_bind.
    - apply (tiles_alarm_block_returns (present (by_id "conn-label")) d badge clk).
      intros r f. apply stable_present.
    - intros ?. eapply hoare_pre; [apply tiles_after_alarm_sets_label |].
      intros w0 Hw0. apply Hw0. }
  specialize (H w (conj Hr Hl)). subst w'.
  unfold world_after, completes_normally, completion_of, text_of.
  destruct (Dashboard.updateTiles d w) as [w1 [a | e]]; [| destruct H].
  destruct H as (el & Hel & Hch). simpl. rewrite Hel. simpl. rewrite Hch.
  split; [eauto | split; intros ->; reflexivity].
Qed.

End TileProperties.

Lemma updateTiles_connection_label_witness :
  page_ready sample_world
  /\ present (by_id "conn-label") sample_world
  /\ (connected sample_data = false ->
      text_of (by_id "conn-label")
              (page (world_after (@Dashboard.updateTiles sample_host sample_data)
                                 sample_world))
      = Some [TextNode "No Signal"]).
Proof.
  assert (page_ready sample_world) as Hr by (split; vm_compute; eauto).
  assert (present (by_id "conn-label") sample_world) as Hl by (vm_compute; eauto).
  split; [exact Hr | split; [exact Hl |]].
  exact (proj2 (proj2 (@updateTiles_connection_label sample_host sample_data
                                                      sample_world Hr Hl))).
Defined.

Lemma updateTiles_badge_and_clock_witness :
  present (by_id "alarm-badge") sample_world
  /\ present (by_id "clock") sample_world
  /\ (is_visible (by_id "alarm-badge")
                 (page (world_after (@Dashboard.updateTiles sample_host sample_data)
                                    sample_world))
      <-> alarm sample_data = true).
Proof.
  assert (present (by_id "alarm-badge") sample_world) as Hb by (vm_compute; eauto).
  assert (present (by_id "clock") sample_world) as Hc by (vm_compute; eauto).
  split; [exact Hb | split; [exact Hc |]].
  exact (proj1 (@updateTiles_badge_and_clock sample_host sample_data sample_world Hb Hc)).
Defined.

(** ** dashboard.js: the chart *)

Ltac dash_free_tac :=
  unfold dash_free, dash; simpl; intuition discriminate.

Section ChartProperties.

Context `{host : Host}.

Lemma hoare_gets_bind_val {A B} (P : World -> Prop) (f : World -> A) (a0 : A)
      (k : A -> M B) (Q : B -> World -> Prop) E :
  (forall w, P w -> f w = a0) ->
  hoare P (k a0) Q E ->
  hoare P (bind (gets f) k) Q E.
Proof.
  intros Hf Hk. apply hoare_gets_bind. intros a w [Hw Ha].
  rewrite <- Ha, (Hf w Hw). apply Hk, Hw.
Qed.

Lemma hoare_draw (I E : World -> Prop) (cmds : list DrawCmd) :
  (forall w, I w -> I (set_ctx ((fun log => (log ++ cmds)%list) <$> ctx w) w)) ->
  hoare I (Dashboard.draw cmds) (fun _ => I) E.
Proof. intros H. unfold Dashboard.draw. apply hoare_modify. exact H. Qed.

Lemma chart_log_draw (log0 : list DrawCmd) (P P' : list DrawCmd -> Prop)
      (cmds : list DrawCmd) (E : World -> Prop) :
  (forall ops, P ops -> P' (ops ++ cmds)%list) ->
  hoare (chart_log log0 P) (Dashboard.draw cmds) (fun _ => chart_log log0 P') E.
Proof.
  intros H. unfold Dashboard.draw. apply hoare_modify.
  intros w (ops & Hc & HP). exists (ops ++ cmds)%list. simpl. rewrite Hc. simpl.
  rewrite <- app_assoc. auto.
Qed.

Lemma chart_log_draw_keeps (log0 : list DrawCmd) (P : list DrawCmd -> Prop)
      (cmds : list DrawCmd) (E : World -> Prop) :
  keeps_under_append P -> dash_free cmds ->
  hoare (chart_log log0 P) (Dashboard.draw cmds) (fun _ => chart_log log0 P) E.
Proof. intros HP Hd. apply chart_log_draw. intros ops. apply HP, Hd. Qed.

Lemma hoare_last_entry {A} (I E : World -> Prop) (what : string) (arr : list A) :
  arr <> [] -> hoare I (Dashboard.last_entry what arr) (fun _ => I) E.
Proof.
  intros Hne. unfold Dashboard.last_entry.
  destruct (last arr) as [a |] eqn:El.
  - apply hoare_ret. auto.
  - exfalso. apply last_is_Some in Hne. rewrite El in Hne. destruct Hne. discriminate.
Qed.

Lemma at_least_two_nonempty {A B} (f : A -> B) (l : list A) :
  (length l <? 2)%nat = false -> l <> [] /\ map f l <> [].
Proof. destruct l; simpl; [discriminate | split; discriminate]. Qed.

End ChartProperties.

(** One step through [renderChart] for an invariant whose drawing steps are
    closed by [draw_tac]. *)
Ltac chart_step draw_tac :=
  cbv beta;
  lazymatch goal with
  | |- hoare _ (bind (gets _) _) _ _ => apply hoare_gets_bind_any; intros ?
  | |- hoare _ (bind _ _) _ _ => eapply hoare_bind; [| intros ?]
  | |- hoare _ (if (length ?l <? 2)%nat then _ else _) _ _ =>
      destruct (length l <? 2)%nat eqn:?
  | |- hoare _ (if ?b then _ else _) _ _ => destruct b
  | |- hoare _ (match ?x with Some _ => _ | None => _ end) _ _ => destruct x
  | |- hoare _ (let '(_, _) := ?x in _) _ _ => destruct x
  | |- hoare _ ((let '(_, _) := ?x in _) _) _ _ => destruct x
  | |- hoare _ (Dashboard.draw _) _ _ => draw_tac
  | |- hoare _ (forEach _ _) _ _ => apply hoare_forEach; intros ? ?
  | |- hoare _ (ret _) _ _ => apply hoare_ret; auto
  | |- hoare _ (Dashboard.last_entry _ _) _ _ =>
      apply hoare_last_entry;
      match goal with
      | H : (length _ <? 2)%nat = false |- _ =>
          first [ exact (proj1 (at_least_two_nonempty (fun x => x) _ H))
                | exact (proj2 (at_least_two_nonempty _ _ H)) ]
      end
  end.

Section ChartRuns.

Context `{host : Host}.

(** [renderChart] writes to the canvas only and never throws: both reads of
    a last entry come after the check [history.length < 2]. *)
Lemma renderChart_returns (I : World -> Prop) (d : SensorData) :
  (forall w c, I w -> I (set_ctx c w)) ->
  hoare I (Dashboard.renderChart d) (fun _ => I) nothing_thrown.
Proof.
  intros HI. unfold Dashboard.renderChart.
  repeat chart_step ltac:(apply hoare_draw; intros; apply HI; assumption).
Qed.

Lemma page_ready_set_ctx (w : World) (c : option (list DrawCmd)) :
  page_ready w -> page_ready (set_ctx c w).
Proof. intros H. exact H. Qed.

Lemma update_then_chart_returns (d : SensorData) :
  hoare page_ready (Dashboard.updateTiles d ;;; Dashboard.renderChart d)
        (fun _ => page_ready) nothing_thrown.
Proof.
  eapply hoare_bind with (R := fun _ w => page_ready w /\ True).
  - eapply hoare_pre.
    + apply (updateTiles_returns (fun _ => True) d). intros r f w _. exact I.
    + intros w Hw. split; [exact Hw | exact I].
  - intros ?. eapply hoare_consequence.
    + apply (renderChart_returns page_ready d). apply page_ready_set_ctx.
    + intros w [Hw _]. exact Hw.
    + intros a0 w Hw. exact Hw.
    + intros w Hw. exact Hw.
Qed.

(** C2.  For every [sensor_update] message whose [data] has the shape of the
    protocol (numbers, two booleans, a list of [minute, rms] pairs), on a
    page that holds the rms tile and its value, the update handler
    ([updateTiles] followed by [renderChart]) returns without raising an
    error.  In particular [renderChart] by itself never raises, in any
    world: the reads of [points[points.length - 1]] and
    [history[history.length - 1]] come after the length check. *)
Theorem sensor_update_handler_returns (msg : Msg) (d : SensorData) (w : World) :
  msg_data msg = Some d ->
  page_ready w ->
  completes_normally (Dashboard.on_sensor_update msg) w
  /\ completes_normally (Dashboard.updateTiles d ;;; Dashboard.renderChart d) w
  /\ (forall w0 : World, completes_normally (Dashboard.renderChart d) w0).
Proof.
  intros Hd Hr. split; [| split].
  - unfold Dashboard.on_sensor_update. rewrite Hd.
    assert (hoare page_ready
              (modify (set_sensorData (Some d)) ;;;
               Dashboard.updateTiles d ;;; Dashboard.renderChart d)
              (fun _ => page_ready) nothing_thrown) as H.
    { eapply hoare_bind with (R := fun _ => page_ready).
      - apply hoare_modify. intros w0 H0. exact H0.
      - intros ?. apply update_then_chart_returns. }
    specialize (H w Hr). unfold completes_normally, completion_of.
    destruct ((modify (set_sensorData (Some d)) ;;;
               Dashboard.updateTiles d ;;; Dashboard.renderChart d) w) as [w1 [a | e]];
      [eauto | destruct H].
  - pose proof (update_then_chart_returns d w Hr) as H.
    unfold completes_normally, completion_of.
    destruct ((Dashboard.updateTiles d ;;; Dashboard.renderChart d) w) as [w1 [a | e]];
      [eauto | destruct H].
  - intros w0.
    pose proof (renderChart_returns (fun _ => True) d (fun _ _ _ => I) w0 I) as H.
    unfold completes_normally, completion_of.
    destruct (Dashboard.renderChart d w0) as [w1 [a | e]]; [eauto | destruct H].
Qed.

(** *** The alarm threshold *)

Lemma dash_free_keeps : keeps_under_append dash_free.
Proof.
  intros ops cmds Hc Ho. unfold dash_free in *. rewrite in_app_iff. tauto.
Qed.

Lemma threshold_drawn_keeps (b : Prop) (seg : list DrawCmd) :
  keeps_under_append (threshold_drawn b seg).
Proof.
  intros ops cmds Hc [Hiff Hseg]. split.
  - rewrite in_app_iff. unfold dash_free in Hc. tauto.
  - intros Hb. destruct (Hseg Hb) as (pre & post & ->).
    exists pre, (post ++ cmds)%list. rewrite <- !app_assoc. reflexivity.
Qed.

Lemma threshold_block (log0 : list DrawCmd) (pw ph : Z) (yMax : Number) (E : World -> Prop) :
  hoare (chart_log log0 dash_free)
        (if Number_le Dashboard.thresh yMax then
           let ay := Dashboard.y_of_value ph yMax Dashboard.thresh in
           Dashboard.draw
             [ SetStrokeStyle "rgba(220,50,50,0.7)"; SetLineWidth 1;
               SetLineDash [4; 3]%Q;
               BeginPath; MoveTo (Dashboard.zq Dashboard.plot_x) ay;
               LineTo (Dashboard.zq (Dashboard.plot_x + pw)) ay; Stroke;
               SetLineDash [];
               SetFillStyle "#dc3232";
               FillText "ALM" (Dashboard.zq (Dashboard.plot_x + pw - 22))
                        (Number_sub ay 3) ]
         else ret tt)
        (fun _ => chart_log log0
                    (threshold_drawn (Number_le (literal (6 # 10)) yMax = true)
                       (alarm_line pw (threshold_height ph yMax))))
        E.
Proof.
  change Dashboard.thresh with (literal (6 # 10)).
  destruct (Number_le (literal (6 # 10)) yMax) eqn:Ht.
  - cbv zeta. apply chart_log_draw. intros ops Hfree. split.
    + split; [intros _; reflexivity | intros _].
      rewrite in_app_iff. right. unfold dash. do 2 right. left. reflexivity.
    + intros _. exists ops, []. rewrite app_nil_r. reflexivity.
  - apply hoare_ret. intros w (ops & Hc & Hfree). exists ops. split; [exact Hc |].
    split; [split; [intros Hin; destruct (Hfree Hin) | discriminate] |].
    discriminate.
Qed.

Lemma renderChart_threshold_log (d : SensorData) (log : list DrawCmd) (cw ch : Z) :
  cw <> 0%Z -> ch <> 0%Z ->
  let yMax := Dashboard.computeYMax (map snd (history d)) in
  hoare (canvas_ready log cw ch) (Dashboard.renderChart d)
        (fun _ => chart_log log
                    (threshold_drawn (Number_le (literal (6 # 10)) yMax = true)
                       (alarm_line (Dashboard.plot_w cw)
                          (threshold_height (Dashboard.plot_h ch) yMax))))
        nothing_thrown.
Proof.
  intros Hcw Hch yMax. unfold Dashboard.renderChart.
  apply hoare_gets_bind_val with (a0 := Some log); [intros w Hw; apply Hw |].
  apply hoare_gets_bind_val with (a0 := Some cw); [intros w Hw; apply Hw |].
  apply hoare_gets_bind_val with (a0 := Some ch); [intros w Hw; apply Hw |].
  cbv beta iota.
  replace ((cw =? 0) || (ch =? 0))%Z with false
    by (symmetry; apply orb_false_iff; split; apply Z.eqb_neq; assumption).
  apply hoare_gets_bind_any. intros now.
  eapply hoare_pre with (P' := chart_log log dash_free);
    [| intros w (Hc & _ & _); exists []; rewrite app_nil_r; split; [exact Hc | intros []]].
  cbv zeta.
  repeat
    first
      [ lazymatch goal with
        | |- hoare _ (bind (if Number_le _ _ then _ else _) _) _ _ =>
            eapply hoare_bind; [apply threshold_block | intros ?]
        end
      | chart_step
          ltac:(apply chart_log_draw_keeps;
                [ first [apply dash_free_keeps | apply threshold_drawn_keeps]
                | dash_free_tac ]) ].
Qed.

(** C4.  The alarm-threshold line is drawn at the constant 0.6, the double
    written [0.6]: for every history, on a canvas that can be drawn on,
    [renderChart] issues the dashed stroke if and only if
    [0.6 <= computeYMax] of the history's rms values, and then the line
    runs from [px = 6] to [px + pw] at the height
    [py + ph - Math.round(ph * 0.6 / yMax)], which depends on no setting.
    On a finite scale and a plot area of a height below [2^31] that height
    is [k] pixels above the baseline [py + ph], where the integer [k] is
    [ph * 0.6 / yMax] rounded: it differs from the exact quotient by at
    most [1/2 + 2^-20].  On the scale [Infinity] the line lies on the
    baseline. *)
Theorem renderChart_alarm_threshold (d : SensorData) (w : World)
        (log : list DrawCmd) (cw ch : Z) :
  canvas_ready log cw ch w ->
  cw <> 0%Z -> ch <> 0%Z ->
  let yMax := Dashboard.computeYMax (map snd (history d)) in
  let pw := Dashboard.plot_w cw in
  let ph := Dashboard.plot_h ch in
  let ay := Number_sub (inject_Z (20 + ph))
              (Number_round
                 (Number_div (Number_mul (inject_Z ph) (literal (6 # 10))) yMax)) in
  Dashboard.thresh = literal (6 # 10)
  /\ literal (6 # 10) = Finite (5404319552844595 # 9007199254740992)
  /\ (exists ops : list DrawCmd,
        ctx (world_after (Dashboard.renderChart d) w) = Some (log ++ ops)%list
        /\ (In (SetLineDash [4; 3]%Q) ops <-> Number_le (literal (6 # 10)) yMax = true)
        /\ (Number_le (literal (6 # 10)) yMax = true ->
            exists pre post,
              ops = (pre
                     ++ [ SetStrokeStyle "rgba(220,50,50,0.7)"; SetLineWidth 1;
                          SetLineDash [4; 3]%Q;
                          BeginPath; MoveTo 6 ay; LineTo (inject_Z (6 + pw)) ay; Stroke;
                          SetLineDash [];
                          SetFillStyle "#dc3232";
                          FillText "ALM" (inject_Z (6 + pw - 22)) (Number_sub ay 3) ]
                     ++ post)%list))
  /\ (forall y : Q,
        yMax = Finite y -> (0 <= ph < 2 ^ 31)%Z ->
        exists k : Z,
          ay = Finite (inject_Z (20 + ph - k))
          /\ (0 <= k <= ph)%Z
          /\ (Qabs (inject_Z k - inject_Z ph * (6 # 10) / y) <= (1 # 2) + pow2 (-20))%Q)
  /\ (yMax = PosInfinity -> (0 <= ph < 2 ^ 31)%Z -> ay = Finite (inject_Z (20 + ph))).
Proof.
  intros Hready Hcw Hch yMax pw ph ay.
  split; [reflexivity | split; [apply literal_06 | split; [| split]]].
  - pose proof (renderChart_threshold_log d log cw ch Hcw Hch w Hready) as H.
    unfold world_after.
    destruct (Dashboard.renderChart d w) as [w1 [a | e]]; [| destruct H].
    destruct H as (ops & Hc & Hiff & Hseg).
    exists ops. split; [exact Hc | split; [exact Hiff | exact Hseg]].
  - intros y Ey Hph.
    destruct (computeYMax_finite (map snd (history d)) y Ey) as [H1 _].
    subst ay. rewrite Ey. apply (threshold_height_near ph y Hph H1).
  - intros Ey Hph. subst ay. rewrite Ey. apply (threshold_height_infinity ph Hph).
Qed.

End ChartRuns.

Lemma renderChart_alarm_threshold_witness :
  canvas_ready [] 480 320 sample_world
  /\ 480%Z <> 0%Z /\ 320%Z <> 0%Z
  /\ Dashboard.computeYMax (map snd (history strong_data)) = Finite (5 # 4)
  /\ exists ops pre post : list DrawCmd,
       ctx (world_after (@Dashboard.renderChart sample_host strong_data) sample_world)
       = Some ([] ++ ops)%list
       /\ ops = (pre
                 ++ [ SetStrokeStyle "rgba(220,50,50,0.7)"; SetLineWidth 1;
                      SetLineDash [4; 3]%Q;
                      BeginPath; MoveTo 6 167; LineTo 472 167; Stroke;
                      SetLineDash [];
                      SetFillStyle "#dc3232";
                      FillText "ALM" 450 164 ]
                 ++ post)%list.
Proof.
  assert (canvas_ready [] 480 320 sample_world) as Hr by (repeat split).
  assert (480%Z <> 0%Z) as Hw by discriminate.
  assert (320%Z <> 0%Z) as Hh by discriminate.
  split; [exact Hr | split; [exact Hw | split; [exact Hh |]]].
  split; [vm_compute; reflexivity |].
  destruct (@renderChart_alarm_threshold sample_host strong_data sample_world
                                         [] 480 320 Hr Hw Hh)
    as (_ & _ & (ops & Hc & _ & Hseg) & _).
  assert (Number_le (literal (6 # 10))
                    (Dashboard.computeYMax (map snd (history strong_data))) = true) as Hle
    by (vm_compute; reflexivity).
  destruct (Hseg Hle) as (pre & post & E).
  exists ops, pre, post. split; [exact Hc |].
  match type of E with
  | context [MoveTo _ ?a] =>
      assert (a = Finite 167) as Ea by (vm_compute; reflexivity); rewrite Ea in E
  end.
  exact E.
Defined.


Lemma sensor_update_handler_returns_witness :
  msg_data sensor_update_msg = Some sample_data
  /\ page_ready sample_world
  /\ completes_normally (@Dashboard.on_sensor_update sample_host sensor_update_msg)
                        sample_world.
Proof.
  assert (msg_data sensor_update_msg = Some sample_data) as Hd by reflexivity.
  assert (page_ready sample_world) as Hr by (split; vm_compute; eauto).
  split; [exact Hd | split; [exact Hr |]].
  exact (proj1 (@sensor_update_handler_returns sample_host sensor_update_msg
                                               sample_data sample_world Hd Hr)).
Defined.

(** ** Further properties of the scripts *)

Section FurtherProperties.

Context `{host : Host}.

Lemma hoare_getEl_bind_missing {B} (P : World -> Prop) (id : string)
      (k : option NodeRef -> M B) (Q : B -> World -> Prop) E :
  (forall w, P w -> lookup_node (by_id id) (page w) = None) ->
  hoare P (k None) Q E ->
  hoare P (bind (getEl id) k) Q E.
Proof.
  intros Hmiss Hk. unfold getEl. apply hoare_gets_bind. intros r.
  intros w [Hw Hr]. specialize (Hmiss w Hw).
  unfold getElementById, lookup_node in *. rewrite Hmiss in Hr. subst r.
  apply Hk, Hw.
Qed.

Lemma stable_missing r0 r f :
  stable_under_write (fun w => lookup_node r0 (page w) = None) r f.
Proof.
  intros w H. simpl. rewrite lookup_update_node.
  destruct (decide (r = r0)); [rewrite H; reflexivity | exact H].
Qed.

(** X1.  On a page without the element [#tile-rms], [updateTiles] raises
    an error for every update: the alarm block reads
    [document.getElementById('tile-rms').querySelector(...)] without the
    null check that guards every other element. *)
Theorem updateTiles_throws_without_tile (d : SensorData) (w : World) :
  lookup_node (by_id "tile-rms") (page w) = None ->
  exists e, completion_of (Dashboard.updateTiles d) w = Throw e.
Proof.
  intros Hmiss.
  set (P := fun w : World => lookup_node (by_id "tile-rms") (page w) = None).
  assert (hoare P (Dashboard.updateTiles d) (fun _ _ => False) (fun _ => True)) as H.
  { rewrite updateTiles_blocks.
    do 4 (eapply hoare_bind; [apply setText_keeps, stable_missing | intros ?]).
    apply hoare_getEl_bind. intros badge _.
    apply hoare_getEl_bind. intros clk _.
    eapply hoare_bind with (R := fun _ _ => False); [| intros ? ? []].
    unfold tiles_alarm_block. destruct (alarm d).
    - eapply hoare_bind;
        [apply hoare_when_present; intros; apply stable_missing | intros ?].
      eapply hoare_bind;
        [apply hoare_when_present; intros; apply stable_missing | intros ?].
      apply hoare_getEl_bind_missing; [intros w0 Hw0; exact Hw0 |].
      simpl. intros w0 _. exact I.
    - eapply hoare_bind;
        [apply hoare_when_present; intros; apply stable_missing | intros ?].
      eapply hoare_bind;
        [apply hoare_when_present; intros; apply stable_missing | intros ?].
      apply hoare_getEl_bind_missing; [intros w0 Hw0; exact Hw0 |].
      simpl. intros w0 _. exact I. }
  specialize (H w Hmiss). unfold completion_of.
  destruct (Dashboard.updateTiles d w) as [w1 [a | e]]; [destruct H | eauto].
Qed.

(** X2.  The alarm threshold 0.6 is on every scale that [computeYMax]
    returns, so the test [thresh <= yMax] of [renderChart] never fails. *)
Theorem threshold_always_on_scale (values : list Q) :
  Number_le Dashboard.thresh (Dashboard.computeYMax values) = true
  /\ (forall y : Q, Dashboard.computeYMax values = Finite y -> (6 # 10 <= y)%Q).
Proof.
  assert (forall y : Q, Dashboard.computeYMax values = Finite y -> (6 # 10 <= y)%Q) as H.
  { intros y Hy. destruct (computeYMax_finite values y Hy) as [H1 _]. lra. }
  split; [| exact H].
  unfold Dashboard.thresh. rewrite literal_06.
  destruct (computeYMax_spec values) as [-> | (r & n & _ & _ & _ & _ & E & _)];
    [reflexivity |].
  rewrite E. cbn [Number_le]. apply Qle_bool_iff.
  specialize (H _ E). unfold c06. lra.
Qed.

(** X3.  [rssiToBars] yields between 0 and 4 bars and never fewer bars for
    a stronger signal. *)
Theorem rssiToBars_monotone (r r' : Q) :
  (r <= r')%Q ->
  (Dashboard.rssiToBars r <= Dashboard.rssiToBars r' <= 4)%nat.
Proof.
  intros Hle. unfold Dashboard.rssiToBars.
  repeat match goal with
         | |- context [Qle_bool ?a ?b] =>
             let E := fresh "E" in
             destruct (Qle_bool a b) eqn:E;
             [apply Qle_bool_iff in E
             | assert (~ (a <= b)%Q)
                 by (intros Hc; apply Qle_bool_iff in Hc; congruence); clear E]
         end;
    try lia; exfalso; lra.
Qed.

(** X4.  Pressing OK while the socket is open and the keyboard overlay is
    on the page sends exactly one command, [wifi_connect] with the selected
    network and the typed password; the password leaves the client only
    this way. *)
Theorem kbdPress_ok_sends_password (w : World) (sock : WebSocket) :
  ws w = Some sock -> readyState sock = OPEN ->
  present (by_id "keyboard-overlay") w ->
  ws (world_after (Setup.kbdPress "OK") w)
  = Some (mkWebSocket OPEN (sent sock ++ [CmdWifiConnect (selectedSSID w) (kbdText w)])).
Proof.
  intros Hws Hopen [e He].
  assert (Setup.kbdPress "OK"
          = (ov <- getEl "keyboard-overlay" ;;
             ov <- deref "keyboard-overlay" ov ;;
             write ov (classList_add "hidden") ;;;
             ssid <- gets selectedSSID ;;
             txt <- gets kbdText ;;
             App.send (CmdWifiConnect ssid txt) ;;;
             Setup.setWifiStatus ("Connecting to " +:+ Setup.ssid_text ssid +:+ "...") "warn"))
    as -> by reflexivity.
  unfold world_after, bind, getEl, gets, deref, write, modify, ret.
  unfold getElementById, lookup_node in *. rewrite He. cbv beta iota.
  match goal with
  | |- context [App.send ?c ?w0] =>
      rewrite (send_open c w0 sock Hws Hopen)
  end.
  cbv beta iota.
  match goal with
  | |- context [Setup.setWifiStatus ?m ?c ?w0] =>
      rewrite (setWifiStatus_run m c w0)
  end.
  reflexivity.
Qed.

End FurtherProperties.

Lemma updateTiles_throws_without_tile_witness :
  lookup_node (by_id "tile-rms") (page (set_page page_without_tile sample_world)) = None
  /\ exists e,
       completion_of (@Dashboard.updateTiles sample_host sample_data)
                     (set_page page_without_tile sample_world) = Throw e.
Proof.
  assert (lookup_node (by_id "tile-rms")
                      (page (set_page page_without_tile sample_world)) = None) as H
    by (vm_compute; reflexivity).
  split; [exact H |].
  exact (@updateTiles_throws_without_tile sample_host sample_data _ H).
Defined.

Lemma rssiToBars_monotone_witness :
  (-(72 # 1) <= -(55 # 1))%Q
  /\ (Dashboard.rssiToBars (-(72 # 1)) <= Dashboard.rssiToBars (-(55 # 1)) <= 4)%nat.
Proof.
  assert (-(72 # 1) <= -(55 # 1))%Q as H by (vm_compute; discriminate).
  split; [exact H |].
  exact (rssiToBars_monotone _ _ H).
Defined.

Lemma kbdPress_ok_sends_password_witness :
  ws sample_world = Some (mkWebSocket OPEN [])
  /\ readyState (mkWebSocket OPEN []) = OPEN
  /\ present (by_id "keyboard-overlay") sample_world
  /\ ws (world_after (Setup.kbdPress "OK") sample_world)
     = Some (mkWebSocket OPEN ([] ++ [CmdWifiConnect (selectedSSID sample_world)
                                                      (kbdText sample_world)])).
Proof.
  assert (ws sample_world = Some (mkWebSocket OPEN [])) as H1 by reflexivity.
  assert (readyState (mkWebSocket OPEN []) = OPEN) as H2 by reflexivity.
  assert (present (by_id "keyboard-overlay") sample_world) as H3 by (vm_compute; eauto).
  split; [exact H1 | split; [exact H2 | split; [exact H3 |]]].
  exact (kbdPress_ok_sends_password sample_world _ H1 H2 H3).
Defined.

(** ** app.js: views, listeners and frames *)

Section ViewsAndListeners.

Lemma class_is_set (r : NodeRef) (tok : string) (b : bool)
      (f : Element -> Element) (w : World) :
  present r w ->
  (forall e, tok ∈ classes (f e) <-> b = true) ->
  class_is r tok b (set_page (update_node r f (page w)) w).
Proof.
  intros [e He] Hf. unfold class_is. simpl. rewrite lookup_update_node.
  destruct (decide (r = r)); [| congruence].
  rewrite He. exists (f e). split; [reflexivity | apply Hf].
Qed.

Lemma class_is_other (r0 r : NodeRef) (tok : string) (b : bool)
      (f : Element -> Element) :
  r <> r0 -> stable_under_write (class_is r0 tok b) r f.
Proof.
  intros Hne w (e & He & Hb). unfold class_is. simpl.
  rewrite lookup_update_node. destruct (decide (r = r0)); [congruence |].
  exists e. auto.
Qed.

Lemma hoare_send (I E : World -> Prop) (obj : Command) :
  (forall w s, I w -> I (set_ws s w)) ->
  hoare I (App.send obj) (fun _ => I) E.
Proof.
  intros HI w Hw. destruct (send_run obj w) as (s & -> & _). apply HI, Hw.
Qed.

Lemma showSetup_classes :
  hoare (fun w => present (by_id "view-setup") w /\ present (by_id "view-main") w)
        App.showSetup
        (fun _ w => currentView w = ViewSetup
                    /\ class_is (by_id "view-setup") "active" true w
                    /\ class_is (by_id "view-main") "active" false w)
        nothing_thrown.
Proof.
  unfold App.showSetup.
  eapply hoare_bind
    with (R := fun _ w => currentView w = ViewSetup
                          /\ present (by_id "view-setup") w
                          /\ present (by_id "view-main") w).
  { apply hoare_modify. intros w [H1 H2]. auto. }
  intros ?. apply hoare_getEl_bind_found; [intros w Hw; apply Hw |].
  apply hoare_deref_some_bind. eapply hoare_bind
    with (R := fun _ w => currentView w = ViewSetup
                          /\ class_is (by_id "view-setup") "active" true w
                          /\ present (by_id "view-main") w).
  { apply hoare_modify. intros w (Hv & Hs & Hm). split; [exact Hv | split].
    - apply class_is_set; [exact Hs |]. intros e. rewrite classList_add_spec. tauto.
    - apply stable_present. exact Hm. }
  intros ?. apply hoare_getEl_bind_found; [intros w Hw; apply Hw |].
  apply hoare_deref_some_bind. eapply hoare_bind
    with (R := fun _ w => currentView w = ViewSetup
                          /\ class_is (by_id "view-setup") "active" true w
                          /\ class_is (by_id "view-main") "active" false w).
  { apply hoare_modify. intros w (Hv & Hs & Hm). split; [exact Hv | split].
    - apply class_is_other; [apply by_id_neq; discriminate | exact Hs].
    - apply class_is_set; [exact Hm |]. intros e. rewrite classList_remove_spec.
      split; [intros [_ H]; congruence | discriminate]. }
  intros ?. apply hoare_send. intros w s H. exact H.
Qed.

Lemma showMain_classes :
  hoare (fun w => present (by_id "view-setup") w /\ present (by_id "view-main") w)
        App.showMain
        (fun _ w => currentView w = ViewMain
                    /\ class_is (by_id "view-main") "active" true w
                    /\ class_is (by_id "view-setup") "active" false w)
        nothing_thrown.
Proof.
  unfold App.showMain.
  eapply hoare_bind
    with (R := fun _ w => currentView w = ViewMain
                          /\ present (by_id "view-setup") w
                          /\ present (by_id "view-main") w).
  { apply hoare_modify. intros w [H1 H2]. auto. }
  intros ?. apply hoare_getEl_bind_found; [intros w Hw; apply Hw |].
  apply hoare_deref_some_bind. eapply hoare_bind
    with (R := fun _ w => currentView w = ViewMain
                          /\ present (by_id "view-setup") w
                          /\ class_is (by_id "view-main") "active" true w).
  { apply hoare_modify. intros w (Hv & Hs & Hm). split; [exact Hv | split].
    - apply stable_present. exact Hs.
    - apply class_is_set; [exact Hm |]. intros e. rewrite classList_add_spec. tauto. }
  intros ?. apply hoare_getEl_bind_found; [intros w Hw; apply Hw |].
  apply hoare_deref_some_bind. apply hoare_modify. intros w (Hv & Hs & Hm). split; [exact Hv | split].
  - apply class_is_other; [apply by_id_neq; discriminate | exact Hm].
  - apply class_is_set; [exact Hs |]. intros e. rewrite classList_remove_spec.
    split; [intros [_ H]; congruence | discriminate].
Qed.

(** X5.  On a page that holds both views, handling [toggle_view] returns
    and leaves the page in step with [currentView]: the element of the new
    current view carries the class [active], the other view does not. *)
Theorem toggle_view_keeps_views_in_step
        (call : Listener -> Msg -> M unit) (msg : Msg) (w : World) :
  msg_type msg = Some "toggle_view" ->
  present (by_id "view-setup") w ->
  present (by_id "view-main") w ->
  let w' := world_after (App.dispatch call msg) w in
  completes_normally (App.dispatch call msg) w
  /\ currentView w' <> currentView w
  /\ match currentView w' with
     | ViewMain => class_is (by_id "view-main") "active" true w'
                   /\ class_is (by_id "view-setup") "active" false w'
     | ViewSetup => class_is (by_id "view-setup") "active" true w'
                    /\ class_is (by_id "view-main") "active" false w'
     end.
Proof.
  intros Ht Hs Hm w'. subst w'.
  assert (App.dispatch call msg w
          = match currentView w with
            | ViewMain => App.showSetup w
            | ViewSetup => App.showMain w
            end) as Hd.
  { unfold App.dispatch. rewrite Ht.
    rewrite bool_decide_eq_true_2 by reflexivity.
    unfold bind, gets. destruct (currentView w); reflexivity. }
  unfold world_after, completes_normally, completion_of. rewrite Hd.
  destruct (currentView w) eqn:Ev.
  - pose proof (showSetup_classes w (conj Hs Hm)) as H.
    destruct (App.showSetup w) as [w1 [[] | e]]; [| destruct H].
    destruct H as (Hv & H1 & H2). simpl. rewrite Hv.
    split; [eauto | split; [discriminate | auto]].
  - pose proof (showMain_classes w (conj Hs Hm)) as H.
    destruct (App.showMain w) as [w1 [[] | e]]; [| destruct H].
    destruct H as (Hv & H1 & H2). simpl. rewrite Hv.
    split; [eauto | split; [discriminate | auto]].
Qed.

(** X6.  [App.on(type, fn)], for a type that is no inherited property name,
    returns, puts [fn] at the end of the listeners of [type] and leaves the
    listeners of every other type as they were. *)
Theorem on_appends_listener (type : string) (fn : Listener) (w : World) :
  type ∉ App.object_prototype_keys ->
  let w' := world_after (App.on type fn) w in
  completes_normally (App.on type fn) w
  /\ App.own_property type (listeners w')
     = Some (default [] (App.own_property type (listeners w)) ++ [fn])%list
  /\ (forall k, k <> type ->
        App.own_property k (listeners w') = App.own_property k (listeners w)).
Proof.
  intros Hk w'. subst w'.
  unfold world_after, completes_normally, completion_of, App.on, bind, gets.
  cbv beta iota. unfold App.own_property.
  destruct (listeners w !! type) as [l |] eqn:El.
  - simpl. split; [eauto | split].
    + rewrite lookup_insert_eq. reflexivity.
    + intros k Hne. rewrite lookup_insert_ne by congruence. reflexivity.
  - rewrite bool_decide_eq_false_2 by exact Hk. simpl. split; [eauto | split].
    + rewrite lookup_insert_eq. reflexivity.
    + intros k Hne. rewrite lookup_insert_ne by congruence. reflexivity.
Qed.

(** X7.  A message whose [type] is an inherited property name of the
    listener table ([constructor], [toString], ...) and has no listener of
    its own makes [dispatch] throw at once: the world is unchanged and no
    listener runs, the ['*'] listeners included. *)
Theorem dispatch_inherited_type_throws
        (call : Listener -> Msg -> M unit) (msg : Msg) (k : string) (w : World) :
  msg_type msg = Some k ->
  k ∈ App.object_prototype_keys ->
  App.own_property k (listeners w) = None ->
  App.dispatch call msg w = (w, Throw (TypeError "forEach is not a function")).
Proof.
  intros Ht Hk Hown.
  assert (App.listeners_of k w = (w, Throw (TypeError "forEach is not a function")))
    as Hl.
  { unfold App.listeners_of, bind, gets. rewrite Hown.
    rewrite bool_decide_eq_true_2 by exact Hk. reflexivity. }
  unfold App.dispatch. rewrite Ht.
  rewrite bool_decide_eq_false_2.
  - unfold bind, App.type_key. rewrite Hl. reflexivity.
  - intros Heq. injection Heq as ->. revert Hk.
    unfold App.object_prototype_keys. rewrite !elem_of_cons, elem_of_nil.
    intuition discriminate.
Qed.

Lemma send_each_from_open (cmds : list Command) (i : nat) (w : World) (sock : WebSocket) :
  ws w = Some sock -> readyState sock = OPEN ->
  forEach_from i cmds (fun c _ => App.send c) w
  = (set_ws (Some (mkWebSocket OPEN (sent sock ++ cmds))) w, Normal tt).
Proof.
  revert i w sock. induction cmds as [| c cmds IH]; intros i w sock Hws Hopen.
  - simpl. unfold ret. rewrite app_nil_r. f_equal.
    destruct w, sock; simpl in *. subst. reflexivity.
  - simpl. unfold bind. rewrite (send_open c w sock Hws Hopen).
    rewrite (IH (S i) _ (mkWebSocket OPEN (sent sock ++ [c]))) by reflexivity.
    simpl. rewrite <- app_assoc. destruct w; reflexivity.
Qed.

(** X8.  Commands sent one after the other on an open socket are written
    to it in that order, after the frames already there, and the socket
    stays open. *)
Theorem send_each_in_order (cmds : list Command) (w : World) (sock : WebSocket) :
  ws w = Some sock -> readyState sock = OPEN ->
  completes_normally (send_each cmds) w
  /\ ws (world_after (send_each cmds) w)
     = Some (mkWebSocket OPEN (sent sock ++ cmds)).
Proof.
  intros Hws Hopen.
  unfold completes_normally, completion_of, world_after, send_each, forEach.
  rewrite (send_each_from_open cmds 0 w sock Hws Hopen). simpl. eauto.
Qed.

End ViewsAndListeners.

Lemma toggle_view_keeps_views_in_step_witness :
  msg_type toggle_view_msg = Some "toggle_view"
  /\ present (by_id "view-setup") sample_world
  /\ present (by_id "view-main") sample_world
  /\ completes_normally (App.dispatch no_listeners toggle_view_msg) sample_world.
Proof.
  assert (msg_type toggle_view_msg = Some "toggle_view") as Ht by reflexivity.
  assert (present (by_id "view-setup") sample_world) as Hs by (vm_compute; eauto).
  assert (present (by_id "view-main") sample_world) as Hm by (vm_compute; eauto).
  split; [exact Ht | split; [exact Hs | split; [exact Hm |]]].
  exact (proj1 (toggle_view_keeps_views_in_step no_listeners toggle_view_msg
                                                sample_world Ht Hs Hm)).
Defined.

Lemma on_appends_listener_witness :
  ("sensor_update" ∉ App.object_prototype_keys)
  /\ App.own_property "sensor_update"
       (listeners (world_after (App.on "sensor_update" 7%nat) sample_world))
     = Some (default [] (App.own_property "sensor_update" (listeners sample_world))
             ++ [7%nat])%list.
Proof.
  assert ("sensor_update" ∉ App.object_prototype_keys) as H.
  { unfold App.object_prototype_keys. rewrite !not_elem_of_cons.
    repeat split; try discriminate. apply not_elem_of_nil. }
  split; [exact H |].
  exact (proj1 (proj2 (on_appends_listener "sensor_update" 7%nat sample_world H))).
Defined.

Lemma dispatch_inherited_type_throws_witness :
  msg_type (mkMsg (Some "constructor") None None) = Some "constructor"
  /\ ("constructor" ∈ App.object_prototype_keys)
  /\ App.own_property "constructor" (listeners sample_world) = None
  /\ App.dispatch no_listeners (mkMsg (Some "constructor") None None) sample_world
     = (sample_world, Throw (TypeError "forEach is not a function")).
Proof.
  assert (msg_type (mkMsg (Some "constructor") None None) = Some "constructor") as Ht
    by reflexivity.
  assert ("constructor" ∈ App.object_prototype_keys) as Hk
    by (unfold App.object_prototype_keys; rewrite !elem_of_cons; auto).
  assert (App.own_property "constructor" (listeners sample_world) = None) as Ho
    by reflexivity.
  split; [exact Ht | split; [exact Hk | split; [exact Ho |]]].
  exact (dispatch_inherited_type_throws no_listeners _ "constructor" sample_world Ht Hk Ho).
Defined.

Lemma send_each_in_order_witness :
  ws sample_world = Some (mkWebSocket OPEN [])
  /\ readyState (mkWebSocket OPEN []) = OPEN
  /\ ws (world_after (send_each [CmdWifiScan; CmdGetStatus]) sample_world)
     = Some (mkWebSocket OPEN ([] ++ [CmdWifiScan; CmdGetStatus])).
Proof.
  assert (ws sample_world = Some (mkWebSocket OPEN [])) as H1 by reflexivity.
  assert (readyState (mkWebSocket OPEN []) = OPEN) as H2 by reflexivity.
  split; [exact H1 | split; [exact H2 |]].
  exact (proj2 (send_each_in_order [CmdWifiScan; CmdGetStatus] sample_world _ H1 H2)).
Defined.

(** ** More on the vertical scale (dashboard.js, [computeYMax]) *)

Section ScaleProperties.

Local Open Scope Q_scope.

Lemma double_of_115 : double_of (115 # 100) = c115.
Proof. vm_compute. reflexivity. Qed.

(** X9.  [computeYMax] leaves 15% of headroom above every value, up to
    the rounding of the two doubles involved, and is the least scale that
    does: any multiple [k / 4] of 0.25 below [2^51] that is at least 1
    and at least every value times the double written [1.15] is at least
    [computeYMax], which is finite then. *)
Theorem computeYMax_least (values : list Q) (k : Z) :
  (4 <= k < 2 ^ 53)%Z ->
  (forall v, In v values -> v * double_of (115 # 100) <= inject_Z k * (1 # 4)) ->
  exists yMax : Q,
    Dashboard.computeYMax values = Finite yMax
    /\ (forall v, In v values -> v * (115 # 100) * (1 - pow2 (-52)) <= yMax)
    /\ yMax <= inject_Z k * (1 # 4).
Proof.
  intros [Hk4 Hk53] Hall. rewrite double_of_115 in Hall.
  set (M := inject_Z k / 4).
  assert (M == inject_Z k * (1 # 4)) as EM by reflexivity.
  assert (inject_Z 4 <= inject_Z k) as H4 by (rewrite <- Zle_Qle; exact Hk4).
  change (inject_Z 4) with 4 in H4.
  assert (inject_Z k <= inject_Z (2 ^ 53)) as H53 by (rewrite <- Zle_Qle; lia).
  change (inject_Z (2 ^ 53)) with 9007199254740992 in H53.
  assert (is_double M) as HdM by (apply is_double_quarter; lia).
  assert (1 <= M) as HM1 by lra.
  assert (M <= pow2 1021) as HMb.
  { assert (pow2 53 <= pow2 1021) as H by (apply pow2_le; lia).
    change (pow2 53) with 9007199254740992 in H. lra. }
  assert (largest values * c115 <= M) as Hmx.
  { destruct values as [| x xs]; cbn [largest]; [lra |].
    destruct (Math_max_spread_attained xs x) as (v & Hin & ->).
    rewrite EM. apply Hall, Hin. }
  destruct (computeYMax_below values M HdM HM1 HMb Hmx)
    as (r & n & Er & Hr1 & HrM & Ht & _ & -> & Ey).
  destruct (quarter_bounds r) as [Hq _].
  set (yMax := Qred (inject_Z (Qceiling (r * 4)) / 4)) in *.
  assert (yMax == inject_Z (Qceiling (r * 4)) / 4) as EyMax by apply Qred_correct.
  exists yMax. split; [exact Ey | split].
  - intros v Hv. pose proof (largest_upper values v Hv) as Hle.
    revert Hle Hmx Ht. generalize (largest values). intros mx Hle Hmx Ht.
    change (pow2 (-52)) with (1 # 4503599627370496).
    destruct (Qlt_le_dec (mx * c115) 1) as [Hs | Hb].
    + unfold c115 in *. destruct (Qlt_le_dec mx 0); lra.
    + assert (0 <= mx * c115) as Hx0 by lra.
      destruct (round_double_bounded _ _ Hx0 Hmx HdM) as (t & Et & _).
      pose proof (Ht t Et) as Htr.
      pose proof (round_double_near _ _ Et Hx0) as [Hl _].
      assert (pow2 (-1075) <= 1 # 1267650600228229401496703205376) as P.
      { assert (pow2 (-100) == 1 # 1267650600228229401496703205376) as <- by reflexivity.
        apply pow2_le. lia. }
      revert Hl P. generalize (pow2 (-1075)). intros h Hl P.
      change (pow2 (-53)) with (1 # 9007199254740992) in Hl.
      unfold c115 in *. lra.
  - assert (r * 4 <= inject_Z k) as Hr4 by lra.
    pose proof (Qceiling_resp_le _ _ Hr4) as Hc. rewrite Qceiling_Z in Hc.
    rewrite Zle_Qle in Hc. rewrite EyMax.
    apply Qle_shift_div_r; [reflexivity | lra].
Qed.

(** *** The plotted height is monotone *)

Lemma Number_le_NegInfinity (a : Number) : a <> NaN -> Number_le NegInfinity a = true.
Proof. destruct a; cbn [Number_le]; congruence. Qed.

Lemma Number_le_PosInfinity (a : Number) : a <> NaN -> Number_le a PosInfinity = true.
Proof. destruct a; cbn [Number_le]; congruence. Qed.

Lemma Number_div_mono (a b : Number) (y : Q) :
  0 < y -> Number_le a b = true ->
  Number_le (Number_div a (Finite y)) (Number_div b (Finite y)) = true.
Proof.
  intros Hy Hab.
  assert (Qeq_bool y 0 = false) as E0.
  { destruct (Qeq_bool y 0) eqn:E; [apply Qeq_bool_eq in E; lra | reflexivity]. }
  assert (Qle_bool 0 y = true) as E1 by (apply Qle_bool_iff; lra).
  destruct a as [x | | |], b as [x' | | |]; cbn [Number_le] in Hab; try discriminate;
    cbn [Number_div]; rewrite ?E0, ?E1; cbn [signed_infinity negb];
    try reflexivity;
    try (apply Number_le_PosInfinity, round_double_not_NaN);
    try (apply Number_le_NegInfinity, round_double_not_NaN).
  apply Qle_bool_iff in Hab. apply round_double_mono.
  unfold Qdiv. apply Qmult_le_compat_r; [exact Hab |].
  apply Qlt_le_weak, Qinv_lt_0_compat, Hy.
Qed.

Lemma Number_round_mono (a b : Number) :
  Number_le a b = true -> Number_le (Number_round a) (Number_round b) = true.
Proof.
  destruct a as [x | | |], b as [x' | | |]; cbn [Number_le Number_round];
    try discriminate; try reflexivity.
  intros H. apply Qle_bool_iff in H. apply Qle_bool_iff.
  rewrite <- Zle_Qle. apply Qfloor_resp_le. lra.
Qed.

Lemma Number_sub_antimono (c : Q) (a b : Number) :
  Number_le a b = true ->
  Number_le (Number_sub (Finite c) b) (Number_sub (Finite c) a) = true.
Proof.
  unfold Number_sub.
  destruct a as [x | | |], b as [x' | | |]; cbn [Number_le Number_opp Number_add];
    try discriminate; try reflexivity; intros H;
    try (apply Number_le_PosInfinity, round_double_not_NaN);
    try (apply Number_le_NegInfinity, round_double_not_NaN).
  apply Qle_bool_iff in H. apply round_double_mono. lra.
Qed.

Lemma y_of_value_mono (ph : Z) (yMax v v' : Q) :
  (0 <= ph)%Z -> 0 < yMax -> v <= v' ->
  Number_le (Dashboard.y_of_value ph (Finite yMax) (Finite v'))
            (Dashboard.y_of_value ph (Finite yMax) (Finite v)) = true.
Proof.
  intros Hph Hy Hv. unfold Dashboard.y_of_value, Dashboard.zq.
  apply Number_sub_antimono, Number_round_mono, Number_div_mono; [exact Hy |].
  cbn [Number_mul]. apply round_double_mono.
  assert (0 <= inject_Z ph) as Ha by (rewrite (Zle_Qle 0 ph) in Hph; exact Hph).
  rewrite !(Qmult_comm (inject_Z ph)). apply Qmult_le_compat_r; assumption.
Qed.

Lemma Qfloor_half_integer (w : Q) (z : Z) :
  inject_Z z - (1 # 4) <= w <= inject_Z z + (1 # 4) -> Qfloor (w + (1 # 2)) = z.
Proof.
  intros [Hl Hu].
  pose proof (Qfloor_le (w + (1 # 2))) as H1.
  pose proof (Qlt_floor (w + (1 # 2))) as H2.
  rewrite inject_Z_plus in H2. change (inject_Z 1) with 1 in H2.
  assert (inject_Z (Qfloor (w + (1 # 2))) < inject_Z (z + 1)) as A
    by (rewrite inject_Z_plus; change (inject_Z 1) with 1; lra).
  assert (inject_Z z < inject_Z (Qfloor (w + (1 # 2)) + 1)) as B
    by (rewrite inject_Z_plus; change (inject_Z 1) with 1; lra).
  rewrite <- Zlt_Qlt in A, B. lia.
Qed.

(** X10.  The vertical placement of a value on a plot area of a height
    below [2^31]: zero lies on the baseline [py + ph], the full scale
    [yMax] on the top edge [py] (for a scale from 1, as [computeYMax]
    returns, up to [2^990]), and a larger value is never drawn lower than
    a smaller one. *)
Theorem y_of_value_scale (ph : Z) (yMax v v' : Q) :
  (0 <= ph < 2 ^ 31)%Z -> 0 < yMax -> v <= v' ->
  Dashboard.y_of_value ph yMax 0 = Finite (inject_Z (Dashboard.plot_y + ph))
  /\ (1 <= yMax -> yMax <= pow2 990 ->
      Dashboard.y_of_value ph yMax yMax = Finite (inject_Z Dashboard.plot_y))
  /\ Number_le (Dashboard.y_of_value ph yMax v') (Dashboard.y_of_value ph yMax v) = true.
Proof.
  intros [Hp0 Hp1] Hpos Hv.
  assert (Qeq_bool yMax 0 = false) as Ey0.
  { destruct (Qeq_bool yMax 0) eqn:E; [apply Qeq_bool_eq in E; lra | reflexivity]. }
  assert (0 <= inject_Z ph) as Ha by (rewrite (Zle_Qle 0 ph) in Hp0; exact Hp0).
  assert (inject_Z ph <= inject_Z (2 ^ 31)) as Hb by (rewrite <- Zle_Qle; lia).
  split; [| split].
  - unfold Dashboard.y_of_value, Dashboard.zq. cbn [Number_mul].
    rewrite (round_double_0 (inject_Z ph * 0)) by ring.
    cbn [Number_div]. rewrite Ey0.
    rewrite (round_double_0 (0 / yMax)) by (unfold Qdiv; ring).
    cbn [Number_round]. change (Qfloor (0 + (1 # 2))) with 0%Z.
    rewrite Number_sub_Z by (change Dashboard.plot_y with 20%Z; lia).
    f_equal. f_equal. lia.
  - intros H1 Hbig.
    assert (inject_Z ph * yMax <= pow2 1021) as Hx.
    { assert (pow2 1021 == pow2 31 * pow2 990) as -> by (rewrite <- pow2_add; reflexivity).
      change (inject_Z (2 ^ 31)) with (pow2 31) in Hb.
      pose proof (pow2_pos 31). 
      assert (inject_Z ph * yMax <= pow2 31 * yMax) as A
        by (apply Qmult_le_compat_r; lra).
      assert (pow2 31 * yMax <= pow2 31 * pow2 990) as B
        by (rewrite !(Qmult_comm (pow2 31)); apply Qmult_le_compat_r; lra).
      lra. }
    destruct (mul_div_near (inject_Z ph) yMax yMax Ha ltac:(lra) H1 Hx)
      as (u & w & Eu & Ew & Hw0 & Herr).
    assert (inject_Z ph * yMax / yMax == inject_Z ph) as ET by (field; lra).
    rewrite ET in Herr. apply Qabs_Qle_condition in Herr.
    assert (pow2 (-1073) <= pow2 (-51)) as Ptiny by (apply pow2_le; lia).
    change (pow2 (-51)) with (1 # 2251799813685248) in *.
    change (inject_Z (2 ^ 31)) with 2147483648 in Hb.
    revert Herr Ptiny. generalize (pow2 (-1073)). intros h Herr Ptiny.
    assert (Qfloor (w + (1 # 2)) = ph) as Ek by (apply Qfloor_half_integer; lra).
    unfold Dashboard.y_of_value, Dashboard.zq. cbn [Number_mul]. rewrite Eu.
    cbn [Number_div]. rewrite Ey0, Ew. cbn [Number_round]. rewrite Ek.
    rewrite Number_sub_Z by (change Dashboard.plot_y with 20%Z; lia).
    f_equal. f_equal. lia.
  - apply y_of_value_mono; [exact Hp0 | exact Hpos | exact Hv].
Qed.

(** The top edge is lost where [ph * yMax] overflows: the quotient is
    [Infinity] and the height [-Infinity]. *)
Lemma y_of_value_overflow :
  Dashboard.y_of_value 282 (pow2 1020) (pow2 1020) = NegInfinity.
Proof. vm_compute. reflexivity. Qed.

End ScaleProperties.

Lemma computeYMax_least_witness :
  (4 <= 6 < 2 ^ 53)%Z
  /\ (forall v, In v [(41 # 100)%Q; strong_reading] ->
        (v * double_of (115 # 100) <= inject_Z 6 * (1 # 4))%Q)
  /\ exists yMax : Q,
       Dashboard.computeYMax [(41 # 100)%Q; strong_reading] = Finite yMax
       /\ (yMax <= inject_Z 6 * (1 # 4))%Q
       /\ Dashboard.computeYMax [(41 # 100)%Q; strong_reading] = Finite (5 # 4).
Proof.
  assert (4 <= 6 < 2 ^ 53)%Z as Hk by lia.
  assert (forall v, In v [(41 # 100)%Q; strong_reading] ->
            (v * double_of (115 # 100) <= inject_Z 6 * (1 # 4))%Q) as Hall.
  { intros v [<- | [<- | []]]; vm_compute; discriminate. }
  split; [exact Hk | split; [exact Hall |]].
  destruct (computeYMax_least _ 6 Hk Hall) as (yMax & Ey & _ & Hle).
  exists yMax. split; [exact Ey | split; [exact Hle |]].
  vm_compute. reflexivity.
Defined.

Lemma y_of_value_scale_witness :
  (0 <= 282 < 2 ^ 31)%Z /\ (0 < 5 # 4)%Q /\ (2 # 10 <= 7 # 10)%Q
  /\ Dashboard.y_of_value 282 (5 # 4) 0 = Finite 302
  /\ Dashboard.y_of_value 282 (5 # 4) (5 # 4) = Finite 20
  /\ Number_le (Dashboard.y_of_value 282 (5 # 4) (7 # 10))
               (Dashboard.y_of_value 282 (5 # 4) (2 # 10)) = true.
Proof.
  assert (0 <= 282 < 2 ^ 31)%Z as H1 by lia.
  assert (0 < 5 # 4)%Q as H2 by reflexivity.
  assert (2 # 10 <= 7 # 10)%Q as H3 by (vm_compute; discriminate).
  split; [exact H1 | split; [exact H2 | split; [exact H3 |]]].
  destruct (y_of_value_scale 282 (5 # 4) (2 # 10) (7 # 10) H1 H2 H3) as (E0 & Etop & Hmono).
  split; [exact E0 | split; [| exact Hmono]].
  apply Etop; [vm_compute; discriminate |].
  assert (pow2 1 <= pow2 990)%Q as H by (apply pow2_le; lia).
  eapply Qle_trans; [| exact H]. vm_compute. discriminate.
Defined.

(** ** More on the chart (dashboard.js, [renderChart]) *)

Section ChartContents.

Context `{host : Host}.

Lemma chart_log_draw_inv (log0 : list DrawCmd) (P : list DrawCmd -> Prop)
      (cmds : list DrawCmd) (E : World -> Prop) :
  (forall ops, P ops -> P (ops ++ cmds)%list) ->
  hoare (chart_log log0 P) (Dashboard.draw cmds) (fun _ => chart_log log0 P) E.
Proof. apply chart_log_draw. Qed.

Lemma cleared_once_keeps (cw ch : Z) (cmds : list DrawCmd) :
  Forall (fun c => is_clear c = false) cmds ->
  forall ops, cleared_once cw ch ops -> cleared_once cw ch (ops ++ cmds)%list.
Proof.
  intros Hc ops (rest & -> & Hr). exists (rest ++ cmds)%list.
  split; [reflexivity | apply Forall_app; split; assumption].
Qed.

Lemma no_data_drawn_keeps (cmds : list DrawCmd) :
  Forall (fun c => data_mark c = false) cmds ->
  forall ops, no_data_drawn ops -> no_data_drawn (ops ++ cmds)%list.
Proof. intros Hc ops Ho. apply Forall_app; split; assumption. Qed.

Lemma hoare_last_entry_bind {A B} (P : World -> Prop) (what : string) (arr : list A)
      (a : A) (k : A -> M B) (Q : B -> World -> Prop) E :
  last arr = Some a ->
  hoare P (k a) Q E ->
  hoare P (bind (Dashboard.last_entry what arr) k) Q E.
Proof.
  intros Hl Hk w Hw. unfold bind, Dashboard.last_entry. rewrite Hl. simpl.
  apply Hk, Hw.
Qed.

Lemma last_map_Some {A B} (f : A -> B) (l : list A) (a : A) :
  last l = Some a -> last (map f l) = Some (f a).
Proof.
  induction l as [| x [| y rest] IH]; simpl; intros H.
  - discriminate.
  - congruence.
  - apply IH, H.
Qed.

(** X11.  Until the canvas has a context and a size, [renderChart] does
    nothing at all. *)
Theorem renderChart_needs_canvas (d : SensorData) (w : World) :
  ctx w = None \/ chartW w = None \/ chartW w = Some 0%Z
  \/ chartH w = None \/ chartH w = Some 0%Z ->
  Dashboard.renderChart d w = (w, Normal tt).
Proof.
  intros H. unfold Dashboard.renderChart.
  unfold bind at 1. unfold gets at 1. unfold bind at 1. unfold gets at 1.
  unfold bind at 1. unfold gets at 1.
  destruct (ctx w) as [c |]; destruct (chartW w) as [cw |];
    destruct (chartH w) as [ch |]; try reflexivity.
  destruct H as [H | [H | [H | [H | H]]]]; try discriminate;
    injection H as ->; [| rewrite orb_true_r]; reflexivity.
Qed.

Lemma renderChart_cleared_log (d : SensorData) (log : list DrawCmd) (cw ch : Z) :
  cw <> 0%Z -> ch <> 0%Z ->
  hoare (canvas_ready log cw ch) (Dashboard.renderChart d)
        (fun _ => chart_log log (cleared_once cw ch)) nothing_thrown.
Proof.
  intros Hcw Hch. unfold Dashboard.renderChart.
  apply hoare_gets_bind_val with (a0 := Some log); [intros w Hw; apply Hw |].
  apply hoare_gets_bind_val with (a0 := Some cw); [intros w Hw; apply Hw |].
  apply hoare_gets_bind_val with (a0 := Some ch); [intros w Hw; apply Hw |].
  cbv beta iota.
  replace ((cw =? 0) || (ch =? 0))%Z with false
    by (symmetry; apply orb_false_iff; split; apply Z.eqb_neq; assumption).
  apply hoare_gets_bind_any. intros now.
  eapply hoare_pre with (P' := chart_log log (eq []));
    [| intros w (Hc & _ & _); exists []; rewrite app_nil_r; split; [exact Hc | reflexivity]].
  cbv zeta.
  eapply hoare_bind;
    [ apply chart_log_draw with (P' := cleared_once cw ch);
      intros ops <-; exists []; split; [reflexivity | constructor]
    | intros ? ].
  repeat chart_step
    ltac:(apply chart_log_draw_inv; apply cleared_once_keeps; repeat constructor).
Qed.

(** X12.  On a canvas that can be drawn on, every render starts by wiping
    the whole canvas, [clearRect(0, 0, chartW, chartH)], and wipes nothing
    after that: what it draws stays. *)
Theorem renderChart_clears_first (d : SensorData) (w : World)
        (log : list DrawCmd) (cw ch : Z) :
  canvas_ready log cw ch w ->
  cw <> 0%Z -> ch <> 0%Z ->
  exists ops : list DrawCmd,
    ctx (world_after (Dashboard.renderChart d) w)
    = Some (log ++ ClearRect 0 0 (inject_Z cw) (inject_Z ch) :: ops)%list
    /\ Forall (fun c => is_clear c = false) ops.
Proof.
  intros Hready Hcw Hch.
  pose proof (renderChart_cleared_log d log cw ch Hcw Hch w Hready) as H.
  unfold world_after.
  destruct (Dashboard.renderChart d w) as [w1 [a | e]]; [| destruct H].
  destruct H as (ops & Hc & rest & -> & Hr).
  exists rest. split; [exact Hc | exact Hr].
Qed.

Lemma renderChart_short_log (d : SensorData) (log : list DrawCmd) (cw ch : Z) :
  (length (history d) <? 2)%nat = true ->
  hoare (canvas_ready log cw ch) (Dashboard.renderChart d)
        (fun _ => chart_log log no_data_drawn) nothing_thrown.
Proof.
  intros Hlen. unfold Dashboard.renderChart.
  apply hoare_gets_bind_val with (a0 := Some log); [intros w Hw; apply Hw |].
  apply hoare_gets_bind_val with (a0 := Some cw); [intros w Hw; apply Hw |].
  apply hoare_gets_bind_val with (a0 := Some ch); [intros w Hw; apply Hw |].
  cbv beta iota.
  eapply hoare_pre with (P' := chart_log log no_data_drawn);
    [| intros w (Hc & _ & _); exists []; rewrite app_nil_r; split; [exact Hc | constructor]].
  destruct ((cw =? 0) || (ch =? 0))%Z; [apply hoare_ret; auto |].
  apply hoare_gets_bind_any. intros now.
  cbv zeta.
  repeat
    first
      [ lazymatch goal with
        | |- hoare _ (if (length _ <? 2)%nat then _ else _) _ _ =>
            rewrite Hlen; apply hoare_ret; auto
        end
      | chart_step
          ltac:(apply chart_log_draw_inv; apply no_data_drawn_keeps; repeat constructor) ].
Qed.

(** X13.  With fewer than two points in the history, a render draws the
    frame of the chart only: no area is filled and no dot is drawn for
    the current value. *)
Theorem renderChart_short_history (d : SensorData) (w : World)
        (log : list DrawCmd) (cw ch : Z) :
  canvas_ready log cw ch w ->
  (length (history d) < 2)%nat ->
  completes_normally (Dashboard.renderChart d) w
  /\ exists ops : list DrawCmd,
       ctx (world_after (Dashboard.renderChart d) w) = Some (log ++ ops)%list
       /\ Forall (fun c => data_mark c = false) ops.
Proof.
  intros Hready Hlen.
  assert ((length (history d) <? 2)%nat = true) as Hb by (apply Nat.ltb_lt; exact Hlen).
  pose proof (renderChart_short_log d log cw ch Hb w Hready) as H.
  unfold world_after, completes_normally, completion_of.
  destruct (Dashboard.renderChart d w) as [w1 [a | e]]; [| destruct H].
  split; [eauto | exact H].
Qed.

Lemma renderChart_value_log (d : SensorData) (log : list DrawCmd) (cw ch : Z)
      (p : Z * Q) :
  cw <> 0%Z -> ch <> 0%Z ->
  (length (history d) <? 2)%nat = false ->
  last (history d) = Some p ->
  let q := Dashboard.point_of (Dashboard.plot_w cw) (Dashboard.plot_h ch)
                              (Dashboard.computeYMax (map snd (history d))) p in
  hoare (canvas_ready log cw ch) (Dashboard.renderChart d)
        (fun _ => chart_log log
                    (ends_with_value (fst q) (snd q) (toFixed (snd p) 3 +:+ "g")))
        nothing_thrown.
Proof.
  intros Hcw Hch Hlen Hlast q. unfold Dashboard.renderChart.
  apply hoare_gets_bind_val with (a0 := Some log); [intros w Hw; apply Hw |].
  apply hoare_gets_bind_val with (a0 := Some cw); [intros w Hw; apply Hw |].
  apply hoare_gets_bind_val with (a0 := Some ch); [intros w Hw; apply Hw |].
  cbv beta iota.
  replace ((cw =? 0) || (ch =? 0))%Z with false
    by (symmetry; apply orb_false_iff; split; apply Z.eqb_neq; assumption).
  apply hoare_gets_bind_any. intros now.
  eapply hoare_pre with (P' := chart_log log (fun _ => True));
    [| intros w (Hc & _ & _); exists []; rewrite app_nil_r; split; [exact Hc | exact I]].
  cbv zeta.
  pose proof (last_map_Some
                (Dashboard.point_of (Dashboard.plot_w cw) (Dashboard.plot_h ch)
                   (Dashboard.computeYMax (map snd (history d))))
                _ _ Hlast) as Hlastp.
  fold q in Hlastp.
  repeat
    first
      [ lazymatch goal with
        | |- hoare _ (if (length _ <? 2)%nat then _ else _) _ _ => rewrite Hlen
        | |- hoare _ (bind (Dashboard.last_entry _ (history d)) _) _ _ =>
            apply hoare_last_entry_bind with (a := p); [exact Hlast |]
        | |- hoare _ (bind (Dashboard.last_entry _ _) _) _ _ =>
            apply hoare_last_entry_bind with (a := q); [exact Hlastp |]
        | |- hoare _ (bind (Dashboard.draw (BeginPath :: ArcFull _ _ _ :: _)) _) _ _ =>
            eapply hoare_bind;
            [ apply chart_log_draw
                with (P' := fun ops => exists pre, ops = (pre ++ value_dot (fst q) (snd q))%list);
              intros ops _; exists ops; reflexivity
            | intros ? ]
        | |- hoare _ (Dashboard.draw (SetFillStyle "#dce1e6" :: _)) _ _ =>
            apply chart_log_draw; intros ops [pre ->]; exists pre; eexists;
            rewrite <- app_assoc; reflexivity
        end
      | chart_step ltac:(apply chart_log_draw_inv; auto) ].
Qed.

(** X14.  With at least two points in the history, a render ends with the
    dot of the current value and its label: the dot sits at the plotted
    position of the last entry of the history, and the label, five pixels
    above it, is the rms value of that entry with three decimals,
    followed by [g]. *)
Theorem renderChart_marks_last_value (d : SensorData) (w : World)
        (log : list DrawCmd) (cw ch : Z) (p : Z * Q) :
  canvas_ready log cw ch w ->
  cw <> 0%Z -> ch <> 0%Z ->
  (2 <= length (history d))%nat ->
  last (history d) = Some p ->
  let q := Dashboard.point_of (Dashboard.plot_w cw) (Dashboard.plot_h ch)
                              (Dashboard.computeYMax (map snd (history d))) p in
  exists pre lblX,
    ctx (world_after (Dashboard.renderChart d) w)
    = Some (log ++ pre ++ value_dot (fst q) (snd q)
                ++ [ SetFillStyle "#dce1e6";
                     FillText (toFixed (snd p) 3 +:+ "g") lblX
                              (Number_sub (snd q) 5) ])%list.
Proof.
  intros Hready Hcw Hch Hlen Hlast q.
  assert ((length (history d) <? 2)%nat = false) as Hb by (apply Nat.ltb_ge; exact Hlen).
  pose proof (renderChart_value_log d log cw ch p Hcw Hch Hb Hlast w Hready) as H.
  unfold world_after.
  destruct (Dashboard.renderChart d w) as [w1 [a | e]]; [| destruct H].
  destruct H as (ops & Hc & pre & lblX & ->).
  exists pre, lblX. exact Hc.
Qed.

End ChartContents.

Lemma renderChart_needs_canvas_witness :
  (ctx unsized_world = None \/ chartW unsized_world = None
   \/ chartW unsized_world = Some 0%Z
   \/ chartH unsized_world = None \/ chartH unsized_world = Some 0%Z)
  /\ @Dashboard.renderChart sample_host sample_data unsized_world
     = (unsized_world, Normal tt).
Proof.
  assert (ctx unsized_world = None \/ chartW unsized_world = None
          \/ chartW unsized_world = Some 0%Z
          \/ chartH unsized_world = None \/ chartH unsized_world = Some 0%Z) as H
    by (left; reflexivity).
  split; [exact H |].
  exact (@renderChart_needs_canvas sample_host sample_data unsized_world H).
Defined.

Lemma renderChart_clears_first_witness :
  canvas_ready [] 480 320 sample_world
  /\ 480%Z <> 0%Z /\ 320%Z <> 0%Z
  /\ exists ops : list DrawCmd,
       ctx (world_after (@Dashboard.renderChart sample_host sample_data) sample_world)
       = Some ([] ++ ClearRect 0 0 (inject_Z 480) (inject_Z 320) :: ops)%list
       /\ Forall (fun c => is_clear c = false) ops.
Proof.
  assert (canvas_ready [] 480 320 sample_world) as Hr by (repeat split).
  assert (480%Z <> 0%Z) as Hw by discriminate.
  assert (320%Z <> 0%Z) as Hh by discriminate.
  split; [exact Hr | split; [exact Hw | split; [exact Hh |]]].
  exact (@renderChart_clears_first sample_host sample_data sample_world
                                   [] 480 320 Hr Hw Hh).
Defined.

Lemma renderChart_short_history_witness :
  canvas_ready [] 480 320 sample_world
  /\ (length (history first_reading) < 2)%nat
  /\ completes_normally (@Dashboard.renderChart sample_host first_reading) sample_world.
Proof.
  assert (canvas_ready [] 480 320 sample_world) as Hr by (repeat split).
  assert (length (history first_reading) < 2)%nat as Hl by (simpl; lia).
  split; [exact Hr | split; [exact Hl |]].
  exact (proj1 (@renderChart_short_history sample_host first_reading sample_world
                                           [] 480 320 Hr Hl)).
Defined.

Lemma renderChart_marks_last_value_witness :
  canvas_ready [] 480 320 sample_world
  /\ 480%Z <> 0%Z /\ 320%Z <> 0%Z
  /\ (2 <= length (history strong_data))%nat
  /\ last (history strong_data) = Some (602%Z, strong_reading)
  /\ exists pre lblX,
       ctx (world_after (@Dashboard.renderChart sample_host strong_data) sample_world)
       = Some ([] ++ pre
                  ++ [ BeginPath; ArcFull 201 57 5; SetFillStyle "#12161c"; Fill;
                       BeginPath; ArcFull 201 57 4; SetStrokeStyle "#00b4ff";
                       SetLineWidth 2; Stroke;
                       BeginPath; ArcFull 201 57 2; SetFillStyle "#fff"; Fill ]
                  ++ [ SetFillStyle "#dce1e6"; FillText "1.087g" lblX 52 ])%list.
Proof.
  assert (canvas_ready [] 480 320 sample_world) as Hr by (repeat split).
  assert (480%Z <> 0%Z) as Hw by discriminate.
  assert (320%Z <> 0%Z) as Hh by discriminate.
  assert (2 <= length (history strong_data))%nat as Hl by (simpl; lia).
  assert (last (history strong_data) = Some (602%Z, strong_reading)) as Hp by reflexivity.
  split; [exact Hr | split; [exact Hw | split; [exact Hh | split; [exact Hl |
    split; [exact Hp |]]]]].
  destruct (@renderChart_marks_last_value sample_host strong_data sample_world
                                          [] 480 320 _ Hr Hw Hh Hl Hp)
    as (pre & lblX & E).
  exists pre, lblX. rewrite E. vm_compute. reflexivity.
Defined.

(** ** More on the tiles (dashboard.js, [updateYAxis], [updateTiles]) *)

Section AxisAndBars.

Context `{host : Host}.

Lemma toFixed_2_zero (x : Q) : (x == 0)%Q -> toFixed x 2 = "0.00".
Proof.
  intros Hx. unfold toFixed.
  assert (Qabs x == 0)%Q as Ha by (rewrite Hx; reflexivity).
  destruct (Qle_bool (inject_Z (10 ^ 21)) (Qabs x)) eqn:Hbig.
  - apply Qle_bool_iff in Hbig. rewrite Ha in Hbig. vm_compute in Hbig.
    exfalso. apply Hbig. reflexivity.
  - rewrite (Qfloor_comp _ (1 # 2)) by (rewrite Ha; reflexivity).
    destruct (Qlt_le_dec x 0) as [Hneg | _]; [rewrite Hx in Hneg; discriminate |].
    reflexivity.
Qed.

Lemma children_after_append (r : NodeRef) (cs : list Child) (v : string)
      (E : World -> Prop) :
  hoare (children_are r cs) (write r (appendChild_span v))
        (fun _ => children_are r (cs ++ [SpanEl v])%list) E.
Proof.
  apply hoare_modify. intros w (e & He & Hc). unfold children_are. simpl.
  rewrite lookup_update_node. destruct (decide (r = r)); [| congruence].
  rewrite He. eexists. split; [reflexivity |]. simpl. rewrite Hc. reflexivity.
Qed.

Lemma updateYAxis_sets_labels (hist : list (Z * Q)) :
  hoare (present (by_id "chart-yaxis")) (Dashboard.updateYAxis hist)
        (fun _ => children_are (by_id "chart-yaxis")
                    (yaxis_labels (Dashboard.computeYMax (map snd hist))))
        nothing_thrown.
Proof.
  unfold Dashboard.updateYAxis. cbv zeta.
  apply hoare_getEl_bind_found; [intros w Hw; exact Hw |].
  eapply hoare_bind with (R := fun _ => children_are (by_id "chart-yaxis") []).
  { apply hoare_modify. intros w [e He]. unfold children_are. simpl.
    rewrite lookup_update_node.
    destruct (decide (by_id "chart-yaxis" = by_id "chart-yaxis")); [| congruence].
    rewrite He. eexists. split; reflexivity. }
  intros ?. unfold forEach, forEach_from.
  do 5 (eapply hoare_bind; [apply children_after_append | intros ?]).
  apply hoare_ret. intros w Hw. exact Hw.
Qed.

(** X15.  On a page with the element [chart-yaxis], [updateYAxis] returns
    and leaves exactly five labels in it, whatever it held before: the
    values [yMax * i / 4] for [i] from 4 down to 0, with two decimals,
    where [yMax] is [computeYMax] of the history's values.  The scale is
    finite or [Infinity]: on a finite scale the bottom label is [0.00];
    on the scale [Infinity] the labels read [Infinity] four times and
    [NaN]. *)
Theorem updateYAxis_labels (hist : list (Z * Q)) (w : World) :
  present (by_id "chart-yaxis") w ->
  let yMax := Dashboard.computeYMax (map snd hist) in
  let label := fun i : Z =>
    Number_toFixed (Number_div (Number_mul yMax (inject_Z i)) 4) 2 in
  completes_normally (Dashboard.updateYAxis hist) w
  /\ children_are (by_id "chart-yaxis")
                  [ SpanEl (label 4%Z); SpanEl (label 3%Z); SpanEl (label 2%Z);
                    SpanEl (label 1%Z); SpanEl (label 0%Z) ]
                  (world_after (Dashboard.updateYAxis hist) w)
  /\ ((exists y : Q, yMax = Finite y) \/ yMax = PosInfinity)
  /\ (forall y : Q, yMax = Finite y -> label 0%Z = "0.00")
  /\ (yMax = PosInfinity ->
      label 4%Z = "Infinity" /\ label 3%Z = "Infinity" /\ label 2%Z = "Infinity"
      /\ label 1%Z = "Infinity" /\ label 0%Z = "NaN").
Proof.
  intros Hp yMax label.
  pose proof (updateYAxis_sets_labels hist w Hp) as H.
  unfold completes_normally, completion_of, world_after.
  destruct (Dashboard.updateYAxis hist w) as [w1 [a | e]]; [| destruct H].
  split; [eauto | split; [exact H | split; [| split]]].
  - destruct (computeYMax_spec (map snd hist)) as [E | (r & n & _ & _ & _ & _ & E & _)];
      [right; exact E | left; eexists; exact E].
  - intros y Ey. subst label. cbv beta. rewrite Ey. cbn [Number_mul].
    rewrite (round_double_0 (y * inject_Z 0))
      by (change (inject_Z 0) with 0%Q; ring).
    cbn [Number_div]. change (Qeq_bool 4 0) with false. cbv iota.
    rewrite (round_double_0 (0 / 4)) by reflexivity.
    cbn [Number_toFixed]. apply toFixed_2_zero. reflexivity.
  - intros Ey. subst label. cbv beta. rewrite Ey. repeat split; reflexivity.
Qed.

(** *** The signal bars *)

Lemma keeps_classes_textContent s : keeps_classes (set_textContent s).
Proof. intros e. reflexivity. Qed.

Lemma keeps_classes_innerHTML s : keeps_classes (set_innerHTML s).
Proof. intros e. reflexivity. Qed.

Lemma keeps_classes_span v : keeps_classes (appendChild_span v).
Proof. intros e. reflexivity. Qed.

Lemma keeps_classes_style p v : keeps_classes (set_style p v).
Proof. intros e. reflexivity. Qed.

Lemma stable_bars_on_page r f : stable_under_write bars_on_page r f.
Proof.
  intros w [Hnd Hall]. split; [exact Hnd |].
  intros r0 Hr0. apply stable_present. apply Hall, Hr0.
Qed.

Lemma stable_bars_show (n : nat) r f :
  keeps_classes f -> stable_under_write (bars_show n) r f.
Proof.
  intros Hk w Hs i r0 Hi. destruct (Hs i r0 Hi) as (e & He & Hb).
  unfold class_is. simpl. rewrite lookup_update_node.
  destruct (decide (r = r0)) as [-> |].
  - rewrite He. exists (f e). split; [reflexivity |]. rewrite (Hk e). exact Hb.
  - exists e. auto.
Qed.

Lemma toggle_on_spec (b : bool) (e : Element) :
  "on" ∈ classes (classList_toggle "on" b e) <-> b = true.
Proof.
  unfold classList_toggle. destruct b.
  - rewrite classList_add_spec. tauto.
  - rewrite classList_remove_spec. split; [intros [_ H]; congruence | discriminate].
Qed.

(** The loop over the bars, from position [i] on. *)
Lemma bars_loop (n : nat) (bars : list NodeRef) (E : World -> Prop) :
  forall (els : list NodeRef) (i : nat),
    drop i bars = els ->
    hoare (fun w => sel_signal_bars (page w) = bars
                    /\ bars_on_page w
                    /\ forall j r, (j < i)%nat -> bars !! j = Some r ->
                                   class_is r "on" (j <? n)%nat w)
          (forEach_from i els
             (fun el i => write el (classList_toggle "on" (i <? n)%nat)))
          (fun _ => bars_show n) E.
Proof.
  induction els as [| x rest IH]; intros i Hdrop; simpl.
  - apply hoare_ret. intros w (Hsel & _ & Hdone) j r Hj. rewrite Hsel in Hj.
    apply Hdone; [| exact Hj].
    apply lookup_lt_Some in Hj.
    assert (length (drop i bars) = 0%nat) as Hl by (rewrite Hdrop; reflexivity).
    rewrite length_drop in Hl. lia.
  - assert (bars !! i = Some x) as Hi.
    { pose proof (lookup_drop bars i 0) as H. rewrite Hdrop in H. simpl in H.
      rewrite Nat.add_0_r in H. symmetry. exact H. }
    assert (drop (S i) bars = rest) as Hrest.
    { replace (S i) with (i + 1)%nat by lia. rewrite <- drop_drop, Hdrop.
      reflexivity. }
    eapply hoare_bind; [| intros ?; apply (IH (S i) Hrest)].
    apply hoare_modify. intros w (Hsel & Hok & Hdone).
    split; [exact Hsel | split; [apply stable_bars_on_page; exact Hok |]].
    intros j r Hj Hjr. destruct (decide (j = i)) as [-> | Hne].
    + assert (r = x) as -> by congruence.
      apply class_is_set; [| intros e; apply toggle_on_spec].
      destruct Hok as [_ Hall]. apply Hall. rewrite Hsel.
      apply (list_elem_of_lookup_2 bars i x Hi).
    + apply class_is_other; [| apply Hdone; [lia | exact Hjr]].
      intros ->. destruct Hok as [Hnd _]. rewrite Hsel in Hnd.
      apply Hne. apply (NoDup_lookup bars j i r Hnd Hjr Hi).
Qed.

Lemma tiles_after_alarm_sets_bars (d : SensorData) :
  hoare bars_on_page (tiles_after_alarm d)
        (fun _ => bars_show (Dashboard.rssiToBars (rssi d))) nothing_thrown.
Proof.
  unfold tiles_after_alarm.
  apply hoare_getEl_bind. intros dot _.
  apply hoare_getEl_bind. intros label _.
  eapply hoare_bind with (R := fun _ => bars_on_page).
  { destruct (connected d);
      repeat first
        [ eapply hoare_bind; [| intros ?]
        | apply hoare_when_present; intros; apply stable_bars_on_page ]. }
  intros ?. cbv zeta. apply hoare_gets_bind. intros els.
  eapply hoare_bind with (R := fun _ => bars_show (Dashboard.rssiToBars (rssi d))).
  { unfold forEach. eapply hoare_pre.
    - apply (bars_loop (Dashboard.rssiToBars (rssi d)) els _ els 0). apply drop_0.
    - intros w [Hok Hsel]. split; [exact Hsel | split; [exact Hok |]].
      intros j r Hj. lia. }
  intros ?.
  repeat (cbv beta;
          lazymatch goal with
          | |- hoare _ (bind (getEl _) _) _ _ => apply hoare_getEl_bind; intros ? ?
          | |- hoare _ (bind _ _) _ _ => eapply hoare_bind; [| intros ?]
          | |- hoare _ (when_present _ _) _ _ =>
              apply hoare_when_present; intros; apply stable_bars_show;
              first [ apply keeps_classes_textContent | apply keeps_classes_style ]
          | |- hoare _ (write _ _) _ _ =>
              apply hoare_write, stable_bars_show;
              first [ apply keeps_classes_innerHTML | apply keeps_classes_span ]
          | |- hoare _ (forEach _ _) _ _ => apply hoare_forEach; intros ? ?
          | |- hoare _ (ret _) _ _ => apply hoare_ret; auto
          | |- hoare _ (Dashboard.setText _ _) _ _ => unfold Dashboard.setText
          | |- hoare _ (Dashboard.updateYAxis _) _ _ => unfold Dashboard.updateYAxis
          | |- hoare _ (match ?x with Some _ => _ | None => _ end) _ _ => destruct x
          end).
Qed.

Lemma updateTiles_sets_bars (d : SensorData) :
  hoare (fun w => page_ready w /\ bars_on_page w) (Dashboard.updateTiles d)
        (fun _ => bars_show (Dashboard.rssiToBars (rssi d))) nothing_thrown.
Proof.
  rewrite updateTiles_blocks.
  assert (forall r f, stable_under_write (fun w => page_ready w /\ bars_on_page w) r f)
    as Hst.
  { intros r f. apply stable_and; [apply stable_page_ready | apply stable_bars_on_page]. }
  do 4 (eapply hoare_bind; [apply setText_keeps, Hst | intros ?]).
  apply hoare_getEl_bind. intros badge _.
  apply hoare_getEl_bind. intros clk _.
  eapply hoare_bind;
    [apply (tiles_alarm_block_returns bars_on_page d badge clk stable_bars_on_page)
    | intros ?].
  eapply hoare_pre; [apply tiles_after_alarm_sets_bars | intros w [_ H]; exact H].
Qed.

(** X16.  On a page that holds the rms tile and whose signal bars are
    distinct elements, [updateTiles] returns and leaves the bars in step
    with the signal strength: the bar at position [i] (in document order)
    carries the class [on] exactly when [i < rssiToBars(rssi)], whatever
    classes the bars had before. *)
Theorem updateTiles_signal_bars (d : SensorData) (w : World) :
  page_ready w ->
  NoDup (sel_signal_bars (page w)) ->
  (forall r, r ∈ sel_signal_bars (page w) -> present r w) ->
  let w' := world_after (Dashboard.updateTiles d) w in
  completes_normally (Dashboard.updateTiles d) w
  /\ forall i r, sel_signal_bars (page w') !! i = Some r ->
       exists e, lookup_node r (page w') = Some e
                 /\ ("on" ∈ classes e <-> (i < Dashboard.rssiToBars (rssi d))%nat).
Proof.
  intros Hready Hnd Hall w'. subst w'.
  pose proof (updateTiles_sets_bars d w (conj Hready (conj Hnd Hall))) as H.
  unfold completes_normally, completion_of, world_after.
  destruct (Dashboard.updateTiles d w) as [w1 [a | e]]; [| destruct H].
  split; [eauto |]. intros i r Hi. destruct (H i r Hi) as (e & He & Hb).
  exists e. split; [exact He |]. rewrite Hb. apply Nat.ltb_lt.
Qed.

End AxisAndBars.

Lemma updateYAxis_labels_witness :
  present (by_id "chart-yaxis") sample_world
  /\ children_are (by_id "chart-yaxis")
       [ SpanEl "1.25"; SpanEl "0.94"; SpanEl "0.63"; SpanEl "0.31"; SpanEl "0.00" ]
       (world_after (@Dashboard.updateYAxis sample_host (history strong_data)) sample_world).
Proof.
  assert (present (by_id "chart-yaxis") sample_world) as Hp by (vm_compute; eauto).
  split; [exact Hp |].
  exact (proj1 (proj2 (@updateYAxis_labels sample_host (history strong_data)
                                           sample_world Hp))).
Defined.

Lemma updateTiles_signal_bars_witness :
  page_ready sample_world
  /\ NoDup (sel_signal_bars (page sample_world))
  /\ (forall r, r ∈ sel_signal_bars (page sample_world) -> present r sample_world)
  /\ completes_normally (@Dashboard.updateTiles sample_host sample_data) sample_world.
Proof.
  assert (page_ready sample_world) as Hr by (split; vm_compute; eauto).
  assert (NoDup (sel_signal_bars (page sample_world))) as Hnd.
  { simpl. repeat (apply NoDup_cons; split; [rewrite ?elem_of_cons, elem_of_nil;
                                              intuition discriminate |]).
    apply NoDup_nil. exact I. }
  assert (forall r, r ∈ sel_signal_bars (page sample_world) -> present r sample_world)
    as Hall.
  { intros r Hin. simpl in Hin. rewrite !elem_of_cons, elem_of_nil in Hin.
    destruct Hin as [-> | [-> | [-> | [-> | []]]]]; vm_compute; eauto. }
  split; [exact Hr | split; [exact Hnd | split; [exact Hall |]]].
  exact (proj1 (@updateTiles_signal_bars sample_host sample_data sample_world
                                         Hr Hnd Hall)).
Defined.

(** ** More on escaping (setup.js, [escHtml]) *)

Section EscapingMore.

Local Arguments String.append !_ _ / : simpl nomatch.

Lemma esc_char_plain (c : ascii) : ~ special_char c -> esc_char c = String c EmptyString.
Proof.
  intros Hc. unfold esc_char, special_char, markup_char in *.
  destruct (Ascii.eqb_spec c "&"); [tauto |].
  destruct (Ascii.eqb_spec c "<"); [tauto |].
  destruct (Ascii.eqb_spec c ">"); [tauto |].
  destruct (Ascii.eqb_spec c Setup.dquote); [tauto |].
  reflexivity.
Qed.

Lemma special_char_dec (c : ascii) : {special_char c} + {~ special_char c}.
Proof.
  unfold special_char, markup_char.
  destruct (ascii_dec c "&"); [left; tauto |].
  destruct (ascii_dec c "<"); [left; tauto |].
  destruct (ascii_dec c ">"); [left; tauto |].
  destruct (ascii_dec c Setup.dquote); [left; tauto |].
  right. tauto.
Qed.

(** What [escHtml] writes for a character starts with [&] exactly when the
    character is rewritten, and is never empty. *)
Lemma esc_char_head (c : ascii) :
  exists h t, esc_char c = String h t
              /\ (special_char c -> h = "&"%char /\ t <> EmptyString)
              /\ (~ special_char c -> h = c /\ t = EmptyString).
Proof.
  destruct (special_char_dec c) as [Hs | Hn].
  - unfold esc_char. destruct Hs as [-> | [-> | [-> | ->]]]; simpl;
      eexists _, _; (split; [reflexivity | split; [intros _; split;
        [reflexivity | discriminate] | intros Hn; exfalso; apply Hn;
                                        unfold special_char, markup_char; tauto]]).
  - rewrite (esc_char_plain c Hn). exists c, EmptyString.
    split; [reflexivity | split; [intros Hs; contradiction | auto]].
Qed.

Lemma escHtml_length (s : string) :
  (String.length s <= String.length (Setup.escHtml s))%nat.
Proof.
  induction s as [| c s IH]; [simpl; lia |].
  rewrite escHtml_cons, length_app_str.
  destruct (esc_char_head c) as (h & t & -> & _). simpl. lia.
Qed.

(** X17.  [escHtml] loses nothing: two texts with the same escaped form
    are the same text. *)
Theorem escHtml_injective (s1 s2 : string) :
  Setup.escHtml s1 = Setup.escHtml s2 -> s1 = s2.
Proof.
  revert s2. induction s1 as [| a s1 IH]; intros [| b s2].
  - reflexivity.
  - rewrite escHtml_cons. destruct (esc_char_head b) as (h & t & -> & _).
    simpl. discriminate.
  - rewrite escHtml_cons. destruct (esc_char_head a) as (h & t & -> & _).
    simpl. discriminate.
  - rewrite !escHtml_cons. unfold esc_char.
    destruct (Ascii.eqb_spec a "&") as [-> | Ha1];
      [| destruct (Ascii.eqb_spec a "<") as [-> | Ha2];
         [| destruct (Ascii.eqb_spec a ">") as [-> | Ha3];
            [| destruct (Ascii.eqb_spec a Setup.dquote) as [-> | Ha4]]]];
      (destruct (Ascii.eqb_spec b "&") as [-> | Hb1];
       [| destruct (Ascii.eqb_spec b "<") as [-> | Hb2];
          [| destruct (Ascii.eqb_spec b ">") as [-> | Hb3];
             [| destruct (Ascii.eqb_spec b Setup.dquote) as [-> | Hb4]]]]);
      simpl; intros H; try discriminate H;
      try (injection H as H; f_equal; apply IH; exact H);
      try (injection H as Hc H; subst; try contradiction; f_equal; apply IH; exact H).
Qed.

(** X18.  [escHtml] leaves a text as it is exactly when the text holds
    none of the characters [&], [<], [>] and the double quote. *)
Theorem escHtml_fixes_plain_text (s : string) :
  Setup.escHtml s = s
  <-> (forall c, In c (list_ascii_of_string s) -> ~ special_char c).
Proof.
  induction s as [| a s IH].
  - split; [intros _ c [] | reflexivity].
  - rewrite escHtml_cons. split.
    + intros H c Hin.
      destruct (esc_char_head a) as (h & t & Hht & Hspec & Hplain).
      rewrite Hht in H.
      destruct (special_char_dec a) as [Hs | Hn].
      * exfalso. destruct (Hspec Hs) as [-> Ht].
        change (String "&" t +:+ Setup.escHtml s) with (String "&" (t +:+ Setup.escHtml s)) in H.
        injection H as _ H.
        pose proof (escHtml_length s) as Hl.
        assert (String.length (t +:+ Setup.escHtml s) = String.length s) as Hl'
          by (rewrite H; reflexivity).
        rewrite length_app_str in Hl'.
        destruct t; [congruence | simpl in Hl'; lia].
      * destruct (Hplain Hn) as [-> ->]. simpl in H. injection H as H.
        destruct Hin as [<- | Hin]; [exact Hn | apply IH; assumption].
    + intros Hall.
      rewrite (esc_char_plain a) by (apply Hall; left; reflexivity).
      simpl. f_equal. apply IH. intros c Hin. apply Hall. right. exact Hin.
Qed.

End EscapingMore.

Lemma escHtml_injective_witness :
  Setup.escHtml "a<b" = Setup.escHtml ("a" +:+ "<b") /\ "a<b" = "a" +:+ "<b".
Proof.
  assert (Setup.escHtml "a<b" = Setup.escHtml ("a" +:+ "<b")) as H by reflexivity.
  split; [exact H |].
  exact (escHtml_injective "a<b" ("a" +:+ "<b") H).
Defined.

(** ** More on the keyboard (setup.js, [kbdPress]) *)

Section Typing.

Local Arguments String.append !_ _ / : simpl nomatch.
Local Arguments Setup.updateKbdDisplay : simpl never.
Local Arguments Setup.buildKeyboard : simpl never.

(** A key of one character is none of the named keys. *)
Lemma char_key_not_named (key name : string) :
  String.length key = 1%nat -> String.length name <> 1%nat ->
  String.eqb key name = false.
Proof. intros Hk Hn. apply String.eqb_neq. intros ->. contradiction. Qed.

Lemma kbdPress_char_key (key : string) :
  String.length key = 1%nat ->
  Setup.kbdPress key
  = (txt <- gets kbdText ;;
     modify (set_kbdText (txt +:+ key)) ;;;
     mode <- gets kbdMode ;;
     (match mode with
      | KbdUpper => modify (set_kbdMode KbdLower) ;;; Setup.buildKeyboard
      | _ => ret tt
      end) ;;;
     Setup.updateKbdDisplay).
Proof.
  intros Hk. unfold Setup.kbdPress.
  rewrite !(char_key_not_named key) by (exact Hk || discriminate).
  reflexivity.
Qed.

Lemma kbdPress_char_run (key : string) (w : World) :
  String.length key = 1%nat ->
  Setup.kbdPress key w
  = match kbdMode w with
    | KbdUpper =>
        match Setup.buildKeyboard
                (set_kbdMode KbdLower (set_kbdText (kbdText w +:+ key) w)) with
        | (w2, Normal _) => Setup.updateKbdDisplay w2
        | (w2, Throw e) => (w2, Throw e)
        end
    | _ => Setup.updateKbdDisplay (set_kbdText (kbdText w +:+ key) w)
    end.
Proof.
  intros Hk. rewrite (kbdPress_char_key key Hk).
  unfold bind, gets, modify. cbv beta iota.
  change (kbdMode (set_kbdText (kbdText w +:+ key) w)) with (kbdMode w).
  destruct (kbdMode w); reflexivity.
Qed.

(** What one character key does to the state of the scripts. *)
Lemma kbdPress_char_state (key : string) (w : World) :
  String.length key = 1%nat ->
  let w' := world_after (Setup.kbdPress key) w in
  kbdText w' = kbdText w +:+ key
  /\ ws w' = ws w
  /\ selectedSSID w' = selectedSSID w
  /\ kbdMode w' = match kbdMode w with KbdUpper => KbdLower | m => m end
  /\ (forall r, present r w -> present r w').
Proof.
  intros Hk. unfold world_after. rewrite (kbdPress_char_run key w Hk).
  destruct (kbdMode w) eqn:Em.
  - rewrite updateKbdDisplay_run. simpl. rewrite Em.
    repeat split; try reflexivity.
    intros r Hr. destruct (getElementById "kbd-input-display" (page w)); [| exact Hr].
    apply (stable_present r _ _ w Hr).
  - rewrite buildKeyboard_run. simpl.
    destruct (getElementById "keyboard" (page w)) as [k |].
    + rewrite updateKbdDisplay_run. simpl. repeat split; try reflexivity.
      intros r Hr.
      match goal with
      | |- present r (set_page (match ?g with Some _ => _ | None => _ end) _) =>
          destruct g
      end.
      * apply (stable_present r _ _ (set_page (update_node k _ (page w)) w)).
        apply (stable_present r _ _ w Hr).
      * apply (stable_present r _ _ w Hr).
    + simpl. repeat split; try reflexivity. intros r Hr. exact Hr.
  - rewrite updateKbdDisplay_run. simpl. rewrite Em.
    repeat split; try reflexivity.
    intros r Hr. destruct (getElementById "kbd-input-display" (page w)); [| exact Hr].
    apply (stable_present r _ _ w Hr).
Qed.

Lemma after_keys_snoc (keys : list string) (key : string) (w : World) :
  after_keys (keys ++ [key]) w
  = world_after (Setup.kbdPress key) (after_keys keys w).
Proof. unfold after_keys. rewrite fold_left_app. reflexivity. Qed.

Lemma join_snoc (keys : list string) (key : string) :
  Setup.join (keys ++ [key]) = Setup.join keys +:+ key.
Proof.
  induction keys as [| k keys IH]; simpl.
  - induction key as [| c key IHk]; simpl; [reflexivity | f_equal; exact IHk].
  - rewrite IH. symmetry. apply str_app_assoc.
Qed.

Lemma str_app_empty_r (s : string) : s +:+ EmptyString = s.
Proof. induction s as [| c s IH]; simpl; [reflexivity | f_equal; exact IH]. Qed.

(** The state after a run of character keys. *)
Lemma after_char_keys (keys : list string) (w : World) :
  Forall (fun k => String.length k = 1%nat) keys ->
  kbdText (after_keys keys w) = kbdText w +:+ Setup.join keys
  /\ ws (after_keys keys w) = ws w
  /\ selectedSSID (after_keys keys w) = selectedSSID w
  /\ (forall r, present r w -> present r (after_keys keys w)).
Proof.
  induction keys as [| key keys IH] using rev_ind; intros Hall.
  - simpl. rewrite str_app_empty_r. auto.
  - apply Forall_app in Hall. destruct Hall as [Hkeys Hkey].
    apply Forall_inv in Hkey.
    destruct (IH Hkeys) as (Ht & Hs & Hsel & Hp).
    destruct (kbdPress_char_state key (after_keys keys w) Hkey)
      as (Ht' & Hs' & Hsel' & _ & Hp').
    rewrite after_keys_snoc, join_snoc.
    rewrite Ht', Hs', Hsel', Ht, Hs, Hsel.
    split; [apply str_app_assoc | split; [reflexivity | split; [reflexivity |]]].
    intros r Hr. apply Hp', Hp, Hr.
Qed.

(** X19.  The typed text is what was typed: after any run of character
    keys, one key press each, [kbdText] is the text held before followed
    by the characters of the keys in the order of the presses, whether or
    not the page has the elements of the keyboard. *)
Theorem typed_text_accumulates (keys : list string) (w : World) :
  Forall (fun k => String.length k = 1%nat) keys ->
  kbdText (after_keys keys w) = kbdText w +:+ Setup.join keys.
Proof. intros Hall. apply (after_char_keys keys w Hall). Qed.

Lemma slice_drop_last_snoc (s : string) (c : ascii) :
  slice_drop_last (s +:+ String c EmptyString) = s.
Proof.
  induction s as [| x s IH]; [reflexivity |].
  change (String x s +:+ String c EmptyString)
    with (String x (s +:+ String c EmptyString)).
  destruct s as [| y s]; [reflexivity |].
  change (slice_drop_last (String x (String y s +:+ String c EmptyString)))
    with (String x (slice_drop_last (String y s +:+ String c EmptyString))).
  rewrite IH. reflexivity.
Qed.

(** X20.  [DEL] takes back the last character key: after a character key
    followed by [DEL], [kbdText] is what it was before the two presses. *)
Theorem kbd_delete_undoes_key (key : string) (w : World) :
  String.length key = 1%nat ->
  kbdText (after_keys [key; "DEL"] w) = kbdText w.
Proof.
  intros Hk. unfold after_keys. simpl fold_left.
  destruct (kbdPress_char_state key w Hk) as (Ht & _).
  assert (forall w0, kbdText (world_after (Setup.kbdPress "DEL") w0)
                     = slice_drop_last (kbdText w0)) as Hdel.
  { intros w0. unfold world_after, Setup.kbdPress.
    change (String.eqb "DEL" "DEL") with true. cbv iota.
    unfold bind, gets, modify. rewrite updateKbdDisplay_run. reflexivity. }
  rewrite Hdel, Ht.
  destruct key as [| c [| c' key]]; try discriminate Hk.
  apply slice_drop_last_snoc.
Qed.

(** X21.  Shift holds for one character: a character key pressed on the
    upper-case layout brings the lower-case layout back, in [kbdMode] and
    in the keys shown in the element [keyboard]; on the other two layouts
    a character key leaves the layout as it is. *)
Theorem shift_is_one_shot (key : string) (w : World) :
  String.length key = 1%nat ->
  present (by_id "keyboard") w ->
  let w' := world_after (Setup.kbdPress key) w in
  completes_normally (Setup.kbdPress key) w
  /\ (kbdMode w = KbdUpper ->
      kbdMode w' = KbdLower
      /\ children_are (by_id "keyboard")
           [Markup (Setup.join (map Setup.row_html (Setup.LAYOUTS KbdLower)))] w')
  /\ (kbdMode w <> KbdUpper ->
      kbdMode w' = kbdMode w
      /\ forall e, lookup_node (by_id "keyboard") (page w) = Some e ->
                   lookup_node (by_id "keyboard") (page w') = Some e).
Proof.
  intros Hk [e He] w'. subst w'.
  unfold completes_normally, completion_of, world_after.
  rewrite (kbdPress_char_run key w Hk).
  assert (forall w0 r0 e0,
            r0 <> by_id "kbd-input-display" ->
            lookup_node r0 (page w0) = Some e0 ->
            lookup_node r0 (page (fst (Setup.updateKbdDisplay w0))) = Some e0) as Hdisp.
  { intros w0 r0 e0 Hne H0. rewrite updateKbdDisplay_run. simpl.
    unfold getElementById.
    destruct (nodes (page w0) !! by_id "kbd-input-display"); [| exact H0].
    rewrite lookup_update_node.
    destruct (decide (by_id "kbd-input-display" = r0)); [congruence | exact H0]. }
  assert (forall w0, exists a, snd (Setup.updateKbdDisplay w0) = Normal a) as Hret.
  { intros w0. rewrite updateKbdDisplay_run. simpl. eauto. }
  assert (forall w0, kbdMode (fst (Setup.updateKbdDisplay w0)) = kbdMode w0) as Hmode.
  { intros w0. rewrite updateKbdDisplay_run. reflexivity. }
  destruct (kbdMode w) eqn:Em.
  - split; [apply Hret | split; [discriminate |]]. intros _.
    split; [rewrite Hmode; exact Em |]. intros e0 He0.
    apply Hdisp; [apply by_id_neq; discriminate | exact He0].
  - rewrite buildKeyboard_run. unfold getElementById.
    change (page (set_kbdMode KbdLower (set_kbdText (kbdText w +:+ key) w)))
      with (page w).
    unfold lookup_node in He. rewrite He.
    split; [apply Hret | split; [| intros Hne; congruence]]. intros _.
    split; [rewrite Hmode; reflexivity |].
    exists (set_innerHTML (Setup.join (map Setup.row_html (Setup.LAYOUTS KbdLower))) e).
    split; [| reflexivity].
    apply Hdisp; [apply by_id_neq; discriminate |].
    unfold set_page, page at 1. rewrite lookup_update_node.
    destruct (decide (by_id "keyboard" = by_id "keyboard")); [| congruence].
    unfold lookup_node. rewrite He. reflexivity.
  - split; [apply Hret | split; [discriminate |]]. intros _.
    split; [rewrite Hmode; exact Em |]. intros e0 He0.
    apply Hdisp; [apply by_id_neq; discriminate | exact He0].
Qed.

End Typing.

Lemma typed_text_accumulates_witness :
  Forall (fun k => String.length k = 1%nat) ["p"; "w"; "1"]
  /\ kbdText (after_keys ["p"; "w"; "1"] sample_world)
     = kbdText sample_world +:+ Setup.join ["p"; "w"; "1"].
Proof.
  assert (Forall (fun k => String.length k = 1%nat) ["p"; "w"; "1"]) as H
    by (repeat constructor).
  split; [exact H |].
  exact (typed_text_accumulates ["p"; "w"; "1"] sample_world H).
Defined.

Lemma kbd_delete_undoes_key_witness :
  String.length "x" = 1%nat
  /\ kbdText (after_keys ["x"; "DEL"] sample_world) = kbdText sample_world.
Proof.
  assert (String.length "x" = 1%nat) as H by reflexivity.
  split; [exact H |].
  exact (kbd_delete_undoes_key "x" sample_world H).
Defined.

Lemma shift_is_one_shot_witness :
  String.length "Q" = 1%nat
  /\ present (by_id "keyboard") (set_kbdMode KbdUpper sample_world)
  /\ completes_normally (Setup.kbdPress "Q") (set_kbdMode KbdUpper sample_world).
Proof.
  assert (String.length "Q" = 1%nat) as H by reflexivity.
  assert (present (by_id "keyboard") (set_kbdMode KbdUpper sample_world)) as Hp
    by (vm_compute; eauto).
  split; [exact H | split; [exact Hp |]].
  exact (proj1 (shift_is_one_shot "Q" (set_kbdMode KbdUpper sample_world) H Hp)).
Defined.

(** ** setup.js: scanning and selecting a network *)

Section SetupScreen.

Lemma stable_page_same_except (keep : list NodeRef) (p0 : Page) r f :
  r ∈ keep -> stable_under_write (page_same_except keep p0) r f.
Proof.
  intros Hr w Hs r0 Hr0. simpl. rewrite lookup_update_node.
  destruct (decide (r = r0)) as [-> |]; [contradiction | apply Hs, Hr0].
Qed.

Lemma page_same_except_weaken (keep keep' : list NodeRef) (p0 : Page) (w : World) :
  keep ⊆ keep' -> page_same_except keep p0 w -> page_same_except keep' p0 w.
Proof. intros Hsub Hs r Hr. apply Hs. intros Hin. apply Hr, Hsub, Hin. Qed.

(** [App.send] adds its frame to an open socket and nothing otherwise;
    it leaves everything else alone. *)
Lemma hoare_send_frames (I E : World -> Prop) (obj : Command)
      (fs : list Command) (b : bool) :
  (forall w s, I w -> I (set_ws s w)) ->
  hoare (fun w => I w /\ frames_sent w = fs /\ App.is_open (ws w) = b)
        (App.send obj)
        (fun _ w => I w /\ frames_sent w = (fs ++ frames_added b obj)%list
                    /\ App.is_open (ws w) = b)
        E.
Proof.
  intros HI w (Hw & Hfs & Hb). destruct b.
  - unfold App.is_open in Hb. destruct (ws w) as [sock |] eqn:Es; [| discriminate].
    destruct (readyState sock) eqn:Er; try discriminate.
    rewrite (send_open obj w sock Es Er).
    split; [apply HI, Hw | split; [| reflexivity]].
    unfold frames_sent in *. rewrite Es in Hfs. simpl. rewrite Hfs. reflexivity.
  - rewrite (send_closed obj w Hb).
    split; [exact Hw | split; [| exact Hb]].
    simpl. rewrite app_nil_r. exact Hfs.
Qed.

Lemma setWifiStatus_keeps (I E : World -> Prop) (msg cls : string) :
  (forall f, stable_under_write I (by_id "wifi-status") f) ->
  hoare I (Setup.setWifiStatus msg cls) (fun _ => I) E.
Proof.
  intros HI. unfold Setup.setWifiStatus.
  apply hoare_getEl_bind. intros r Hr. destruct r as [n |].
  - apply from_id_some in Hr. subst n.
    eapply hoare_bind; [apply hoare_write, HI | intros ?; apply hoare_write, HI].
  - apply hoare_ret. auto.
Qed.

Lemma setBleStatus_keeps (I E : World -> Prop) (msg cls : string) :
  (forall f, stable_under_write I (by_id "ble-status") f) ->
  hoare I (Setup.setBleStatus msg cls) (fun _ => I) E.
Proof.
  intros HI. unfold Setup.setBleStatus.
  apply hoare_getEl_bind. intros r Hr. destruct r as [n |].
  - apply from_id_some in Hr. subst n.
    eapply hoare_bind; [apply hoare_write, HI | intros ?; apply hoare_write, HI].
  - apply hoare_ret. auto.
Qed.

Lemma children_after_text (r : NodeRef) (s : string) (w : World) :
  present r w -> s <> EmptyString ->
  children_are r [TextNode s] (set_page (update_node r (set_textContent s) (page w)) w).
Proof.
  intros [e He] Hs. unfold children_are. simpl. rewrite lookup_update_node.
  destruct (decide (r = r)); [| congruence].
  rewrite He. eexists. split; [reflexivity |]. simpl.
  destruct (String.eqb_spec s EmptyString); [contradiction | reflexivity].
Qed.

(** A status line that is on the page shows the message afterwards. *)
Lemma setWifiStatus_shows (I E : World -> Prop) (msg cls : string) :
  msg <> EmptyString ->
  (forall f, stable_under_write I (by_id "wifi-status") f) ->
  hoare (fun w => I w /\ present (by_id "wifi-status") w)
        (Setup.setWifiStatus msg cls)
        (fun _ w => I w /\ children_are (by_id "wifi-status") [TextNode msg] w) E.
Proof.
  intros Hmsg HI. unfold Setup.setWifiStatus.
  apply hoare_getEl_bind_found; [intros w Hw; apply Hw |].
  eapply hoare_bind
    with (R := fun _ w => I w /\ children_are (by_id "wifi-status") [TextNode msg] w).
  - apply hoare_modify. intros w [Hw Hp].
    split; [apply HI, Hw | apply children_after_text; assumption].
  - intros ?. apply hoare_modify. intros w [Hw Hc].
    split; [apply HI, Hw |].
    apply stable_children_keeps; [apply keeps_children_className | exact Hc].
Qed.

Lemma setBleStatus_shows (I E : World -> Prop) (msg cls : string) :
  msg <> EmptyString ->
  (forall f, stable_under_write I (by_id "ble-status") f) ->
  hoare (fun w => I w /\ present (by_id "ble-status") w)
        (Setup.setBleStatus msg cls)
        (fun _ w => I w /\ children_are (by_id "ble-status") [TextNode msg] w) E.
Proof.
  intros Hmsg HI. unfold Setup.setBleStatus.
  apply hoare_getEl_bind_found; [intros w Hw; apply Hw |].
  eapply hoare_bind
    with (R := fun _ w => I w /\ children_are (by_id "ble-status") [TextNode msg] w).
  - apply hoare_modify. intros w [Hw Hp].
    split; [apply HI, Hw | apply children_after_text; assumption].
  - intros ?. apply hoare_modify. intros w [Hw Hc].
    split; [apply HI, Hw |].
    apply stable_children_keeps; [apply keeps_children_className | exact Hc].
Qed.

Lemma wifiScan_hoare (fs : list Command) (b : bool) :
  hoare (fun w => (frames_sent w = fs /\ App.is_open (ws w) = b)
                  /\ present (by_id "wifi-list") w
                  /\ present (by_id "wifi-status") w)
        Setup.wifiScan
        (fun _ w => children_are (by_id "wifi-status") [TextNode "Scanning..."] w
                    /\ frames_sent w = (fs ++ frames_added b CmdWifiScan)%list
                    /\ App.is_open (ws w) = b)
        nothing_thrown.
Proof.
  unfold Setup.wifiScan.
  eapply hoare_bind
    with (R := fun _ w => ((frames_sent w = fs /\ App.is_open (ws w) = b)
                           /\ present (by_id "wifi-list") w)
                          /\ children_are (by_id "wifi-status") [TextNode "Scanning..."] w).
  { eapply hoare_pre.
    - apply setWifiStatus_shows; [discriminate |].
      intros f w [Hs Hp]. split; [exact Hs | apply stable_present, Hp].
    - intros w (Hs & Hl & Hst). auto. }
  intros ?. apply hoare_getEl_bind_found; [intros w Hw; apply Hw |].
  apply hoare_deref_some_bind.
  eapply hoare_bind
    with (R := fun _ w => children_are (by_id "wifi-status") [TextNode "Scanning..."] w
                          /\ frames_sent w = fs /\ App.is_open (ws w) = b).
  { apply hoare_modify. intros w ([[Hfs Hb] _] & Hc). split; [| auto].
    apply stable_children_other; [apply by_id_neq; discriminate | exact Hc]. }
  intros ?. apply hoare_send_frames. intros w s H. exact H.
Qed.

(** X22.  [wifiScan], on a page with the network list and the status
    line, returns with the status line reading [Scanning...], and asks
    the gateway for a scan only if the socket is open: it adds the one
    frame [{cmd: 'wifi_scan'}] to an open socket, and nothing to a socket
    that is not open, and the status line reads [Scanning...] all the
    same. *)
Theorem wifiScan_request (w : World) :
  present (by_id "wifi-list") w ->
  present (by_id "wifi-status") w ->
  let w' := world_after Setup.wifiScan w in
  completes_normally Setup.wifiScan w
  /\ children_are (by_id "wifi-status") [TextNode "Scanning..."] w'
  /\ frames_sent w' = (frames_sent w ++ frames_added (App.is_open (ws w)) CmdWifiScan)%list.
Proof.
  intros Hl Hs w'. subst w'.
  pose proof (wifiScan_hoare (frames_sent w) (App.is_open (ws w)) w
                (conj (conj eq_refl eq_refl) (conj Hl Hs))) as H.
  unfold completes_normally, completion_of, world_after.
  destruct (Setup.wifiScan w) as [w1 [a | e]]; [| destruct H].
  destruct H as (Hc & Hfs & _). split; [eauto | split; assumption].
Qed.

Lemma bleScan_hoare (fs : list Command) (b : bool) :
  hoare (fun w => (frames_sent w = fs /\ App.is_open (ws w) = b)
                  /\ present (by_id "ble-list") w
                  /\ present (by_id "ble-status") w)
        Setup.bleScan
        (fun _ w => children_are (by_id "ble-status")
                      [TextNode "Scanning for HVACVIBE-* ..."] w
                    /\ frames_sent w = (fs ++ frames_added b CmdBleScan)%list
                    /\ App.is_open (ws w) = b)
        nothing_thrown.
Proof.
  unfold Setup.bleScan.
  eapply hoare_bind
    with (R := fun _ w => ((frames_sent w = fs /\ App.is_open (ws w) = b)
                           /\ present (by_id "ble-list") w)
                          /\ children_are (by_id "ble-status")
                               [TextNode "Scanning for HVACVIBE-* ..."] w).
  { eapply hoare_pre.
    - apply setBleStatus_shows; [discriminate |].
      intros f w [Hs Hp]. split; [exact Hs | apply stable_present, Hp].
    - intros w (Hs & Hl & Hst). auto. }
  intros ?. apply hoare_getEl_bind_found; [intros w Hw; apply Hw |].
  apply hoare_deref_some_bind.
  eapply hoare_bind
    with (R := fun _ w => children_are (by_id "ble-status")
                            [TextNode "Scanning for HVACVIBE-* ..."] w
                          /\ frames_sent w = fs /\ App.is_open (ws w) = b).
  { apply hoare_modify. intros w ([[Hfs Hb] _] & Hc). split; [| auto].
    apply stable_children_other; [apply by_id_neq; discriminate | exact Hc]. }
  intros ?. apply hoare_send_frames. intros w s H. exact H.
Qed.

(** X23.  [bleScan] behaves alike for the sensors: the status line of the
    sensors reads [Scanning for HVACVIBE-* ...], and the one frame
    [{cmd: 'ble_scan'}] is added to an open socket only. *)
Theorem bleScan_request (w : World) :
  present (by_id "ble-list") w ->
  present (by_id "ble-status") w ->
  let w' := world_after Setup.bleScan w in
  completes_normally Setup.bleScan w
  /\ children_are (by_id "ble-status") [TextNode "Scanning for HVACVIBE-* ..."] w'
  /\ frames_sent w' = (frames_sent w ++ frames_added (App.is_open (ws w)) CmdBleScan)%list.
Proof.
  intros Hl Hs w'. subst w'.
  pose proof (bleScan_hoare (frames_sent w) (App.is_open (ws w)) w
                (conj (conj eq_refl eq_refl) (conj Hl Hs))) as H.
  unfold completes_normally, completion_of, world_after.
  destruct (Setup.bleScan w) as [w1 [a | e]]; [| destruct H].
  destruct H as (Hc & Hfs & _). split; [eauto | split; assumption].
Qed.

(** *** Selecting a network *)

Lemma wifiSelect_open_hoare (nets : list Setup.Network) (idx : nat) (n : Setup.Network)
      (w0 : World) :
  nets !! idx = Some n -> Setup.net_secured n = false ->
  hoare (fun w => w = w0) (Setup.wifiSelect nets idx)
        (fun _ w => (selectedSSID w = Some (Setup.net_ssid n)
                     /\ kbdText w = kbdText w0 /\ kbdMode w = kbdMode w0
                     /\ page_same_except [by_id "wifi-status"] (page w0) w)
                    /\ frames_sent w
                       = (frames_sent w0
                          ++ frames_added (App.is_open (ws w0))
                               (CmdWifiConnect (Some (Setup.net_ssid n)) EmptyString))%list
                    /\ App.is_open (ws w) = App.is_open (ws w0))
        nothing_thrown.
Proof.
  intros Hn Hsec. unfold Setup.wifiSelect. rewrite Hn, Hsec. cbv zeta. simpl negb. cbv iota.
  set (I := fun w => selectedSSID w = Some (Setup.net_ssid n)
                     /\ kbdText w = kbdText w0 /\ kbdMode w = kbdMode w0
                     /\ page_same_except [by_id "wifi-status"] (page w0) w).
  eapply hoare_bind
    with (R := fun _ w => I w /\ frames_sent w = frames_sent w0
                          /\ App.is_open (ws w) = App.is_open (ws w0)).
  { apply hoare_modify. intros w ->. unfold I. simpl.
    repeat split; try reflexivity. }
  intros ?.
  apply hoare_gets_bind_val with (a0 := Some (Setup.net_ssid n));
    [intros w (HI & _); apply HI |].
  eapply hoare_bind.
  { apply hoare_send_frames. intros w s H. exact H. }
  intros ?. apply setWifiStatus_keeps.
  intros f w ((H1 & H2 & H3 & H4) & Hfs). split; [| exact Hfs].
  split; [exact H1 | split; [exact H2 | split; [exact H3 |]]].
  apply stable_page_same_except; [apply list_elem_of_here | exact H4].
Qed.

(** X24.  Selecting an open network connects at once: [wifiSelect]
    returns with the network's ssid in [selectedSSID], adds the one frame
    [{cmd: 'wifi_connect', ssid, password: ''}] to an open socket (and
    nothing to a socket that is not open), keeps the typed text, and
    changes no element of the page but the status line: the keyboard is
    not shown. *)
Theorem wifiSelect_open_network (nets : list Setup.Network) (idx : nat)
        (n : Setup.Network) (w : World) :
  nets !! idx = Some n -> Setup.net_secured n = false ->
  let w' := world_after (Setup.wifiSelect nets idx) w in
  completes_normally (Setup.wifiSelect nets idx) w
  /\ selectedSSID w' = Some (Setup.net_ssid n)
  /\ frames_sent w'
     = (frames_sent w
        ++ frames_added (App.is_open (ws w))
             (CmdWifiConnect (Some (Setup.net_ssid n)) EmptyString))%list
  /\ kbdText w' = kbdText w
  /\ (forall r, r <> by_id "wifi-status" ->
                lookup_node r (page w') = lookup_node r (page w)).
Proof.
  intros Hn Hsec w'. subst w'.
  pose proof (wifiSelect_open_hoare nets idx n w Hn Hsec w eq_refl) as H.
  unfold completes_normally, completion_of, world_after.
  destruct (Setup.wifiSelect nets idx w) as [w1 [a | e]]; [| destruct H].
  destruct H as ((H1 & H2 & _ & H4) & Hfs & _).
  split; [eauto | split; [exact H1 | split; [exact Hfs | split; [exact H2 |]]]].
  intros r Hr. apply H4. rewrite elem_of_cons, elem_of_nil. tauto.
Qed.

Lemma updateKbdDisplay_keeps (I E : World -> Prop) :
  (forall f, stable_under_write I (by_id "kbd-input-display") f) ->
  hoare I Setup.updateKbdDisplay (fun _ => I) E.
Proof.
  intros HI. unfold Setup.updateKbdDisplay.
  apply hoare_getEl_bind. intros r Hr.
  apply hoare_gets_bind_any. intros txt.
  apply hoare_when_present. apply (stable_from_id _ _ _ _ Hr). apply HI.
Qed.

Lemma buildKeyboard_keeps (I : World -> Prop) :
  (forall w, I w -> present (by_id "keyboard") w) ->
  (forall f, stable_under_write I (by_id "keyboard") f) ->
  hoare I Setup.buildKeyboard (fun _ => I) nothing_thrown.
Proof.
  intros Hp HI. unfold Setup.buildKeyboard.
  apply hoare_getEl_bind_found; [exact Hp |].
  apply hoare_gets_bind_any. intros mode. cbv zeta.
  apply hoare_deref_some_bind. apply hoare_write, HI.
Qed.

(** The facts that [wifiSelect] establishes for a secured network and
    that the rest of the call keeps. *)
Lemma wifiSelect_secured_hoare (nets : list Setup.Network) (idx : nat)
      (n : Setup.Network) (s0 : option WebSocket) :
  nets !! idx = Some n -> Setup.net_secured n = true ->
  hoare (fun w => ws w = s0
                  /\ present (by_id "kbd-ssid-label") w
                  /\ present (by_id "keyboard") w
                  /\ present (by_id "keyboard-overlay") w)
        (Setup.wifiSelect nets idx)
        (fun _ w => (selectedSSID w = Some (Setup.net_ssid n)
                     /\ kbdText w = EmptyString /\ kbdMode w = KbdLower /\ ws w = s0)
                    /\ (Setup.net_ssid n <> EmptyString ->
                        children_are (by_id "kbd-ssid-label")
                                     [TextNode (Setup.net_ssid n)] w)
                    /\ class_is (by_id "keyboard-overlay") "hidden" false w)
        nothing_thrown.
Proof.
  intros Hn Hsec. unfold Setup.wifiSelect. rewrite Hn, Hsec. cbv zeta. simpl negb. cbv iota.
  set (S := fun w => selectedSSID w = Some (Setup.net_ssid n)
                     /\ kbdText w = EmptyString /\ kbdMode w = KbdLower /\ ws w = s0).
  set (P := fun w => present (by_id "kbd-ssid-label") w
                     /\ present (by_id "keyboard") w
                     /\ present (by_id "keyboard-overlay") w).
  set (L := fun w => Setup.net_ssid n <> EmptyString ->
                     children_are (by_id "kbd-ssid-label")
                                  [TextNode (Setup.net_ssid n)] w).
  assert (forall r f, stable_under_write P r f) as HP.
  { intros r f w (H1 & H2 & H3).
    split; [| split]; apply stable_present; assumption. }
  assert (forall r f, r <> by_id "kbd-ssid-label" -> stable_under_write L r f) as HL.
  { intros r f Hr w Hw Hne. apply stable_children_other; [exact Hr | apply Hw, Hne]. }
  eapply hoare_bind
    with (R := fun _ w => selectedSSID w = Some (Setup.net_ssid n) /\ ws w = s0 /\ P w).
  { apply hoare_modify. intros w (Hs & Hp). split; [reflexivity | split; [exact Hs | exact Hp]]. }
  intros ?. eapply hoare_bind
    with (R := fun _ w => selectedSSID w = Some (Setup.net_ssid n) /\ ws w = s0 /\ P w
                          /\ kbdText w = EmptyString).
  { apply hoare_modify. intros w (H1 & H2 & H3). simpl. auto. }
  intros ?. eapply hoare_bind with (R := fun _ w => S w /\ P w).
  { apply hoare_modify. intros w (H1 & H2 & H3 & H4). unfold S. simpl. auto. }
  intros ?. apply hoare_getEl_bind_found; [intros w (_ & Hp); apply Hp |].
  apply hoare_deref_some_bind.
  apply hoare_gets_bind_val with (a0 := Some (Setup.net_ssid n));
    [intros w (Hs & _); apply Hs |].
  eapply hoare_bind with (R := fun _ w => (S w /\ P w) /\ L w).
  { apply hoare_modify. intros w (Hs & Hp).
    split; [split; [exact Hs | apply HP, Hp] |].
    intros Hne. apply children_after_text; [apply Hp | exact Hne]. }
  assert (forall r f, r <> by_id "kbd-ssid-label" ->
            stable_under_write (fun w => (S w /\ P w) /\ L w) r f) as HSPL.
  { intros r f Hr w ((Hs & Hp) & Hl).
    split; [split; [exact Hs | apply HP, Hp] | apply (HL r f Hr w Hl)]. }
  intros ?. eapply hoare_bind.
  { apply updateKbdDisplay_keeps. intros f. apply HSPL, by_id_neq. discriminate. }
  intros ?. eapply hoare_bind.
  { apply buildKeyboard_keeps.
    - intros w ((_ & Hp) & _). apply Hp.
    - intros f. apply HSPL, by_id_neq. discriminate. }
  intros ?. apply hoare_getEl_bind_found; [intros w ((_ & Hp) & _); apply Hp |].
  apply hoare_deref_some_bind.
  apply hoare_modify. intros w ((Hs & Hp) & Hl).
  split; [exact Hs | split].
  - assert (by_id "keyboard-overlay" <> by_id "kbd-ssid-label") as Hne
      by (apply by_id_neq; discriminate).
    apply (HL _ _ Hne w Hl).
  - apply class_is_set; [apply Hp |]. intros e. rewrite classList_remove_spec.
    split; [intros [_ H]; congruence | discriminate].
Qed.

(** X25.  Selecting a secured network asks for the password first: on a
    page with the elements of the keyboard, [wifiSelect] returns with the
    network's ssid in [selectedSSID] and in the label of the keyboard,
    the typed text empty, the lower-case layout, and the keyboard overlay
    shown; it writes nothing to the socket. *)
Theorem wifiSelect_secured_network (nets : list Setup.Network) (idx : nat)
        (n : Setup.Network) (w : World) :
  nets !! idx = Some n -> Setup.net_secured n = true ->
  present (by_id "kbd-ssid-label") w ->
  present (by_id "keyboard") w ->
  present (by_id "keyboard-overlay") w ->
  let w' := world_after (Setup.wifiSelect nets idx) w in
  completes_normally (Setup.wifiSelect nets idx) w
  /\ selectedSSID w' = Some (Setup.net_ssid n)
  /\ kbdText w' = EmptyString
  /\ kbdMode w' = KbdLower
  /\ ws w' = ws w
  /\ is_visible (by_id "keyboard-overlay") (page w')
  /\ (Setup.net_ssid n <> EmptyString ->
      text_of (by_id "kbd-ssid-label") (page w') = Some [TextNode (Setup.net_ssid n)]).
Proof.
  intros Hn Hsec Hl Hk Ho w'. subst w'.
  pose proof (wifiSelect_secured_hoare nets idx n (ws w) Hn Hsec w
                (conj eq_refl (conj Hl (conj Hk Ho)))) as H.
  unfold completes_normally, completion_of, world_after.
  destruct (Setup.wifiSelect nets idx w) as [w1 [a | e]]; [| destruct H].
  destruct H as ((H1 & H2 & H3 & H4) & Hlbl & (e & He & Hhid)).
  cbn [fst snd].
  split; [eauto |]. repeat (split; [assumption |]). split.
  - exists e. split; [exact He |]. intros Hin. apply Hhid in Hin. discriminate.
  - intros Hne. destruct (Hlbl Hne) as (el & Hel & Hc).
    unfold text_of. rewrite Hel. simpl. rewrite Hc. reflexivity.
Qed.

Lemma kbdPress_ok_hoare (s : option string) (t : string) (fs : list Command) (b : bool) :
  hoare (fun w => present (by_id "keyboard-overlay") w
                  /\ selectedSSID w = s /\ kbdText w = t
                  /\ frames_sent w = fs /\ App.is_open (ws w) = b)
        (Setup.kbdPress "OK")
        (fun _ w => class_is (by_id "keyboard-overlay") "hidden" true w
                    /\ frames_sent w = (fs ++ frames_added b (CmdWifiConnect s t))%list
                    /\ App.is_open (ws w) = b)
        nothing_thrown.
Proof.
  assert (Setup.kbdPress "OK"
          = (ov <- getEl "keyboard-overlay" ;;
             ov <- deref "keyboard-overlay" ov ;;
             write ov (classList_add "hidden") ;;;
             ssid <- gets selectedSSID ;;
             txt <- gets kbdText ;;
             App.send (CmdWifiConnect ssid txt) ;;;
             Setup.setWifiStatus ("Connecting to " +:+ Setup.ssid_text ssid +:+ "...") "warn"))
    as -> by reflexivity.
  apply hoare_getEl_bind_found; [intros w Hw; apply Hw |].
  apply hoare_deref_some_bind.
  eapply hoare_bind
    with (R := fun _ w => (class_is (by_id "keyboard-overlay") "hidden" true w
                           /\ selectedSSID w = s /\ kbdText w = t)
                          /\ frames_sent w = fs /\ App.is_open (ws w) = b).
  { apply hoare_modify. intros w (Hp & Hs & Ht & Hfs). split; [| exact Hfs].
    split; [| auto]. apply class_is_set; [exact Hp |].
    intros e. rewrite classList_add_spec. tauto. }
  intros ?.
  apply hoare_gets_bind_val with (a0 := s); [intros w ((_ & Hs & _) & _); exact Hs |].
  apply hoare_gets_bind_val with (a0 := t); [intros w ((_ & _ & Ht) & _); exact Ht |].
  eapply hoare_bind.
  { apply hoare_send_frames. intros w s1 H. exact H. }
  intros ?. eapply hoare_post.
  - apply setWifiStatus_keeps. intros f w ((Hc & Hs & Ht) & Hfs).
    split; [split; [| auto] | exact Hfs].
    apply class_is_other; [apply by_id_neq; discriminate | exact Hc].
  - intros u w ((Hc & _) & Hfs). split; [exact Hc | exact Hfs].
Qed.

(** X26.  From the list of networks to the gateway: selecting a secured
    network, typing a run of character keys and pressing [OK], on a page
    with the elements of the keyboard, sends the one frame
    [{cmd: 'wifi_connect', ssid, password}] with the ssid of the selected
    network and exactly the typed characters as password (to an open
    socket; nothing is sent otherwise), and hides the keyboard again. *)
Theorem wifi_password_flow (nets : list Setup.Network) (idx : nat) (n : Setup.Network)
        (keys : list string) (w : World) :
  nets !! idx = Some n -> Setup.net_secured n = true ->
  Forall (fun k => String.length k = 1%nat) keys ->
  present (by_id "kbd-ssid-label") w ->
  present (by_id "keyboard") w ->
  present (by_id "keyboard-overlay") w ->
  let w1 := world_after (Setup.wifiSelect nets idx) w in
  let w2 := after_keys keys w1 in
  let w3 := world_after (Setup.kbdPress "OK") w2 in
  completes_normally (Setup.kbdPress "OK") w2
  /\ frames_sent w3
     = (frames_sent w
        ++ frames_added (App.is_open (ws w))
             (CmdWifiConnect (Some (Setup.net_ssid n)) (Setup.join keys)))%list
  /\ is_hidden (by_id "keyboard-overlay") (page w3).
Proof.
  intros Hn Hsec Hkeys Hl Hk Ho w1 w2 w3.
  assert (selectedSSID w1 = Some (Setup.net_ssid n) /\ kbdText w1 = EmptyString
          /\ ws w1 = ws w /\ present (by_id "keyboard-overlay") w1) as (Hs1 & Ht1 & Hw1 & Ho1).
  { subst w1.
    pose proof (wifiSelect_secured_hoare nets idx n (ws w) Hn Hsec w
                  (conj eq_refl (conj Hl (conj Hk Ho)))) as H.
    unfold world_after.
    destruct (Setup.wifiSelect nets idx w) as [w1 [a | e]]; [| destruct H].
    destruct H as ((H1 & H2 & _ & H4) & _ & (e & He & _)).
    simpl. repeat split; try assumption. exists e. exact He. }
  destruct (after_char_keys keys w1 Hkeys) as (Ht2 & Hw2 & Hs2 & Hp2).
  fold w2 in Ht2, Hw2, Hs2, Hp2.
  assert (frames_sent w2 = frames_sent w /\ App.is_open (ws w2) = App.is_open (ws w))
    as [Hfs Hopen].
  { unfold frames_sent. rewrite Hw2, Hw1. split; reflexivity. }
  pose proof (kbdPress_ok_hoare (Some (Setup.net_ssid n)) (Setup.join keys)
                (frames_sent w) (App.is_open (ws w)) w2) as H.
  assert (kbdText w2 = Setup.join keys) as Ht.
  { rewrite Ht2, Ht1. reflexivity. }
  specialize (H (conj (Hp2 _ Ho1)
                   (conj (eq_trans Hs2 Hs1) (conj Ht (conj Hfs Hopen))))).
  subst w3. unfold completes_normally, completion_of, world_after.
  destruct (Setup.kbdPress "OK" w2) as [w3 [a | e]]; [| destruct H].
  destruct H as ((e & He & Hh) & Hfs3 & _).
  split; [eauto | split; [exact Hfs3 |]].
  exists e. split; [exact He | apply Hh; reflexivity].
Qed.

(** X27.  An acknowledgement only touches the two status lines: the
    [cmd_ack] listener returns for every message, writes nothing to the
    socket, keeps the typed text and the selected network, and changes no
    element of the page other than [wifi-status] and [ble-status]. *)
Theorem on_cmd_ack_touches_status_only (msg : Msg) (w : World) :
  let w' := world_after (Setup.on_cmd_ack msg) w in
  completes_normally (Setup.on_cmd_ack msg) w
  /\ ws w' = ws w
  /\ kbdText w' = kbdText w
  /\ selectedSSID w' = selectedSSID w
  /\ (forall r, r <> by_id "wifi-status" -> r <> by_id "ble-status" ->
                lookup_node r (page w') = lookup_node r (page w)).
Proof.
  intros w'. subst w'.
  set (I := fun w1 => (ws w1 = ws w /\ kbdText w1 = kbdText w
                       /\ selectedSSID w1 = selectedSSID w)
                      /\ page_same_except [by_id "wifi-status"; by_id "ble-status"]
                                          (page w) w1).
  assert (forall r f, r ∈ [by_id "wifi-status"; by_id "ble-status"] ->
            stable_under_write I r f) as HI.
  { intros r f Hr w1 [Hs Hp]. split; [exact Hs |].
    apply stable_page_same_except; assumption. }
  assert (hoare I (Setup.on_cmd_ack msg) (fun _ => I) nothing_thrown) as H.
  { unfold Setup.on_cmd_ack.
    repeat
      lazymatch goal with
      | |- hoare _ (if ?b then _ else _) _ _ => destruct b
      | |- hoare _ (Setup.setWifiStatus _ _) _ _ =>
          apply setWifiStatus_keeps; intros f; apply HI;
          rewrite !elem_of_cons; auto
      | |- hoare _ (Setup.setBleStatus _ _) _ _ =>
          apply setBleStatus_keeps; intros f; apply HI;
          rewrite !elem_of_cons; auto
      | |- hoare _ (ret _) _ _ => apply hoare_ret; auto
      | |- hoare _ (bind _ _) _ _ => eapply hoare_bind; [| intros ?]
      end. }
  assert (I w) as Hw.
  { split; [auto | intros r _; reflexivity]. }
  specialize (H w Hw).
  unfold completes_normally, completion_of, world_after.
  destruct (Setup.on_cmd_ack msg w) as [w1 [a | e]]; [| destruct H].
  destruct H as ((H1 & H2 & H3) & H4).
  split; [eauto |]. repeat (split; [assumption |]).
  intros r Hr1 Hr2. apply H4. rewrite !elem_of_cons, elem_of_nil. tauto.
Qed.

End SetupScreen.

Lemma wifiScan_request_witness :
  present (by_id "wifi-list") setup_world
  /\ present (by_id "wifi-status") setup_world
  /\ frames_sent (world_after Setup.wifiScan setup_world)
     = (frames_sent setup_world
        ++ frames_added (App.is_open (ws setup_world)) CmdWifiScan)%list.
Proof.
  assert (present (by_id "wifi-list") setup_world) as Hl by (vm_compute; eauto).
  assert (present (by_id "wifi-status") setup_world) as Hs by (vm_compute; eauto).
  split; [exact Hl | split; [exact Hs |]].
  exact (proj2 (proj2 (wifiScan_request setup_world Hl Hs))).
Defined.

Lemma bleScan_request_witness :
  present (by_id "ble-list") setup_world
  /\ present (by_id "ble-status") setup_world
  /\ frames_sent (world_after Setup.bleScan setup_world)
     = (frames_sent setup_world
        ++ frames_added (App.is_open (ws setup_world)) CmdBleScan)%list.
Proof.
  assert (present (by_id "ble-list") setup_world) as Hl by (vm_compute; eauto).
  assert (present (by_id "ble-status") setup_world) as Hs by (vm_compute; eauto).
  split; [exact Hl | split; [exact Hs |]].
  exact (proj2 (proj2 (bleScan_request setup_world Hl Hs))).
Defined.

Lemma wifiSelect_open_network_witness :
  sample_networks !! 0%nat = Some (Setup.mkNetwork "Cafe" false)
  /\ Setup.net_secured (Setup.mkNetwork "Cafe" false) = false
  /\ selectedSSID (world_after (Setup.wifiSelect sample_networks 0) setup_world)
     = Some (Setup.net_ssid (Setup.mkNetwork "Cafe" false)).
Proof.
  assert (sample_networks !! 0%nat = Some (Setup.mkNetwork "Cafe" false)) as Hn
    by reflexivity.
  assert (Setup.net_secured (Setup.mkNetwork "Cafe" false) = false) as Hs by reflexivity.
  split; [exact Hn | split; [exact Hs |]].
  exact (proj1 (proj2 (wifiSelect_open_network sample_networks 0 _ setup_world Hn Hs))).
Defined.

Lemma wifiSelect_secured_network_witness :
  sample_networks !! 1%nat = Some (Setup.mkNetwork "Home" true)
  /\ Setup.net_secured (Setup.mkNetwork "Home" true) = true
  /\ present (by_id "kbd-ssid-label") setup_world
  /\ present (by_id "keyboard") setup_world
  /\ present (by_id "keyboard-overlay") setup_world
  /\ completes_normally (Setup.wifiSelect sample_networks 1) setup_world.
Proof.
  assert (sample_networks !! 1%nat = Some (Setup.mkNetwork "Home" true)) as Hn
    by reflexivity.
  assert (Setup.net_secured (Setup.mkNetwork "Home" true) = true) as Hs by reflexivity.
  assert (present (by_id "kbd-ssid-label") setup_world) as Hl by (vm_compute; eauto).
  assert (present (by_id "keyboard") setup_world) as Hk by (vm_compute; eauto).
  assert (present (by_id "keyboard-overlay") setup_world) as Ho by (vm_compute; eauto).
  split; [exact Hn | split; [exact Hs | split; [exact Hl | split; [exact Hk |
    split; [exact Ho |]]]]].
  exact (proj1 (wifiSelect_secured_network sample_networks 1 _ setup_world
                                           Hn Hs Hl Hk Ho)).
Defined.

Lemma wifi_password_flow_witness :
  sample_networks !! 1%nat = Some (Setup.mkNetwork "Home" true)
  /\ Setup.net_secured (Setup.mkNetwork "Home" true) = true
  /\ Forall (fun k => String.length k = 1%nat) ["p"; "w"; "1"]
  /\ present (by_id "kbd-ssid-label") setup_world
  /\ present (by_id "keyboard") setup_world
  /\ present (by_id "keyboard-overlay") setup_world
  /\ frames_sent
       (world_after (Setup.kbdPress "OK")
          (after_keys ["p"; "w"; "1"]
             (world_after (Setup.wifiSelect sample_networks 1) setup_world)))
     = (frames_sent setup_world
        ++ frames_added (App.is_open (ws setup_world))
             (CmdWifiConnect (Some (Setup.net_ssid (Setup.mkNetwork "Home" true)))
                             (Setup.join ["p"; "w"; "1"])))%list.
Proof.
  assert (sample_networks !! 1%nat = Some (Setup.mkNetwork "Home" true)) as Hn
    by reflexivity.
  assert (Setup.net_secured (Setup.mkNetwork "Home" true) = true) as Hs by reflexivity.
  assert (Forall (fun k => String.length k = 1%nat) ["p"; "w"; "1"]) as Hkeys
    by (repeat constructor).
  assert (present (by_id "kbd-ssid-label") setup_world) as Hl by (vm_compute; eauto).
  assert (present (by_id "keyboard") setup_world) as Hk by (vm_compute; eauto).
  assert (present (by_id "keyboard-overlay") setup_world) as Ho by (vm_compute; eauto).
  split; [exact Hn | split; [exact Hs | split; [exact Hkeys | split; [exact Hl |
    split; [exact Hk | split; [exact Ho |]]]]]].
  exact (proj1 (proj2 (wifi_password_flow sample_networks 1 _ ["p"; "w"; "1"] setup_world
                                          Hn Hs Hkeys Hl Hk Ho))).
Defined.

(** ** app.js: connecting, and listeners that raise *)

Section Connecting.

Lemma send_each_from_closed (cmds : list Command) (i : nat) (w : World) :
  App.is_open (ws w) = false ->
  forEach_from i cmds (fun c _ => App.send c) w = (w, Normal tt).
Proof.
  intros Hc. revert i. induction cmds as [| c cmds IH]; intros i; simpl.
  - reflexivity.
  - unfold bind. rewrite (send_closed c w Hc). apply IH.
Qed.

Lemma clockTick_run (w : World) :
  exists p, App.clockTick w = (set_page p w, Normal tt).
Proof.
  unfold App.clockTick, bind, getEl, gets, when_present, write, modify.
  destruct (getElementById "clock" (page w)).
  - eexists. reflexivity.
  - exists (page w). destruct w; reflexivity.
Qed.

(** X28.  Nothing is queued while the socket connects: whatever commands
    are handed to [App.send] between [connect] and the moment the socket
    opens, the socket opens with no frame written to it, so none of them
    reaches the gateway; the frames of the socket that [connect] replaced
    are not carried over either. *)
Theorem commands_before_open_are_dropped (cmds : list Command) (w : World) :
  completes_normally (connect_then_open cmds) w
  /\ ws (world_after (connect_then_open cmds) w) = Some (mkWebSocket OPEN []).
Proof.
  assert (connect_then_open cmds w
          = App.clockTick (set_ws (Some (mkWebSocket OPEN []))
                             (set_ws (Some (mkWebSocket CONNECTING [])) w))) as Hrun.
  { unfold connect_then_open, App.connect, send_each, forEach, bind, modify.
    rewrite send_each_from_closed by reflexivity.
    unfold App.ws_onopen, bind, gets, modify. reflexivity. }
  unfold completes_normally, completion_of, world_after. rewrite Hrun.
  destruct (clockTick_run (set_ws (Some (mkWebSocket OPEN []))
                             (set_ws (Some (mkWebSocket CONNECTING [])) w)))
    as [p ->].
  split; [eauto | reflexivity].
Qed.

Lemma forEach_from_app {A} (l1 l2 : list A) (f : A -> nat -> M unit) (i : nat) (w : World) :
  forEach_from i (l1 ++ l2) f w
  = match forEach_from i l1 f w with
    | (w1, Normal _) => forEach_from (i + length l1) l2 f w1
    | (w1, Throw e) => (w1, Throw e)
    end.
Proof.
  revert i w. induction l1 as [| x l1 IH]; intros i w; simpl.
  - rewrite Nat.add_0_r. reflexivity.
  - unfold bind. destruct (f x i w) as [w1 [[] | e]]; [| reflexivity].
    rewrite IH. replace (S i + length l1)%nat with (i + S (length l1))%nat by lia.
    reflexivity.
Qed.

(** X29.  A listener that raises ends the dispatch: when the listeners of
    the message's type before it return and it raises, [dispatch] raises
    the same error in the state that the listener left; the listeners
    registered after it and the ['*'] listeners do not run. *)
Theorem dispatch_stops_at_raising_listener
        (call : Listener -> Msg -> M unit) (msg : Msg) (k : string)
        (l1 l2 : list Listener) (fn : Listener) (w w1 w2 : World) (e : JSError) :
  msg_type msg = Some k -> k <> "toggle_view" ->
  App.own_property k (listeners w) = Some (l1 ++ fn :: l2)%list ->
  forEach l1 (fun f _ => call f msg) w = (w1, Normal tt) ->
  call fn msg w1 = (w2, Throw e) ->
  App.dispatch call msg w = (w2, Throw e).
Proof.
  intros Ht Hk Hown Hl1 Hfn.
  assert (App.listeners_of k w = (w, Normal (l1 ++ fn :: l2)%list)) as Hl.
  { unfold App.listeners_of, bind, gets. rewrite Hown. reflexivity. }
  unfold App.dispatch. rewrite Ht.
  rewrite bool_decide_eq_false_2 by congruence.
  unfold bind at 1. unfold App.type_key. rewrite Hl.
  unfold bind at 1. unfold forEach at 1. rewrite forEach_from_app.
  unfold forEach in Hl1. rewrite Hl1. simpl forEach_from.
  unfold bind at 1. rewrite Hfn. reflexivity.
Qed.

End Connecting.

Lemma dispatch_stops_at_raising_listener_witness :
  let w := set_listeners (<["cmd_ack" := [0; 1; 2]%nat]> ∅) sample_world in
  let msg := mkMsg (Some "cmd_ack") (Some "wifi_scan") None in
  msg_type msg = Some "cmd_ack" /\ "cmd_ack" <> "toggle_view"
  /\ App.own_property "cmd_ack" (listeners w) = Some ([0%nat] ++ 1%nat :: [2%nat])%list
  /\ forEach [0%nat] (fun f _ => faulty_listener f msg) w = (w, Normal tt)
  /\ faulty_listener 1 msg w = (w, Throw (TypeError "listener"))
  /\ App.dispatch faulty_listener msg w = (w, Throw (TypeError "listener")).
Proof.
  intros w msg.
  assert (msg_type msg = Some "cmd_ack") as Ht by reflexivity.
  assert ("cmd_ack" <> "toggle_view") as Hk by discriminate.
  assert (App.own_property "cmd_ack" (listeners w)
          = Some ([0%nat] ++ 1%nat :: [2%nat])%list) as Ho by reflexivity.
  assert (forEach [0%nat] (fun f _ => faulty_listener f msg) w = (w, Normal tt)) as H1
    by reflexivity.
  assert (faulty_listener 1 msg w = (w, Throw (TypeError "listener"))) as H2
    by reflexivity.
  split; [exact Ht | split; [exact Hk | split; [exact Ho | split; [exact H1 |
    split; [exact H2 |]]]]].
  exact (dispatch_stops_at_raising_listener faulty_listener msg "cmd_ack"
           [0%nat] [2%nat] 1%nat w w w _ Ht Hk Ho H1 H2).
Defined.
